(** * Task-manager templates: a shallow embedding and its properties

    The development follows the TypeScript sources of the repository:
    - [Config]      : configs/config.template.ts (status and priority tables)
    - [Priority]    : the priority-indicator utilities (comparePriorities, sortByPriority,
                      groupByPriority, filterByPriority, getHighPriorityTasks)
    - [Validation]  : the validation utilities (validateTask, validateTaskBatch,
                      findCircularDependencies, wouldCreateCircularDependency,
                      generateTaskId, sanitizeTask)
    - [Helpers]     : basic-task-manager/utils/helpers.ts (identifiers, validation,
                      filtering, sorting, grouping, formatting, counting)
    - [Storage]     : basic-task-manager/utils/storage.ts (the four adapters, backups)
    - [Hook]        : basic-task-manager/hooks/useSimpleTasks.ts

    JavaScript strings are modelled by [string]; one [ascii] stands for one
    code unit (code units 0..255).  Numbers that the code only uses as
    integers are modelled by [Z] or [N]. *)

From stdpp Require Import base tactics option list strings gmap sets pretty sorting relations.
From Stdlib Require Import ZArith Lia Ascii.

(** ** JavaScript platform primitives used by the sources *)

Module Js.

(** [Array.prototype.includes] on an array of strings. *)
Definition includes (x : string) (l : list string) : bool :=
  bool_decide (x ∈ l).

(** [Array.prototype.indexOf]: [None] stands for the result [-1]. *)
Fixpoint indexOf (x : string) (l : list string) : option nat :=
  match l with
  | [] => None
  | y :: l' => if decide (y = x) then Some 0 else S <$> indexOf x l'
  end.

(** [Array.prototype.slice(start)] with a non-negative start. *)
Definition slice {A} (start : nat) (l : list A) : list A := drop start l.

(** [Array.prototype.forEach] with a callback that threads a state and
    may fail: the callback runs on the elements from left to right. *)
Fixpoint forEachM {A S} (f : A → S → option S) (l : list A) (s : S) : option S :=
  match l with
  | [] => Some s
  | x :: l' =>
      match f x s with
      | Some s' => forEachM f l' s'
      | None => None
      end
  end.

(** White space and line terminators among the code units 0..255: TAB,
    LF, VT, FF, CR, SPACE and NO-BREAK SPACE. *)
Definition isWhiteSpace (c : ascii) : bool :=
  match c with
  | "009" | "010" | "011" | "012" | "013" | " " | "160" => true
  | _ => false
  end%char.

Fixpoint trimStart (s : string) : string :=
  match s with
  | String c s' => if isWhiteSpace c then trimStart s' else s
  | EmptyString => EmptyString
  end.

Definition trimEnd (s : string) : string :=
  String.rev (trimStart (String.rev s)).

(** [String.prototype.trim]. *)
Definition trim (s : string) : string := trimEnd (trimStart s).

(** [String.prototype.length], as a number. *)
Definition len (s : string) : Z := Z.of_nat (String.length s).

(** [Array.prototype.join] on an array of strings. *)
Definition join (sep : string) (l : list string) : string :=
  String.concat sep l.

(** [Number.prototype.toString] on an integer, in base ten. *)
Definition toString (n : Z) : string := pretty n.

Definition isDigit (c : ascii) : bool :=
  match c with
  | "0" | "1" | "2" | "3" | "4" | "5" | "6" | "7" | "8" | "9" => true
  | _ => false
  end%char.

Definition isDigit1to9 (c : ascii) : bool :=
  match c with
  | "1" | "2" | "3" | "4" | "5" | "6" | "7" | "8" | "9" => true
  | _ => false
  end%char.

(** The default [idPattern]: anchored at both ends, one or more segments
    separated by single dots, each segment a digit 1-9 followed by any
    number of digits 0-9.  It is written as the automaton the regular
    expression denotes: [inSegment] holds once the current segment has
    its leading digit. *)
Fixpoint idPatternFrom (inSegment : bool) (s : string) : bool :=
  match s with
  | EmptyString => inSegment
  | String c s' =>
      if inSegment then
        if isDigit c then idPatternFrom true s'
        else if Ascii.eqb c "." then idPatternFrom false s'
        else false
      else
        if isDigit1to9 c then idPatternFrom true s' else false
  end.

Definition defaultIdPattern (s : string) : bool := idPatternFrom false s.

(** Property access [o[key]] on an object literal with string keys, kept
    as the list of its entries in source order; [None] is [undefined]. *)
Fixpoint prop {A} (key : string) (o : list (string * A)) : option A :=
  match o with
  | [] => None
  | (k, v) :: o' => if decide (k = key) then Some v else prop key o'
  end.

(** [Object.keys]. *)
Definition keys {A} (o : list (string * A)) : list string := fst <$> o.

(** [Array.prototype.sort] with a comparator.  The standard requires the
    sort to be stable; for a consistent comparator that fixes the result,
    which is computed here by insertion from the right: [x] moves behind
    [y] only when the comparator says [x] comes after [y]. *)
Fixpoint sortInsert {A} (cmp : A → A → Z) (x : A) (l : list A) : list A :=
  match l with
  | [] => [x]
  | y :: l' =>
      if (0 <? cmp x y)%Z then y :: sortInsert cmp x l' else x :: l
  end.

Definition sort {A} (cmp : A → A → Z) (l : list A) : list A :=
  foldr (sortInsert cmp) [] l.

(** A number that may be [NaN]; [None] is [NaN]. *)
Definition minus (a b : option Z) : option Z :=
  match a, b with
  | Some x, Some y => Some (x - y)%Z
  | _, _ => None
  end.

Definition negate (a : option Z) : option Z := Z.opp <$> a.

(** What [Array.prototype.sort] makes of the result of its comparator:
    [NaN] counts as [+0]. *)
Definition compareResult (v : option Z) : Z := default 0%Z v.

(** [indexOf] as the number the source computes with. *)
Definition indexOfZ (x : string) (l : list string) : Z :=
  match indexOf x l with
  | Some i => Z.of_nat i
  | None => (-1)%Z
  end.

Definition digit36 (d : N) : ascii :=
  if (d <? 10)%N then ascii_of_N (48 + d) else ascii_of_N (87 + d).

Fixpoint toString36From (fuel : nat) (n : N) (acc : string) : string :=
  match fuel with
  | O => acc
  | S fuel' =>
      if (n =? 0)%N then acc
      else toString36From fuel' (n / 36)%N (String (digit36 (n mod 36)%N) acc)
  end.

(** [Number.prototype.toString(36)] on a non-negative integer; the number
    of binary digits bounds the number of base-36 digits. *)
Definition toString36 (n : N) : string :=
  if (n =? 0)%N then "0" else toString36From (N.size_nat n) n "".

(** [String.prototype.substr(start, length)]. *)
Definition substr (start length : nat) (s : string) : string :=
  String.substring start length s.

(** The double-quote character of the template strings. *)
Definition dquote : string := String "034"%char EmptyString.

(** *** Further primitives *)

(** Assignment [o[key] = value] on a plain object used as a record, kept as
    a map: [__proto__] is the accessor of [Object.prototype], so assigning
    an object to it replaces the prototype and adds no own property. *)
Definition setProp {A} (key : string) (v : A) (o : gmap string A)
    : gmap string A :=
  if decide (key = "__proto__") then o else <[key := v]> o.

(** A [Map] with string keys, as the list of its entries in insertion
    order. *)
Fixpoint mapGet {A} (key : string) (m : list (string * A)) : option A :=
  match m with
  | [] => None
  | (k, v) :: m' => if decide (k = key) then Some v else mapGet key m'
  end.

(** [Map.prototype.set]: an existing key keeps its place. *)
Fixpoint mapSet {A} (key : string) (v : A) (m : list (string * A))
    : list (string * A) :=
  match m with
  | [] => [(key, v)]
  | (k, v') :: m' =>
      if decide (k = key) then (k, v) :: m' else (k, v') :: mapSet key v m'
  end.

(** [[...new Set(l)]]: the elements in the order of their first
    occurrence; [seen] holds the elements already met. *)
Fixpoint uniqFrom (seen : list string) (l : list string) : list string :=
  match l with
  | [] => []
  | x :: l' =>
      if decide (x ∈ seen) then uniqFrom seen l'
      else x :: uniqFrom (x :: seen) l'
  end.

Definition uniq (l : list string) : list string := uniqFrom [] l.

(** The value of a digit in the radix, for [parseInt]. *)
Definition digitValue (radix : Z) (c : ascii) : option Z :=
  let n := Z.of_N (N_of_ascii c) in
  let v :=
    if (48 <=? n)%Z && (n <=? 57)%Z then Some (n - 48)%Z
    else if (97 <=? n)%Z && (n <=? 122)%Z then Some (n - 87)%Z
    else if (65 <=? n)%Z && (n <=? 90)%Z then Some (n - 55)%Z
    else None in
  match v with
  | Some d => if (d <? radix)%Z then Some d else None
  | None => None
  end.

(** The longest prefix of digits, read from the left; [None] when there is
    no digit. *)
Fixpoint parseDigits (radix : Z) (acc : option Z) (s : string) : option Z :=
  match s with
  | EmptyString => acc
  | String c s' =>
      match digitValue radix c with
      | Some d => parseDigits radix (Some (default 0%Z acc * radix + d)%Z) s'
      | None => acc
      end
  end.

Definition parseUnsigned (s : string) : option Z :=
  match s with
  | String "0" (String "x" s') | String "0" (String "X" s') =>
      parseDigits 16 None s'
  | _ => parseDigits 10 None s
  end.

(** [parseInt(s)] without a radix, as an exact integer; [None] is [NaN]. *)
Definition parseInt (s : string) : option Z :=
  match trimStart s with
  | String "-" s' => Z.opp <$> parseUnsigned s'
  | String "+" s' => parseUnsigned s'
  | s' => parseUnsigned s'
  end.

(** [String.prototype.toLowerCase] on the code units 0..255: the letters
    A-Z and the accented capitals 192..222, the multiplication sign 215
    excepted, move up by 32. *)
Definition lowerChar (c : ascii) : ascii :=
  let n := N_of_ascii c in
  if ((65 <=? n) && (n <=? 90))%N then ascii_of_N (n + 32)
  else if ((192 <=? n) && (n <=? 222) && negb (n =? 215))%N
  then ascii_of_N (n + 32)
  else c.

Fixpoint toLowerCase (s : string) : string :=
  match s with
  | EmptyString => EmptyString
  | String c s' => String (lowerChar c) (toLowerCase s')
  end.

Fixpoint startsWith (prefix s : string) : bool :=
  match prefix, s with
  | EmptyString, _ => true
  | String a p', String b s' => Ascii.eqb a b && startsWith p' s'
  | String _ _, EmptyString => false
  end.

(** [String.prototype.includes]. *)
Fixpoint stringIncludes (s search : string) : bool :=
  startsWith search s
  || match s with
     | EmptyString => false
     | String _ s' => stringIncludes s' search
     end.

(** [String.prototype.substring(0, end)]: a negative [end] counts as 0. *)
Definition substring0 (endIndex : Z) (s : string) : string :=
  String.substring 0 (Z.to_nat endIndex) s.

(** The names every plain object inherits from [Object.prototype]; the
    values under them are functions, or the prototype itself. *)
Definition objectPrototypeKeys : list string :=
  ["constructor"; "__defineGetter__"; "__defineSetter__"; "hasOwnProperty";
   "__lookupGetter__"; "__lookupSetter__"; "isPrototypeOf";
   "propertyIsEnumerable"; "toString"; "valueOf"; "__proto__";
   "toLocaleString"].

(** [isNaN] on a number that may be [NaN]. *)
Definition isNaN (n : option Z) : bool := bool_decide (n = None).

End Js.

(** ** configs/config.template.ts *)

Module Config.

(** An entry of [STATUS_CONFIG]; icons and colours are kept by name. *)
Record StatusEntry := {
  statusTitle : string;
  statusIcon : string;
  statusColor : string;
  statusDescription : string;
  canTransitionTo : option (list string);
}.

Definition STATUS_CONFIG : list (string * StatusEntry) :=
  [ ("pending",
     {| statusTitle := "Pending"; statusIcon := "Icon.Circle";
        statusColor := "Color.PrimaryText";
        statusDescription := "Tasks ready to start";
        canTransitionTo := Some ["in-progress"; "cancelled"] |});
    ("in-progress",
     {| statusTitle := "In Progress"; statusIcon := "Icon.Clock";
        statusColor := "Color.Blue";
        statusDescription := "Currently being worked on";
        canTransitionTo := Some ["review"; "done"; "deferred"] |});
    ("review",
     {| statusTitle := "Review"; statusIcon := "Icon.Eye";
        statusColor := "Color.Orange";
        statusDescription := "Awaiting review and approval";
        canTransitionTo := Some ["done"; "in-progress"] |});
    ("done",
     {| statusTitle := "Done"; statusIcon := "Icon.CheckCircle";
        statusColor := "Color.Green";
        statusDescription := "Completed tasks";
        canTransitionTo := Some ["in-progress"] |});
    ("deferred",
     {| statusTitle := "Deferred"; statusIcon := "Icon.Pause";
        statusColor := "Color.Yellow";
        statusDescription := "Postponed for later";
        canTransitionTo := Some ["pending"; "cancelled"] |});
    ("cancelled",
     {| statusTitle := "Cancelled"; statusIcon := "Icon.XMarkCircle";
        statusColor := "Color.Red";
        statusDescription := "Cancelled or abandoned";
        canTransitionTo := Some ["pending"] |}) ].

(** An entry of [PRIORITY_CONFIG]. *)
Record PriorityEntry := {
  priorityIcon : string;
  priorityColor : string;
  priorityLabel : string;
  weight : Z;
  priorityDescription : option string;
}.

Definition PRIORITY_CONFIG : list (string * PriorityEntry) :=
  [ ("high",
     {| priorityIcon := "Icon.ExclamationMark"; priorityColor := "Color.Red";
        priorityLabel := "High Priority"; weight := 3;
        priorityDescription :=
          Some "Urgent tasks requiring immediate attention" |});
    ("medium",
     {| priorityIcon := "Icon.Minus"; priorityColor := "Color.Orange";
        priorityLabel := "Medium Priority"; weight := 2;
        priorityDescription :=
          Some "Important tasks with moderate urgency" |});
    ("low",
     {| priorityIcon := "Icon.ChevronDown"; priorityColor := "Color.PrimaryText";
        priorityLabel := "Low Priority"; weight := 1;
        priorityDescription :=
          Some "Tasks that can be done when time permits" |}) ].

(** [STATUS_CONFIG[currentStatus]?.canTransitionTo || []]. *)
Definition getValidTransitions (currentStatus : string) : list string :=
  match Js.prop currentStatus STATUS_CONFIG with
  | Some config => default [] (canTransitionTo config)
  | None => []
  end.

Definition isValidTransition (from to : string) : bool :=
  Js.includes to (getValidTransitions from).

End Config.

(** ** The priority-indicator utilities *)

Module Priority.

(** [PRIORITY_CONFIG[priority]?.weight || 0]: a missing entry and a
    weight of zero both give [0]. *)
Definition getPriorityWeight (priority : string) : Z :=
  match Js.prop priority Config.PRIORITY_CONFIG with
  | Some config =>
      if (Config.weight config =? 0)%Z then 0%Z else Config.weight config
  | None => 0%Z
  end.

Definition comparePriorities (a b : string) : Z :=
  (getPriorityWeight b - getPriorityWeight a)%Z.

Section Generic.
(** [T extends { priority: TaskPriority }]. *)
Context {T : Type} (priority : T → string).

Definition sortByPriority (tasks : list T) : list T :=
  Js.sort (λ a b, comparePriorities (priority a) (priority b)) tasks.

(** [groupByPriority]: the accumulator starts as an empty object literal.
    Under a name of [Object.prototype] the test [!groups[priority]] finds
    the inherited value, which has no [push]: the call throws a
    [TypeError], here [None]. *)
Definition groupByPriority (tasks : list T) : option (gmap string (list T)) :=
  foldl
    (λ acc task,
       match acc with
       | Some groups =>
           match groups !! priority task with
           | Some group =>
               Some (<[priority task := group ++ [task]]> groups)
           | None =>
               if decide (priority task ∈ Js.objectPrototypeKeys) then None
               else Some (<[priority task := [task]]> groups)
           end
       | None => None
       end)
    (Some ∅) tasks.

Definition filterByPriority (tasks : list T) (priorities : list string)
    : list T :=
  List.filter (λ task, Js.includes (priority task) priorities) tasks.

(** [getHighPriorityTasks]; an absent [minWeight] is 2. *)
Definition getHighPriorityTasks (tasks : list T) (minWeight : option Z)
    : list T :=
  let minWeight := default 2%Z minWeight in
  List.filter (λ task, (minWeight <=? getPriorityWeight (priority task))%Z)
    tasks.
End Generic.

End Priority.

(** ** The validation utilities *)

Module Validation.

(** [Subtask] of configs/types.template.ts.  A dependency of a subtask is
    a number or a string. *)
Record Subtask := {
  st_id : Z;
  st_title : string;
  st_status : string;
  st_dependencies : option (list (Z + string));
}.

(** [Task] of configs/types.template.ts, as the validators read it: the
    status and the priority are the strings found at run time, and the
    optional fields are [None] when [undefined]. *)
Record Task := {
  id : string;
  title : string;
  description : option string;
  status : string;
  priority : string;
  dependencies : option (list string);
  complexityScore : option Z;
  subtasks : option (list Subtask);
}.

(** The copy [{ ...task, priority }] of a task with another priority. *)
Definition withPriority (p : string) (task : Task) : Task :=
  {| id := id task; title := title task; description := description task;
     status := status task; priority := p;
     dependencies := dependencies task;
     complexityScore := complexityScore task; subtasks := subtasks task |}.

(** *** findCircularDependencies *)

(** [new Map(tasks.map(task => [task.id, task]))]: a later entry with the
    same key replaces an earlier one. *)
Definition taskMapOf (tasks : list Task) : gmap string Task :=
  foldl (λ m task, <[id task := task]> m) ∅ tasks.

(** The three mutable objects the closure [dfs] shares. *)
Record DfsState := {
  visited : gset string;
  recursionStack : gset string;
  cycles : list (list string);
}.

Definition pushCycle (c : list string) (s : DfsState) : DfsState :=
  {| visited := visited s; recursionStack := recursionStack s;
     cycles := cycles s ++ [c] |}.

Definition enter (taskId : string) (s : DfsState) : DfsState :=
  {| visited := {[taskId]} ∪ visited s;
     recursionStack := {[taskId]} ∪ recursionStack s;
     cycles := cycles s |}.

Definition leave (taskId : string) (s : DfsState) : DfsState :=
  {| visited := visited s;
     recursionStack := recursionStack s ∖ {[taskId]};
     cycles := cycles s |}.

(** The inner function [dfs].  The recursion of the source is bounded by
    [fuel]; [None] means the bound was reached. *)
Fixpoint dfs (taskMap : gmap string Task) (fuel : nat)
    (taskId : string) (path : list string) (s : DfsState) : option DfsState :=
  match fuel with
  | O => None
  | S fuel' =>
      if decide (taskId ∈ recursionStack s) then
        match Js.indexOf taskId path with
        | Some cycleStart => Some (pushCycle (Js.slice cycleStart path) s)
        | None => Some s
        end
      else if decide (taskId ∈ visited s) then Some s
      else
        let s1 := enter taskId s in
        let deps :=
          match taskMap !! taskId with
          | Some task => default [] (dependencies task)
          | None => []
          end in
        match
          Js.forEachM
            (λ depId s',
               if decide (is_Some (taskMap !! depId))
               then dfs taskMap fuel' depId (path ++ [depId]) s'
               else Some s')
            deps s1
        with
        | Some s2 => Some (leave taskId s2)
        | None => None
        end
  end.

Definition dfsInit : DfsState :=
  {| visited := ∅; recursionStack := ∅; cycles := [] |}.

(** The outer loop [tasks.forEach(task => ...)] and the returned cycles.
    The depth of the recursion never exceeds the number of tasks plus one
    (lemma [findCircularDependencies_spec] below). *)
Definition findCircularDependencies (tasks : list Task) : option (list (list string)) :=
  let taskMap := taskMapOf tasks in
  cycles <$>
    Js.forEachM
      (λ task s,
         if decide (id task ∈ visited s) then Some s
         else dfs taskMap (S (length tasks)) (id task) [id task] s)
      tasks dfsInit.

(** *** validateTask *)

Record ValidationResult := {
  isValid : bool;
  errors : list string;
  warnings : list string;
}.

(** [ValidationOptions]: every field is optional; [idPattern] is the
    [test] method of the regular expression. *)
Record ValidationOptions := {
  requireDescriptionForPriority : option (list string);
  maxTitleLength : option Z;
  minTitleLength : option Z;
  maxDescriptionLength : option Z;
  idPattern : option (string → bool);
  checkCircularDependencies : option bool;
  existingTasks : option (list Task);
  allowEmptySubtasks : option bool;
}.

(** The default argument [options = {}]. *)
Definition noOptions : ValidationOptions :=
  {| requireDescriptionForPriority := None; maxTitleLength := None;
     minTitleLength := None; maxDescriptionLength := None;
     idPattern := None; checkCircularDependencies := None;
     existingTasks := None; allowEmptySubtasks := None |}.

Definition validStatuses : list string :=
  ["pending"; "in-progress"; "review"; "done"; "deferred"; "cancelled"].

Definition validPriorities : list string := ["high"; "medium"; "low"].

(** [validateSubtask]; the parameter [index] is not used by the source. *)
Definition validateSubtask (subtask : Subtask) (parentTaskId : string)
    (index : nat) : list string :=
  (if (st_id subtask <? 1)%Z
   then ["Subtask ID must be a positive number"] else [])
  ++ (if decide (st_title subtask = "")
      then ["Subtask title is required and must be a string"]
      else if decide (String.length (Js.trim (st_title subtask)) = 0)
      then ["Subtask title cannot be empty"] else [])
  ++ (if Js.includes (st_status subtask) validStatuses then []
      else ["Invalid subtask status: " +:+ st_status subtask])
  ++ match st_dependencies subtask with
     | Some deps =>
         if bool_decide (inl (st_id subtask) ∈ deps)
            || bool_decide (inr parentTaskId ∈ deps)
         then ["Subtask cannot depend on itself or its parent task"] else []
     | None => []
     end.

(** The callback of [task.subtasks.forEach]: the errors of the subtask at
    [index], each prefixed with its one-based position. *)
Definition subtaskErrorsAt (taskId : string) (index : nat) (subtask : Subtask)
    : list string :=
  (λ err, "Subtask " +:+ Js.toString (Z.of_nat index + 1) +:+ ": " +:+ err)
    <$> validateSubtask subtask taskId index.

(** [!task.description || task.description.trim().length === 0]. *)
Definition isBlank (description : option string) : bool :=
  match description with
  | None => true
  | Some d =>
      bool_decide (d = "") || bool_decide (String.length (Js.trim d) = 0)
  end.

(** The checks of [validateTask], one definition per block of the source,
    each giving the messages the block pushes, in order. *)

(** ID validation. *)
Definition idErrors (idPattern : string → bool) (task : Task) : list string :=
  if decide (id task = "")
  then ["Task ID is required and must be a string"]
  else if idPattern (id task) then []
  else ["Task ID " +:+ Js.dquote +:+ id task +:+ Js.dquote
          +:+ " does not match required format"].

(** Title validation. *)
Definition titleErrors (minTitleLength maxTitleLength : Z) (task : Task)
    : list string :=
  if decide (title task = "")
  then ["Task title is required and must be a string"]
  else
    (if (Js.len (Js.trim (title task)) <? minTitleLength)%Z
     then ["Task title must be at least " +:+ Js.toString minTitleLength
             +:+ " character(s) long"] else [])
    ++ (if (maxTitleLength <? Js.len (title task))%Z
        then ["Task title must not exceed " +:+ Js.toString maxTitleLength
                +:+ " characters"] else []).

Definition titleWarnings (task : Task) : list string :=
  if decide (title task = "") then []
  else if decide (Js.trim (title task) = title task) then []
  else ["Task title has leading or trailing whitespace"].

(** Description validation. *)
Definition descriptionErrors (maxDescriptionLength : Z) (task : Task)
    : list string :=
  match description task with
  | Some d =>
      if (maxDescriptionLength <? Js.len d)%Z
      then ["Task description must not exceed "
              +:+ Js.toString maxDescriptionLength +:+ " characters"]
      else []
  | None => []
  end.

(** Status validation. *)
Definition statusErrors (task : Task) : list string :=
  if Js.includes (status task) validStatuses then []
  else ["Invalid task status: " +:+ status task].

(** Priority validation. *)
Definition priorityErrors (task : Task) : list string :=
  if Js.includes (priority task) validPriorities then []
  else ["Invalid task priority: " +:+ priority task].

(** Priority-based description requirement. *)
Definition descriptionRequiredErrors (requireDescriptionForPriority : list string)
    (task : Task) : list string :=
  if Js.includes (priority task) requireDescriptionForPriority
     && isBlank (description task)
  then [priority task +:+ " priority tasks must have a description"]
  else [].

(** Complexity score validation. *)
Definition complexityErrors (task : Task) : list string :=
  match complexityScore task with
  | Some score =>
      if (score <? 1)%Z || (10 <? score)%Z
      then ["Complexity score must be a number between 1 and 10"] else []
  | None => []
  end.

(** [task.dependencies.filter(depId => !existingIds.has(depId))]. *)
Definition missingDependencies (existingTasks : list Task) (deps : list string)
    : list string :=
  let existingIds : gset string := list_to_set (id <$> existingTasks) in
  filter (λ depId, depId ∉ existingIds) deps.

(** Dependency validation. *)
Definition dependencyErrors (idPattern : string → bool)
    (existingTasks : list Task) (task : Task) : list string :=
  match dependencies task with
  | Some deps =>
      (if Js.includes (id task) deps
       then ["Task cannot depend on itself"] else [])
      ++ flat_map
           (λ depId, if idPattern depId then []
                     else ["Invalid dependency ID format: " +:+ depId])
           deps
      ++ (if (0 <? Z.of_nat (length existingTasks))%Z then
            let missingDeps := missingDependencies existingTasks deps in
            if (0 <? Z.of_nat (length missingDeps))%Z
            then ["Missing dependency tasks: " +:+ Js.join ", " missingDeps]
            else []
          else [])
  | None => []
  end.

Definition dependencyWarnings (task : Task) : list string :=
  match dependencies task with
  | Some deps =>
      if decide (size (list_to_set deps : gset string) = length deps)
      then [] else ["Task has duplicate dependencies"]
  | None => []
  end.

(** Subtask validation. *)
Definition subtaskErrors (task : Task) : list string :=
  match subtasks task with
  | Some sts =>
      mjoin (imap (subtaskErrorsAt (id task)) sts)
      ++ (if decide (size (list_to_set (st_id <$> sts) : gset Z) = length sts)
          then [] else ["Task has duplicate subtask IDs"])
  | None => []
  end.

Definition subtaskWarnings (allowEmptySubtasks : bool) (task : Task)
    : list string :=
  match subtasks task with
  | Some sts =>
      if negb allowEmptySubtasks && bool_decide (length sts = 0)
      then ["Task has empty subtasks array"] else []
  | None => []
  end.

(** Workflow validation. *)
Definition blockedDependencies (existingTasks : list Task) (deps : list string)
    : list string :=
  List.filter
    (λ depId,
       match List.find (λ t, bool_decide (id t = depId)) existingTasks with
       | Some depTask => bool_decide (status depTask ≠ "done")
       | None => false
       end)
    deps.

Definition workflowWarnings (existingTasks : list Task) (task : Task)
    : list string :=
  match dependencies task with
  | Some deps =>
      if bool_decide (status task = "in-progress")
         && (0 <? Z.of_nat (length existingTasks))%Z
      then
        let blocked := blockedDependencies existingTasks deps in
        if (0 <? Z.of_nat (length blocked))%Z
        then ["Task is in progress but has unresolved dependencies: "
                +:+ Js.join ", " blocked]
        else []
      else []
  | None => []
  end
  ++ match subtasks task with
     | Some sts =>
         if bool_decide (status task = "done") then
           let incompleteSubtasks :=
             filter (λ st, st_status st ≠ "done") sts in
           if (0 <? Z.of_nat (length incompleteSubtasks))%Z
           then ["Task is marked done but has "
                   +:+ Js.toString (Z.of_nat (length incompleteSubtasks))
                   +:+ " incomplete subtask(s)"]
           else []
         else []
     | None => []
     end.

Definition validateTask (task : Task) (options : ValidationOptions)
    : ValidationResult :=
  let requireDescriptionForPriority :=
    default ["high"] (requireDescriptionForPriority options) in
  let maxTitleLength := default 100%Z (maxTitleLength options) in
  let minTitleLength := default 1%Z (minTitleLength options) in
  let maxDescriptionLength := default 1000%Z (maxDescriptionLength options) in
  let idPattern := default Js.defaultIdPattern (idPattern options) in
  let allowEmptySubtasks := default false (allowEmptySubtasks options) in
  let existingTasks := default [] (existingTasks options) in
  let errors :=
    idErrors idPattern task
    ++ titleErrors minTitleLength maxTitleLength task
    ++ descriptionErrors maxDescriptionLength task
    ++ statusErrors task
    ++ priorityErrors task
    ++ descriptionRequiredErrors requireDescriptionForPriority task
    ++ complexityErrors task
    ++ dependencyErrors idPattern existingTasks task
    ++ subtaskErrors task in
  let warnings :=
    titleWarnings task
    ++ dependencyWarnings task
    ++ subtaskWarnings allowEmptySubtasks task
    ++ workflowWarnings existingTasks task in
  {| isValid := bool_decide (length errors = 0);
     errors := errors;
     warnings := warnings |}.

(** *** validateTaskBatch: the message pushed for each reported cycle,
    [`Circular dependency detected: ${cycle.join(" → ")} → ${cycle[0]}`];
    an empty array has no first element and prints [undefined]. *)
Definition circularDependencyMessage (cycle : list string) : string :=
  "Circular dependency detected: " +:+ Js.join " → " cycle
    +:+ " → " +:+ default "undefined" (head cycle).

(** *** validateTaskBatch *)

Record BatchValidationResult := {
  overallValid : bool;
  results : gmap string ValidationResult;
  globalErrors : list string;
  duplicateIds : list string;
  circularDependencies : list (list string);
}.

(** The options [{ ...options, existingTasks: tasks }]. *)
Definition setExistingTasks (tasks : list Task) (options : ValidationOptions)
    : ValidationOptions :=
  {| requireDescriptionForPriority := requireDescriptionForPriority options;
     maxTitleLength := maxTitleLength options;
     minTitleLength := minTitleLength options;
     maxDescriptionLength := maxDescriptionLength options;
     idPattern := idPattern options;
     checkCircularDependencies := checkCircularDependencies options;
     existingTasks := Some tasks;
     allowEmptySubtasks := allowEmptySubtasks options |}.

(** The first loop: [results[task.id] = validateTask(...)]. *)
Definition batchResults (tasks : list Task) (options : ValidationOptions)
    : gmap string ValidationResult :=
  foldl
    (λ results task,
       Js.setProp (id task)
         (validateTask task (setExistingTasks tasks options)) results)
    ∅ tasks.

(** The second loop: the [Map] from identifier to number of occurrences;
    [idCounts.get(task.id) || 0]. *)
Definition countIds (tasks : list Task) : list (string * Z) :=
  foldl
    (λ idCounts task,
       Js.mapSet (id task)
         (default 0%Z (Js.mapGet (id task) idCounts) + 1)%Z idCounts)
    [] tasks.

Definition duplicateIdMessage (taskId : string) (count : Z) : string :=
  "Duplicate task ID found: " +:+ taskId +:+ " (appears "
    +:+ Js.toString count +:+ " times)".

Definition validateTaskBatch (tasks : list Task) (options : ValidationOptions)
    : option BatchValidationResult :=
  let results := batchResults tasks options in
  let duplicates := List.filter (λ entry, (1 <? entry.2)%Z) (countIds tasks) in
  let duplicateIds := fst <$> duplicates in
  let duplicateErrors :=
    (λ entry, duplicateIdMessage entry.1 entry.2) <$> duplicates in
  match
    (if bool_decide (checkCircularDependencies options = Some false)
     then Some [] else findCircularDependencies tasks)
  with
  | None => None
  | Some cycles =>
      let globalErrors :=
        duplicateErrors ++ (circularDependencyMessage <$> cycles) in
      let hasIndividualErrors :=
        bool_decide (map_Exists (λ _ result, isValid result = false) results) in
      Some {| overallValid :=
                negb hasIndividualErrors
                && bool_decide (length globalErrors = 0);
              results := results;
              globalErrors := globalErrors;
              duplicateIds := duplicateIds;
              circularDependencies := cycles |}
  end.

(** *** wouldCreateCircularDependency *)

(** [{ ...task, dependencies: [...(task.dependencies || []), newDependencyId] }]. *)
Definition addDependency (newDependencyId : string) (task : Task) : Task :=
  {| id := id task; title := title task; description := description task;
     status := status task; priority := priority task;
     dependencies := Some (default [] (dependencies task) ++ [newDependencyId]);
     complexityScore := complexityScore task; subtasks := subtasks task |}.

Definition wouldCreateCircularDependency (tasks : list Task)
    (taskId newDependencyId : string) : option bool :=
  let modifiedTasks :=
    (λ task, if decide (id task = taskId)
             then addDependency newDependencyId task else task) <$> tasks in
  (λ cycles, bool_decide (0 < length cycles))
    <$> findCircularDependencies modifiedTasks.

(** *** Utility functions *)

Definition getValidationSummary (result : ValidationResult) : string :=
  if isValid result then
    if bool_decide (0 < length (warnings result))
    then "Valid with " +:+ Js.toString (Z.of_nat (length (warnings result)))
           +:+ " warning(s)"
    else "Valid"
  else
    "Invalid: " +:+ Js.toString (Z.of_nat (length (errors result)))
      +:+ " error(s)"
      +:+ (if bool_decide (0 < length (warnings result))
           then ", " +:+ Js.toString (Z.of_nat (length (warnings result)))
                  +:+ " warning(s)"
           else "").

Definition getValidTasks (tasks : list Task) (options : ValidationOptions)
    : list Task :=
  List.filter (λ task, isValid (validateTask task options)) tasks.

Definition getInvalidTasks (tasks : list Task) (options : ValidationOptions)
    : list (Task * ValidationResult) :=
  List.filter (λ entry, negb (isValid entry.2))
    ((λ task, (task, validateTask task options)) <$> tasks).

Definition isValidTaskId (taskId : string) : bool := Js.defaultIdPattern taskId.

(** [sanitizeTask] on a task with all of its fields: the title and the
    description are trimmed, the dependencies lose the empty strings
    ([filter(Boolean)]) and the repetitions. *)
Definition sanitizeTask (task : Task) : Task :=
  {| id := id task;
     title := Js.trim (title task);
     description := Js.trim <$> description task;
     status := status task; priority := priority task;
     dependencies :=
       (λ deps, Js.uniq (List.filter (λ d, negb (bool_decide (d = ""))) deps))
         <$> dependencies task;
     complexityScore := complexityScore task; subtasks := subtasks task |}.

(** *** generateTaskId *)

(** The [while] loop of [generateTaskId]; [None] means [fuel] iterations
    did not reach an unused number. *)
Fixpoint nextFreeId (fuel : nat) (existingIds : list string) (nextId : Z)
    : option Z :=
  match fuel with
  | O => None
  | S fuel' =>
      if Js.includes (Js.toString nextId) existingIds
      then nextFreeId fuel' existingIds (nextId + 1)%Z
      else Some nextId
  end.

(** [existingTasks.map(t => t.id).sort()] sorts the identifiers as strings;
    the loop then runs at most once more than there are identifiers
    (lemma [generateTaskId_total] below). *)
Definition generateTaskId (existingTasks : list Task) : option string :=
  let existingIds := merge_sort String.le (id <$> existingTasks) in
  Js.toString <$> nextFreeId (S (length existingTasks)) existingIds 1%Z.

End Validation.

(** ** The basic task manager: types *)

Module Types.

Inductive TaskStatus := Todo | InProgress | Done.
Inductive TaskPriority := High | Medium | Low.

Definition statusName (s : TaskStatus) : string :=
  match s with Todo => "todo" | InProgress => "in-progress" | Done => "done" end.

Definition priorityName (p : TaskPriority) : string :=
  match p with High => "high" | Medium => "medium" | Low => "low" end.

(** A [Date] object: its time value in milliseconds, or an invalid date
    (time value [NaN]). *)
Inductive JsDate := ValidDate (t : Z) | InvalidDate.

Definition getTime (d : JsDate) : option Z :=
  match d with ValidDate t => Some t | InvalidDate => None end.

Record Task := {
  id : string;
  title : string;
  description : option string;
  status : TaskStatus;
  priority : TaskPriority;
  createdAt : JsDate;
  updatedAt : JsDate;
}.

(** [Omit<Task, "id" | "createdAt" | "updatedAt">]. *)
Record CreateTaskData := {
  newTitle : string;
  newDescription : option string;
  newStatus : TaskStatus;
  newPriority : TaskPriority;
}.

Inductive SortField :=
  FieldTitle | FieldStatus | FieldPriority | FieldCreatedAt | FieldUpdatedAt.
Inductive SortOrder := Asc | Desc.

Record SortOptions := { field : SortField; order : SortOrder }.

#[global] Instance TaskStatus_eq_dec : EqDecision TaskStatus.
Proof. solve_decision. Defined.
#[global] Instance TaskPriority_eq_dec : EqDecision TaskPriority.
Proof. solve_decision. Defined.
#[global] Instance JsDate_eq_dec : EqDecision JsDate.
Proof. solve_decision. Defined.
#[global] Instance Task_eq_dec : EqDecision Task.
Proof. solve_decision. Defined.

End Types.

(** ** basic-task-manager/utils/helpers.ts *)

Module Helpers.
Import Types.

(** [generateId]: [now] is the value of [Date.now()] and [random36] the
    string [Math.random().toString(36)], both supplied by the platform. *)
Definition generateId (now : N) (random36 : string) : string :=
  let timestamp := Js.toString36 now in
  let random := Js.substr 2 5 random36 in
  timestamp +:+ "-" +:+ random.

Record ValidationResult := {
  isValid : bool;
  errors : list string;
}.

Definition isValidStatus (status : string) : bool :=
  Js.includes status ["todo"; "in-progress"; "done"].

Definition isValidPriority (priority : string) : bool :=
  Js.includes priority ["high"; "medium"; "low"].

(** [Partial<Task>], with the fields [validateTask] reads. *)
Record PartialTask := {
  partTitle : option string;
  partDescription : option string;
  partStatus : option TaskStatus;
  partPriority : option TaskPriority;
}.

Definition validateTask (task : PartialTask) : ValidationResult :=
  let errors :=
    match partTitle task with
    | None => ["Title is required"]
    | Some t =>
        if decide (t = "") then ["Title is required"]
        else if decide (String.length (Js.trim t) = 0)
        then ["Title cannot be empty"]
        else if decide (200 < String.length t)
        then ["Title must be less than 200 characters"]
        else []
    end
    ++ match partDescription task with
       | Some d =>
           if decide (1000 < String.length d)
           then ["Description must be less than 1000 characters"] else []
       | None => []
       end
    ++ match partStatus task with
       | Some st =>
           if isValidStatus (statusName st) then []
           else ["Invalid status: " +:+ statusName st]
       | None => []
       end
    ++ match partPriority task with
       | Some pr =>
           if isValidPriority (priorityName pr) then []
           else ["Invalid priority: " +:+ priorityName pr]
       | None => []
       end in
  {| isValid := bool_decide (length errors = 0); errors := errors |}.

(** The object literal [{ high: 3, medium: 2, low: 1 }] of [sortTasks]. *)
Definition priorityWeights (p : TaskPriority) : Z :=
  match p with High => 3 | Medium => 2 | Low => 1 end%Z.

Definition statusOrder : list string := ["todo"; "in-progress"; "done"].

Section Sorting.
(** [String.prototype.localeCompare] depends on the host's locale. *)
Context (localeCompare : string → string → Z).

(** The comparator that [sortTasks] passes to [sort]; the [default]
    branch of the [switch] is outside [SortField]. *)
Definition sortComparator (sort : SortOptions) (a b : Task) : option Z :=
  let comparison :=
    match field sort with
    | FieldTitle => Some (localeCompare (title a) (title b))
    | FieldStatus =>
        Some (Js.indexOfZ (statusName (status a)) statusOrder
              - Js.indexOfZ (statusName (status b)) statusOrder)%Z
    | FieldPriority =>
        Some (priorityWeights (priority b) - priorityWeights (priority a))%Z
    | FieldCreatedAt => Js.minus (getTime (createdAt a)) (getTime (createdAt b))
    | FieldUpdatedAt => Js.minus (getTime (updatedAt a)) (getTime (updatedAt b))
    end in
  match order sort with
  | Desc => Js.negate comparison
  | Asc => comparison
  end.

Definition sortTasks (tasks : list Task) (sort : SortOptions) : list Task :=
  Js.sort (λ a b, Js.compareResult (sortComparator sort a b)) tasks.

Definition sortByPriority (tasks : list Task) : list Task :=
  sortTasks tasks {| field := FieldPriority; order := Asc |}.

Definition sortByCreationDate (tasks : list Task) : list Task :=
  sortTasks tasks {| field := FieldCreatedAt; order := Desc |}.

Definition sortByStatus (tasks : list Task) : list Task :=
  sortTasks tasks {| field := FieldStatus; order := Asc |}.
End Sorting.

(** *** generateSequentialId *)

(** [existingTasks.map(task => parseInt(task.id)).filter(id => !isNaN(id))
    .sort((a, b) => a - b)].  The numbers are kept exact: [parseInt]
    rounds only from 2^53 on, and rounding moves no number across the
    counter of the loop below, which starts at 1 and grows by one for each
    task at most. *)
Definition sequentialIds (existingTasks : list Task) : list (option Z) :=
  Js.sort (λ a b, Js.compareResult (Js.minus a b))
    (List.filter (λ id, negb (Js.isNaN id))
       ((λ task, Js.parseInt (id task)) <$> existingTasks)).

(** The [for ... of] loop with its [break]. *)
Fixpoint nextSequentialId (nextId : Z) (existingIds : list (option Z)) : Z :=
  match existingIds with
  | [] => nextId
  | id :: rest =>
      if decide (id = Some nextId) then nextSequentialId (nextId + 1)%Z rest
      else nextId
  end.

Definition generateSequentialId (existingTasks : list Task) : string :=
  Js.toString (nextSequentialId 1%Z (sequentialIds existingTasks)).

(** *** sanitizeTaskData *)

(** [data.description?.trim() || undefined] turns the empty result into
    [undefined]. *)
Definition sanitizeTaskData (data : CreateTaskData) : CreateTaskData :=
  {| newTitle := Js.trim (newTitle data);
     newDescription :=
       match newDescription data with
       | Some d => if decide (Js.trim d = "") then None else Some (Js.trim d)
       | None => None
       end;
     newStatus :=
       if isValidStatus (statusName (newStatus data)) then newStatus data
       else Todo;
     newPriority :=
       if isValidPriority (priorityName (newPriority data))
       then newPriority data else Medium |}.

(** *** Filtering *)

Record TaskFilters := {
  filterStatus : option TaskStatus;
  filterPriority : option TaskPriority;
  filterSearch : option string;
}.

(** [[task.title, task.description || "", task.id].join(" ").toLowerCase()]. *)
Definition searchableText (task : Task) : string :=
  Js.toLowerCase
    (Js.join " " [title task; default "" (description task); id task]).

(** The callback of [filterTasks]; an absent or empty [search] is falsy. *)
Definition matchesFilters (filters : TaskFilters) (task : Task) : bool :=
  if match filterStatus filters with
     | Some s => bool_decide (status task ≠ s)
     | None => false
     end
  then false
  else if match filterPriority filters with
          | Some p => bool_decide (priority task ≠ p)
          | None => false
          end
  then false
  else
    match filterSearch filters with
    | Some search =>
        if decide (search = "") then true
        else
          let searchTerm := Js.toLowerCase search in
          if negb (Js.stringIncludes (searchableText task) searchTerm)
          then false else true
    | None => true
    end.

Definition filterTasks (tasks : list Task) (filters : TaskFilters) : list Task :=
  List.filter (matchesFilters filters) tasks.

Definition getTasksByStatus (tasks : list Task) (s : TaskStatus) : list Task :=
  List.filter (λ task, bool_decide (status task = s)) tasks.

Definition getTasksByPriority (tasks : list Task) (p : TaskPriority)
    : list Task :=
  List.filter (λ task, bool_decide (priority task = p)) tasks.

Definition searchTasks (tasks : list Task) (query : string) : list Task :=
  if decide (Js.trim query = "") then tasks
  else
    let searchTerm := Js.toLowerCase query in
    List.filter
      (λ task, Js.stringIncludes (searchableText task) searchTerm) tasks.

(** *** Grouping *)

(** [Record<TaskStatus, Task[]>]. *)
Record StatusGroups := {
  groupTodo : list Task;
  groupInProgress : list Task;
  groupDone : list Task;
}.

(** [groups[task.status].push(task)]. *)
Definition pushByStatus (groups : StatusGroups) (task : Task) : StatusGroups :=
  match status task with
  | Todo =>
      {| groupTodo := groupTodo groups ++ [task];
         groupInProgress := groupInProgress groups;
         groupDone := groupDone groups |}
  | InProgress =>
      {| groupTodo := groupTodo groups;
         groupInProgress := groupInProgress groups ++ [task];
         groupDone := groupDone groups |}
  | Done =>
      {| groupTodo := groupTodo groups;
         groupInProgress := groupInProgress groups;
         groupDone := groupDone groups ++ [task] |}
  end.

Definition groupTasksByStatus (tasks : list Task) : StatusGroups :=
  foldl pushByStatus
    {| groupTodo := []; groupInProgress := []; groupDone := [] |} tasks.

(** [Record<TaskPriority, Task[]>]. *)
Record PriorityGroups := {
  groupHigh : list Task;
  groupMedium : list Task;
  groupLow : list Task;
}.

Definition pushByPriority (groups : PriorityGroups) (task : Task)
    : PriorityGroups :=
  match priority task with
  | High =>
      {| groupHigh := groupHigh groups ++ [task];
         groupMedium := groupMedium groups; groupLow := groupLow groups |}
  | Medium =>
      {| groupHigh := groupHigh groups;
         groupMedium := groupMedium groups ++ [task];
         groupLow := groupLow groups |}
  | Low =>
      {| groupHigh := groupHigh groups; groupMedium := groupMedium groups;
         groupLow := groupLow groups ++ [task] |}
  end.

Definition groupTasksByPriority (tasks : list Task) : PriorityGroups :=
  foldl pushByPriority
    {| groupHigh := []; groupMedium := []; groupLow := [] |} tasks.

(** *** tasksEqual: the comparison leaves the two dates out. *)
Definition tasksEqual (task1 task2 : Task) : bool :=
  bool_decide (id task1 = id task2)
  && bool_decide (title task1 = title task2)
  && bool_decide (description task1 = description task2)
  && bool_decide (status task1 = status task2)
  && bool_decide (priority task1 = priority task2).

(** *** Formatting *)

(** [formatTaskTitle]; an absent [maxLength] is 50. *)
Definition formatTaskTitle (title : string) (maxLength : option Z) : string :=
  let maxLength := default 50%Z maxLength in
  if (Js.len title <=? maxLength)%Z then title
  else Js.substring0 (maxLength - 3) title +:+ "...".


(** *** Counting *)

(** [Record<TaskStatus, number>]. *)
Record StatusCounts := {
  countTodo : Z;
  countInProgress : Z;
  countDone : Z;
}.

(** [counts[task.status]++]. *)
Definition countByStatus (counts : StatusCounts) (task : Task) : StatusCounts :=
  match status task with
  | Todo =>
      {| countTodo := countTodo counts + 1;
         countInProgress := countInProgress counts;
         countDone := countDone counts |}
  | InProgress =>
      {| countTodo := countTodo counts;
         countInProgress := countInProgress counts + 1;
         countDone := countDone counts |}
  | Done =>
      {| countTodo := countTodo counts;
         countInProgress := countInProgress counts;
         countDone := countDone counts + 1 |}
  end%Z.

Definition getTaskCountByStatus (tasks : list Task) : StatusCounts :=
  foldl countByStatus
    {| countTodo := 0; countInProgress := 0; countDone := 0 |} tasks.

(** [Record<TaskPriority, number>]. *)
Record PriorityCounts := {
  countHigh : Z;
  countMedium : Z;
  countLow : Z;
}.

Definition countByPriority (counts : PriorityCounts) (task : Task)
    : PriorityCounts :=
  match priority task with
  | High =>
      {| countHigh := countHigh counts + 1;
         countMedium := countMedium counts; countLow := countLow counts |}
  | Medium =>
      {| countHigh := countHigh counts;
         countMedium := countMedium counts + 1; countLow := countLow counts |}
  | Low =>
      {| countHigh := countHigh counts; countMedium := countMedium counts;
         countLow := countLow counts + 1 |}
  end%Z.

Definition getTaskCountByPriority (tasks : list Task) : PriorityCounts :=
  foldl countByPriority
    {| countHigh := 0; countMedium := 0; countLow := 0 |} tasks.

End Helpers.

(** ** basic-task-manager/utils/storage.ts *)

Module Storage.
Import Types.

(** The outcome of an [async] method: a resolved value, or a rejection with
    [new Error(message)]. *)
Inductive Result (A : Type) :=
| Ok (a : A)
| Throw (message : string).
Arguments Ok {A} a.
Arguments Throw {A} message.

(** An error raised by the platform: its [code] property, when it has one,
    and its [message]. *)
Record IoError := {
  code : option string;
  message : string;
}.

(** *** JSON text *)

(** The JSON value under a timestamp key, as far as [new Date(value)]
    tells values apart.  [JsonIsoString t] is a string in the date-time
    format of the standard that denotes the time value [t]:
    [Date.prototype.toISOString] produces such a string and [Date.parse]
    maps it back to [t]. *)
Inductive JsonDate :=
| JsonIsoString (t : Z)
| JsonOtherString (s : string)
| JsonNumber (n : Z)
| JsonNull
| JsonAbsent.

(** An element of a stored collection: an object of the shape of [Task]
    whose timestamps are JSON values. *)
Record JsonTask := {
  jsonId : string;
  jsonTitle : string;
  jsonDescription : option string;
  jsonStatus : TaskStatus;
  jsonPriority : TaskPriority;
  jsonCreatedAt : JsonDate;
  jsonUpdatedAt : JsonDate;
}.

(** A text as [JSON.parse] sees it: the empty string, a text on which
    [JSON.parse] or the call of [map] on its result throws an error with
    the given message, or the JSON text of an array of task objects. *)
Inductive Text :=
| EmptyText
| BadText (errorMessage : string)
| TasksText (l : list JsonTask).

(** [Date.prototype.toJSON], which [JSON.stringify] calls on a [Date]: the
    ISO string of a valid date, [null] for an invalid one. *)
Definition toJSON (d : JsDate) : JsonDate :=
  match d with
  | ValidDate t => JsonIsoString t
  | InvalidDate => JsonNull
  end.

(** [new Date(value)]: a string is parsed, a number is the time value when
    it lies within 8.64e15 milliseconds of the epoch, [null] converts to
    the number 0 and [undefined] to [NaN]. *)
Definition newDate (v : JsonDate) : JsDate :=
  match v with
  | JsonIsoString t => ValidDate t
  | JsonOtherString _ => InvalidDate
  | JsonNumber n =>
      if (Z.abs n <=? 8640000000000000)%Z then ValidDate n else InvalidDate
  | JsonNull => ValidDate 0
  | JsonAbsent => InvalidDate
  end.

Definition stringifyTask (task : Task) : JsonTask :=
  {| jsonId := id task; jsonTitle := title task;
     jsonDescription := description task;
     jsonStatus := status task; jsonPriority := priority task;
     jsonCreatedAt := toJSON (createdAt task);
     jsonUpdatedAt := toJSON (updatedAt task) |}.

(** [JSON.stringify(tasks)]; the indentation argument only changes the
    layout of the text. *)
Definition stringify (tasks : list Task) : Text :=
  TasksText (stringifyTask <$> tasks).

(** [JSON.parse(data)] followed by the test that [map] can be called. *)
Definition parse (data : Text) : string + list JsonTask :=
  match data with
  | EmptyText => inl "Unexpected end of JSON input"
  | BadText msg => inl msg
  | TasksText l => inr l
  end.

(** The callback of [parsed.map]: the object is copied and its two
    timestamps are replaced by dates. *)
Definition rehydrate (task : JsonTask) : Task :=
  {| id := jsonId task; title := jsonTitle task;
     description := jsonDescription task;
     status := jsonStatus task; priority := jsonPriority task;
     createdAt := newDate (jsonCreatedAt task);
     updatedAt := newDate (jsonUpdatedAt task) |}.

(** *** The interface [TaskStorage]

    [W] is the state of whatever the adapter stores into. *)
Record TaskStorage (W : Type) := {
  loadTasks : W → Result (list Task) * W;
  saveTasks : list Task → W → Result unit * W;
  clearTasks : W → Result unit * W;
}.
Arguments loadTasks {W} _ _.
Arguments saveTasks {W} _ _ _.
Arguments clearTasks {W} _ _.

Definition STORAGE_KEY : string := "simple-task-manager-tasks".
Definition FILE_PATH : string := "tasks.json".

(** *** FileStorage *)

(** The functions of [fs/promises] the adapter calls, over a file system
    [W]; a rejected promise is an [IoError].  A failure of the dynamic
    [import] counts as a failure of the call that follows it. *)
Record FsPromises (W : Type) := {
  readFile : string → W → IoError + Text;
  writeFile : string → Text → W → option IoError * W;
  unlink : string → W → option IoError * W;
}.
Arguments readFile {W} _ _ _.
Arguments writeFile {W} _ _ _ _.
Arguments unlink {W} _ _ _.

Section FileStorage.
Context {W : Type} (fs : FsPromises W) (filePath : string).

Definition FileStorage_loadTasks (w : W) : Result (list Task) * W :=
  match readFile fs filePath w with
  | inr data =>
      match parse data with
      | inr parsed => (Ok (rehydrate <$> parsed), w)
      | inl msg => (Throw ("Failed to load tasks: " +:+ msg), w)
      end
  | inl error =>
      if decide (code error = Some "ENOENT") then (Ok [], w)
      else (Throw ("Failed to load tasks: " +:+ message error), w)
  end.

Definition FileStorage_saveTasks (tasks : list Task) (w : W) : Result unit * W :=
  let data := stringify tasks in
  match writeFile fs filePath data w with
  | (None, w') => (Ok (), w')
  | (Some error, w') => (Throw ("Failed to save tasks: " +:+ message error), w')
  end.

Definition FileStorage_clearTasks (w : W) : Result unit * W :=
  match unlink fs filePath w with
  | (None, w') => (Ok (), w')
  | (Some error, w') =>
      if decide (code error = Some "ENOENT") then (Ok (), w')
      else (Throw ("Failed to clear tasks: " +:+ message error), w')
  end.

Definition FileStorage : TaskStorage W :=
  {| loadTasks := FileStorage_loadTasks;
     saveTasks := FileStorage_saveTasks;
     clearTasks := FileStorage_clearTasks |}.
End FileStorage.

(** *** LocalStorage *)

(** The global [localStorage] over a store [W]; [getItem] gives [None] for
    [null]. *)
Record WebStorage (W : Type) := {
  getItem : string → W → IoError + option Text;
  setItem : string → Text → W → option IoError * W;
  removeItem : string → W → option IoError * W;
}.
Arguments getItem {W} _ _ _.
Arguments setItem {W} _ _ _ _.
Arguments removeItem {W} _ _ _.

Section LocalStorage.
Context {W : Type} (localStorage : WebStorage W) (storageKey : string).

Definition LocalStorage_loadTasks (w : W) : Result (list Task) * W :=
  match getItem localStorage storageKey w with
  | inr None | inr (Some EmptyText) => (Ok [], w)
  | inr (Some data) =>
      match parse data with
      | inr parsed => (Ok (rehydrate <$> parsed), w)
      | inl msg => (Throw ("Failed to load tasks: " +:+ msg), w)
      end
  | inl error => (Throw ("Failed to load tasks: " +:+ message error), w)
  end.

Definition LocalStorage_saveTasks (tasks : list Task) (w : W) : Result unit * W :=
  let data := stringify tasks in
  match setItem localStorage storageKey data w with
  | (None, w') => (Ok (), w')
  | (Some error, w') => (Throw ("Failed to save tasks: " +:+ message error), w')
  end.

Definition LocalStorage_clearTasks (w : W) : Result unit * W :=
  match removeItem localStorage storageKey w with
  | (None, w') => (Ok (), w')
  | (Some error, w') => (Throw ("Failed to clear tasks: " +:+ message error), w')
  end.

Definition LocalStorage : TaskStorage W :=
  {| loadTasks := LocalStorage_loadTasks;
     saveTasks := LocalStorage_saveTasks;
     clearTasks := LocalStorage_clearTasks |}.
End LocalStorage.

(** *** MemoryStorage: the state is the private field [tasks]. *)

Definition MemoryStorage_new : list Task := [].

Definition MemoryStorage_loadTasks (this_tasks : list Task)
    : Result (list Task) * list Task :=
  (Ok this_tasks, this_tasks).

Definition MemoryStorage_saveTasks (tasks : list Task) (this_tasks : list Task)
    : Result unit * list Task :=
  (Ok (), tasks).

Definition MemoryStorage_clearTasks (this_tasks : list Task)
    : Result unit * list Task :=
  (Ok (), []).

Definition MemoryStorage : TaskStorage (list Task) :=
  {| loadTasks := MemoryStorage_loadTasks;
     saveTasks := MemoryStorage_saveTasks;
     clearTasks := MemoryStorage_clearTasks |}.

(** *** ApiStorage *)

Record Request := {
  url : string;
  method : string;
  headers : list (string * string);
  body : option Text;
}.

(** A response: [responseBody] is the text that [response.json()] parses. *)
Record Response := {
  ok : bool;
  statusText : string;
  responseBody : Text;
}.

(** The global [fetch] over the state [W] of the network and the server. *)
Definition Fetch (W : Type) : Type := Request → W → (IoError + Response) * W.

Section ApiStorage.
Context {W : Type} (fetch : Fetch W) (baseUrl : string) (apiKey : option string).

Definition getHeaders : list (string * string) :=
  [("Content-Type", "application/json")]
  ++ match apiKey with
     | Some key => if decide (key = "") then [] else [("Authorization", "Bearer " +:+ key)]
     | None => []
     end.

Definition ApiStorage_loadTasks (w : W) : Result (list Task) * W :=
  match fetch {| url := baseUrl +:+ "/tasks"; method := "GET";
                 headers := getHeaders; body := None |} w with
  | (inr response, w') =>
      if ok response then
        match parse (responseBody response) with
        | inr data => (Ok (rehydrate <$> data), w')
        | inl msg => (Throw ("Failed to load tasks: " +:+ msg), w')
        end
      else
        (Throw ("Failed to load tasks: "
                  +:+ ("API request failed: " +:+ statusText response)), w')
  | (inl error, w') => (Throw ("Failed to load tasks: " +:+ message error), w')
  end.

Definition ApiStorage_saveTasks (tasks : list Task) (w : W) : Result unit * W :=
  match fetch {| url := baseUrl +:+ "/tasks"; method := "PUT";
                 headers := getHeaders; body := Some (stringify tasks) |} w with
  | (inr response, w') =>
      if ok response then (Ok (), w')
      else
        (Throw ("Failed to save tasks: "
                  +:+ ("API request failed: " +:+ statusText response)), w')
  | (inl error, w') => (Throw ("Failed to save tasks: " +:+ message error), w')
  end.

Definition ApiStorage_clearTasks (w : W) : Result unit * W :=
  match fetch {| url := baseUrl +:+ "/tasks"; method := "DELETE";
                 headers := getHeaders; body := None |} w with
  | (inr response, w') =>
      if ok response then (Ok (), w')
      else
        (Throw ("Failed to clear tasks: "
                  +:+ ("API request failed: " +:+ statusText response)), w')
  | (inl error, w') => (Throw ("Failed to clear tasks: " +:+ message error), w')
  end.

Definition ApiStorage : TaskStorage W :=
  {| loadTasks := ApiStorage_loadTasks;
     saveTasks := ApiStorage_saveTasks;
     clearTasks := ApiStorage_clearTasks |}.
End ApiStorage.

(** *** Backup *)

(** The text of a backup as [restoreFromBackup] sees it: a text on which
    [JSON.parse], the access to [tasks] or the call of [map] throws an
    error with the given message; the text of a value whose [tasks] is
    missing, falsy or no array; or the text of an object that holds an
    array of task objects under [tasks]. *)
Inductive BackupText :=
| BadBackup (errorMessage : string)
| NoTasksBackup
| TasksBackup (version : string) (timestamp : JsonDate) (l : list JsonTask).

Section Backup.
(** The module-level [loadTasks] and [saveTasks] call [defaultStorage]. *)
Context {W : Type} (defaultStorage : TaskStorage W).

(** [createBackup]; [now] is the time value of [new Date()]. *)
Definition createBackup (now : Z) (w : W) : Result BackupText * W :=
  match loadTasks defaultStorage w with
  | (Ok tasks, w') =>
      (Ok (TasksBackup "1.0" (JsonIsoString now) (stringifyTask <$> tasks)), w')
  | (Throw msg, w') => (Throw msg, w')
  end.

Definition restoreFromBackup (backupData : BackupText) (w : W)
    : Result unit * W :=
  match backupData with
  | BadBackup msg => (Throw ("Failed to restore backup: " +:+ msg), w)
  | NoTasksBackup =>
      (Throw ("Failed to restore backup: " +:+ "Invalid backup format"), w)
  | TasksBackup _ _ l =>
      match saveTasks defaultStorage (rehydrate <$> l) w with
      | (Ok _, w') => (Ok (), w')
      | (Throw msg, w') => (Throw ("Failed to restore backup: " +:+ msg), w')
      end
  end.
End Backup.

End Storage.

(** ** basic-task-manager/hooks/useSimpleTasks.ts *)

Module Hook.
Import Types Storage.

(** [CONFIG.ui] of the basic configuration. *)
Definition CONFIG_ui_pageSize : Z := 50.
Definition CONFIG_ui_autoSave : bool := true.
Definition CONFIG_ui_showCompleted : bool := true.

(** The state cells of [useSimpleTasks] that the task operations write. *)
Record HookState := {
  tasks : list Task;
  isLoading : bool;
  error : option string;
}.

Definition initialState : HookState :=
  {| tasks := []; isLoading := true; error := None |}.

Definition setTasks (l : list Task) (h : HookState) : HookState :=
  {| tasks := l; isLoading := isLoading h; error := error h |}.

Definition setIsLoading (b : bool) (h : HookState) : HookState :=
  {| tasks := tasks h; isLoading := b; error := error h |}.

Definition setError (e : option string) (h : HookState) : HookState :=
  {| tasks := tasks h; isLoading := isLoading h; error := e |}.

(** What [createTask] reads from the platform: [Date.now()] and
    [Math.random().toString(36)] inside [generateId], then the time values of
    the two [new Date()]. *)
Record CreateEnv := {
  idNow : N;
  idRandom36 : string;
  createdNow : Z;
  updatedNow : Z;
}.

Definition partialOf (data : CreateTaskData) : Helpers.PartialTask :=
  {| Helpers.partTitle := Some (newTitle data);
     Helpers.partDescription := newDescription data;
     Helpers.partStatus := Some (newStatus data);
     Helpers.partPriority := Some (newPriority data) |}.

(** [UpdateTaskData]: a key is absent, or holds a value of the type of
    the field; [description] may be set to [undefined]. *)
Record UpdateTaskData := {
  updTitle : option string;
  updDescription : option (option string);
  updStatus : option TaskStatus;
  updPriority : option TaskPriority;
  updUpdatedAt : option JsDate;
}.

(** [{ ...existingTask, ...data, updatedAt: new Date() }]; [now] is the
    time value of [new Date()]. *)
Definition updatedTask (existingTask : Task) (data : UpdateTaskData) (now : Z)
    : Task :=
  {| id := id existingTask;
     title := default (title existingTask) (updTitle data);
     description := default (description existingTask) (updDescription data);
     status := default (status existingTask) (updStatus data);
     priority := default (priority existingTask) (updPriority data);
     createdAt := createdAt existingTask;
     updatedAt := ValidDate now |}.

(** A [Task] passed where [validateTask] expects a [Partial<Task>]. *)
Definition partialOfTask (task : Task) : Helpers.PartialTask :=
  {| Helpers.partTitle := Some (title task);
     Helpers.partDescription := description task;
     Helpers.partStatus := Some (status task);
     Helpers.partPriority := Some (priority task) |}.

(** [TaskStats]. *)
Record TaskStats := {
  statsTotal : Z;
  statsTodo : Z;
  statsInProgress : Z;
  statsDone : Z;
  statsByPriority : Helpers.PriorityCounts;
}.

(** The memo [stats]. *)
Definition stats (l : list Task) : TaskStats :=
  let count (f : Task → bool) := Z.of_nat (length (List.filter f l)) in
  {| statsTotal := Z.of_nat (length l);
     statsTodo := count (λ t, bool_decide (status t = Todo));
     statsInProgress := count (λ t, bool_decide (status t = InProgress));
     statsDone := count (λ t, bool_decide (status t = Done));
     statsByPriority :=
       {| Helpers.countHigh := count (λ t, bool_decide (priority t = High));
          Helpers.countMedium := count (λ t, bool_decide (priority t = Medium));
          Helpers.countLow := count (λ t, bool_decide (priority t = Low)) |} |}.

(** [DEFAULT_SORT] of the basic configuration. *)
Definition DEFAULT_SORT : SortOptions :=
  {| field := FieldCreatedAt; order := Desc |}.


Definition getTask (l : list Task) (taskId : string) : option Task :=
  List.find (λ t, bool_decide (id t = taskId)) l.

Section WithStorage.
(** The module-level [loadTasks] and [saveTasks] of storage.ts call the
    default storage, here [storage]. *)
Context {W : Type} (storage : TaskStorage W).

Definition saveTasksToStorage (tasksToSave : list Task) (hw : HookState * W)
    : HookState * W :=
  let (h, w) := hw in
  match saveTasks storage tasksToSave w with
  | (Ok _, w') => (h, w')
  | (Throw _, w') => (setError (Some "Failed to save tasks") h, w')
  end.

Definition loadTasksFromStorage (hw : HookState * W) : HookState * W :=
  let (h, w) := hw in
  let h1 := setError None (setIsLoading true h) in
  match loadTasks storage w with
  | (Ok loadedTasks, w') => (setIsLoading false (setTasks loadedTasks h1), w')
  | (Throw _, w') =>
      (setIsLoading false (setError (Some "Failed to load tasks") h1), w')
  end.

Definition createTask (env : CreateEnv) (data : CreateTaskData)
    (hw : HookState * W) : Result unit * (HookState * W) :=
  let (h, w) := hw in
  let h1 := setError None h in
  let validation := Helpers.validateTask (partialOf data) in
  if negb (Helpers.isValid validation) then
    let errorMessage := Js.join ", " (Helpers.errors validation) in
    (Throw errorMessage, (setError (Some errorMessage) h1, w))
  else
    let newTask :=
      {| id := Helpers.generateId (idNow env) (idRandom36 env);
         title := newTitle data; description := newDescription data;
         status := newStatus data; priority := newPriority data;
         createdAt := ValidDate (createdNow env);
         updatedAt := ValidDate (updatedNow env) |} in
    let updatedTasks := tasks h ++ [newTask] in
    let h2 := setTasks updatedTasks h1 in
    if CONFIG_ui_autoSave
    then (Ok (), saveTasksToStorage updatedTasks (h2, w))
    else (Ok (), (h2, w)).

Definition deleteTask (taskId : string) (hw : HookState * W)
    : Result unit * (HookState * W) :=
  let (h, w) := hw in
  let h1 := setError None h in
  let taskExists := existsb (λ t, bool_decide (id t = taskId)) (tasks h) in
  if negb taskExists then
    let errorMessage := "Task with id " +:+ taskId +:+ " not found" in
    (Throw errorMessage, (setError (Some errorMessage) h1, w))
  else
    let updatedTasks := filter (λ t, id t ≠ taskId) (tasks h) in
    let h2 := setTasks updatedTasks h1 in
    if CONFIG_ui_autoSave
    then (Ok (), saveTasksToStorage updatedTasks (h2, w))
    else (Ok (), (h2, w)).

(** [updateTask]; [now] is the time value of its [new Date()]. *)
Definition updateTask (now : Z) (taskId : string) (data : UpdateTaskData)
    (hw : HookState * W) : Result unit * (HookState * W) :=
  let (h, w) := hw in
  let h1 := setError None h in
  match List.find (λ t, bool_decide (id t = taskId)) (tasks h) with
  | None =>
      let errorMessage := "Task with id " +:+ taskId +:+ " not found" in
      (Throw errorMessage, (setError (Some errorMessage) h1, w))
  | Some existingTask =>
      let updated := updatedTask existingTask data now in
      let validation := Helpers.validateTask (partialOfTask updated) in
      if negb (Helpers.isValid validation) then
        let errorMessage := Js.join ", " (Helpers.errors validation) in
        (Throw errorMessage, (setError (Some errorMessage) h1, w))
      else
        let updatedTasks :=
          (λ t, if decide (id t = taskId) then updated else t) <$> tasks h in
        let h2 := setTasks updatedTasks h1 in
        if CONFIG_ui_autoSave
        then (Ok (), saveTasksToStorage updatedTasks (h2, w))
        else (Ok (), (h2, w))
  end.

Definition deleteCompletedTasks (hw : HookState * W)
    : Result unit * (HookState * W) :=
  let (h, w) := hw in
  let h1 := setError None h in
  let updatedTasks := filter (λ t, status t ≠ Done) (tasks h) in
  let h2 := setTasks updatedTasks h1 in
  if CONFIG_ui_autoSave
  then (Ok (), saveTasksToStorage updatedTasks (h2, w))
  else (Ok (), (h2, w)).

(** [markAllAsComplete]; [now i] is the time value of the [new Date()]
    made for the task at index [i]. *)
Definition markAllAsComplete (now : nat → Z) (hw : HookState * W)
    : Result unit * (HookState * W) :=
  let (h, w) := hw in
  let h1 := setError None h in
  let updatedTasks :=
    imap (λ i task,
            {| id := id task; title := title task;
               description := description task; status := Done;
               priority := priority task; createdAt := createdAt task;
               updatedAt := ValidDate (now i) |})
      (tasks h) in
  let h2 := setTasks updatedTasks h1 in
  if CONFIG_ui_autoSave
  then (Ok (), saveTasksToStorage updatedTasks (h2, w))
  else (Ok (), (h2, w)).

(** [refresh]. *)
Definition refresh (hw : HookState * W) : HookState * W :=
  loadTasksFromStorage hw.

End WithStorage.

End Hook.

(** ** Reference platforms

    Stores that keep what is written to them, and platforms on which every
    call fails; the properties below are stated for arbitrary platforms and
    instantiated on these. *)

Module Platform.
Import Types Storage.

Definition noSuchFile (path : string) : IoError :=
  {| code := Some "ENOENT";
     message := "ENOENT: no such file or directory, open '" +:+ path +:+ "'" |}.

(** A file system that holds regular files by path. *)
Definition fileSystem : FsPromises (gmap string Text) :=
  {| readFile path w :=
       match w !! path with
       | Some data => inr data
       | None => inl (noSuchFile path)
       end;
     writeFile path data w := (None, <[path := data]> w);
     unlink path w :=
       match w !! path with
       | Some _ => (None, delete path w)
       | None => (Some (noSuchFile path), w)
       end |}.

(** A [localStorage] area. *)
Definition webStorage : WebStorage (gmap string Text) :=
  {| getItem key w := inr (w !! key);
     setItem key data w := (None, <[key := data]> w);
     removeItem key w := (None, delete key w) |}.

(** A server that keeps, per URL, the body of the last [PUT]: [GET] answers
    with it, or with 404 when there is none. *)
Definition restServer : Fetch (gmap string Text) :=
  λ request w,
    if decide (method request = "PUT") then
      match body request with
      | Some data =>
          (inr {| ok := true; statusText := "OK"; responseBody := EmptyText |},
           <[url request := data]> w)
      | None =>
          (inr {| ok := false; statusText := "Bad Request";
                  responseBody := EmptyText |}, w)
      end
    else if decide (method request = "DELETE") then
      (inr {| ok := true; statusText := "OK"; responseBody := EmptyText |},
       delete (url request) w)
    else
      match w !! url request with
      | Some data =>
          (inr {| ok := true; statusText := "OK"; responseBody := data |}, w)
      | None =>
          (inr {| ok := false; statusText := "Not Found";
                  responseBody := EmptyText |}, w)
      end.

(** Platforms on which every call fails with [e]. *)
Definition failingFileSystem (e : IoError) : FsPromises unit :=
  {| readFile _ _ := inl e;
     writeFile _ _ w := (Some e, w);
     unlink _ w := (Some e, w) |}.

Definition failingWebStorage (e : IoError) : WebStorage unit :=
  {| getItem _ _ := inl e;
     setItem _ _ w := (Some e, w);
     removeItem _ w := (Some e, w) |}.

Definition failingFetch (e : IoError) : Fetch unit :=
  λ _ w, (inl e, w).

End Platform.

(** ** Vocabulary of the properties, and sample data *)

Module Spec.

(** *** Dependency graphs *)

Section Graph.
Context (taskMap : gmap string Validation.Task).

(** [edge x y]: the task stored under [x] lists [y] among its dependencies. *)
Definition edge (x y : string) : Prop :=
  ∃ task deps,
    taskMap !! x = Some task
    ∧ Validation.dependencies task = Some deps ∧ y ∈ deps.

(** The dependencies [dfs] iterates over at [taskId]. *)
Definition depsOf (taskId : string) : list string :=
  match taskMap !! taskId with
  | Some task => default [] (Validation.dependencies task)
  | None => []
  end.

Definition known (x : string) : Prop := is_Some (taskMap !! x).
End Graph.

(** [dependsOn tasks x y]: some task of the list with identifier [x] lists
    [y] among its dependencies. *)
Definition dependsOn (tasks : list Validation.Task) (x y : string) : Prop :=
  ∃ task deps,
    task ∈ tasks ∧ Validation.id task = x
    ∧ Validation.dependencies task = Some deps ∧ y ∈ deps.

(** No task reaches itself along one or more dependencies. *)
Definition acyclic (tasks : list Validation.Task) : Prop :=
  ∀ x, ¬ tc (dependsOn tasks) x x.

(** The invariant of the outer loop of [findCircularDependencies]. *)
Definition outerInv (tasks : list Validation.Task) (s : Validation.DfsState)
    : Prop :=
  Validation.visited s ⊆ dom (Validation.taskMapOf tasks)
  ∧ Validation.recursionStack s = ∅
  ∧ Forall (Forall (known (Validation.taskMapOf tasks))) (Validation.cycles s)
  ∧ (acyclic tasks → Validation.cycles s = []).

Definition mk (i : string) (deps : list string) : Validation.Task :=
  {| Validation.id := i; Validation.title := "Ship release";
     Validation.description := Some "Tag and publish";
     Validation.status := "pending"; Validation.priority := "medium";
     Validation.dependencies := Some deps;
     Validation.complexityScore := None; Validation.subtasks := None |}.

Definition abc_cycle : list Validation.Task :=
  [mk "A" ["B"]; mk "B" ["C"]; mk "C" ["A"]].
Definition abc_chain : list Validation.Task :=
  [mk "A" ["B"]; mk "B" ["C"]; mk "C" []].

(** The rank of the tasks of [abc_chain] in the dependency order. *)
Definition chainRank (x : string) : nat :=
  if decide (x = "A") then 3 else if decide (x = "B") then 2
  else if decide (x = "C") then 1 else 0.

(** *** Validation *)

Definition descriptionRequired (p : string) : string :=
  p +:+ " priority tasks must have a description".

(** A string of white space only, the empty string included. *)
Fixpoint onlyWhiteSpace (s : string) : bool :=
  match s with
  | EmptyString => true
  | String c s' => Js.isWhiteSpace c && onlyWhiteSpace s'
  end.

(** The description is absent or consists only of white space. *)
Definition blankDescription (task : Validation.Task) : Prop :=
  match Validation.description task with
  | None => True
  | Some d => onlyWhiteSpace d = true
  end.

Definition missingDependencyMessage (missing : list string) : string :=
  "Missing dependency tasks: " +:+ Js.join ", " missing.

Definition blankTask : Validation.Task :=
  {| Validation.id := "1"; Validation.title := "Ship release";
     Validation.description := Some "   ";
     Validation.status := "pending"; Validation.priority := "low";
     Validation.dependencies := None;
     Validation.complexityScore := Some 4%Z; Validation.subtasks := None |}.

Definition danglingTasks : list Validation.Task := [mk "1" ["2"; "9"]; mk "2" []].

Definition withExisting (tasks : list Validation.Task)
    : Validation.ValidationOptions :=
  {| Validation.requireDescriptionForPriority := None;
     Validation.maxTitleLength := None; Validation.minTitleLength := None;
     Validation.maxDescriptionLength := None; Validation.idPattern := None;
     Validation.checkCircularDependencies := None;
     Validation.existingTasks := Some tasks;
     Validation.allowEmptySubtasks := None |}.

(** The decimal names of 1, ..., [k]. *)
Definition firstNames (k : nat) : list string :=
  (λ i, Js.toString (Z.of_nat i)) <$> seq 1 k.

(** *** Sorting *)

Definition rankLe {A} (rank : A → Z) : relation A :=
  λ x y, (rank x ≤ rank y)%Z.

Definition weightNonIncreasing {T} (w : T → Z) : relation T :=
  λ a b, (w b ≤ w a)%Z.

Definition weightNonDecreasing {T} (w : T → Z) : relation T :=
  λ a b, (w a ≤ w b)%Z.

(** *** The basic task manager *)

Import Types Storage.

Definition sampleAt (i : string) (p : TaskPriority) (created : JsDate) : Task :=
  {| id := i; title := "Write report"; description := None; status := Todo;
     priority := p; createdAt := created;
     updatedAt := ValidDate 1700000000000 |}.

Definition sample (i : string) : Task :=
  sampleAt i Medium (ValidDate 1690000000000).

Definition holding (l : list Task) : Hook.HookState :=
  {| Hook.tasks := l; Hook.isLoading := false; Hook.error := None |}.

Definition validDates (t : Task) : Prop :=
  createdAt t ≠ InvalidDate ∧ updatedAt t ≠ InvalidDate.

Definition isoTimestamps (t : JsonTask) : Prop :=
  ∃ c u, jsonCreatedAt t = JsonIsoString c ∧ jsonUpdatedAt t = JsonIsoString u.

(** The requests the API adapter sends. *)
Definition getRequest (baseUrl : string) (apiKey : option string) : Request :=
  {| url := baseUrl +:+ "/tasks"; method := "GET";
     headers := getHeaders apiKey; body := None |}.

Definition putRequest (baseUrl : string) (apiKey : option string)
    (tasks : list Task) : Request :=
  {| url := baseUrl +:+ "/tasks"; method := "PUT";
     headers := getHeaders apiKey; body := Some (stringify tasks) |}.

Definition accessDenied : IoError :=
  {| code := Some "EACCES"; message := "EACCES: permission denied" |}.

Definition notFound : Response :=
  {| ok := false; statusText := "Not Found"; responseBody := EmptyText |}.

(** The task [createTask] appends. *)
Definition createdTask (env : Hook.CreateEnv) (data : CreateTaskData) : Task :=
  {| id := Helpers.generateId (Hook.idNow env) (Hook.idRandom36 env);
     title := newTitle data; description := newDescription data;
     status := newStatus data; priority := newPriority data;
     createdAt := ValidDate (Hook.createdNow env);
     updatedAt := ValidDate (Hook.updatedNow env) |}.

Definition report : CreateTaskData :=
  {| newTitle := "Write report"; newDescription := None;
     newStatus := Todo; newPriority := Medium |}.

Definition clock : Hook.CreateEnv :=
  {| Hook.idNow := 1700000000000; Hook.idRandom36 := "0.4fzyo82mvyr";
     Hook.createdNow := 1700000000000; Hook.updatedNow := 1700000000000 |}.

End Spec.

(** *** Vocabulary: dependency graphs *)

Module DependencySpec.
Import Spec.

(** [walk R l]: each element of [l] is related to the next. *)
Fixpoint walk {A} (R : relation A) (l : list A) : Prop :=
  match l with
  | a :: l' =>
      match l' with
      | b :: _ => R a b ∧ walk R l'
      | [] => True
      end
  | [] => True
  end.

(** A walk of at least one step that ends where it starts. *)
Definition closedWalk {A} (R : relation A) (c : list A) : Prop :=
  walk R c ∧ ∃ x rest, c = x :: rest ++ [x].

(** The edges [dfs] follows: dependencies that are keys of the map. *)
Definition knownEdge (taskMap : gmap string Validation.Task) (x y : string)
    : Prop :=
  edge taskMap x y ∧ known taskMap y.

(** The tasks [dfs] has finished: visited and no longer on the stack. *)
Definition finished (s : Validation.DfsState) : gset string :=
  Validation.visited s ∖ Validation.recursionStack s.

(** The finished tasks only depend on finished tasks, and none of them
    reaches itself. *)
Definition finishedInv (taskMap : gmap string Validation.Task)
    (s : Validation.DfsState) : Prop :=
  (∀ u v, u ∈ finished s → knownEdge taskMap u v → v ∈ finished s)
  ∧ (∀ u, u ∈ finished s → ¬ tc (knownEdge taskMap) u u).

(** The list with the dependency [taskId -> newDependencyId] added, as
    [wouldCreateCircularDependency] builds it. *)
Definition withDependency (tasks : list Validation.Task)
    (taskId newDependencyId : string) : list Validation.Task :=
  (λ task, if decide (Validation.id task = taskId)
           then Validation.addDependency newDependencyId task else task)
    <$> tasks.

End DependencySpec.

(** *** Vocabulary: batches *)

Module BatchSpec.
Import Spec.

(** The number of tasks of the list that carry the identifier. *)
Definition occurrences (taskId : string) (tasks : list Validation.Task) : Z :=
  Z.of_nat (length (filter (λ task, Validation.id task = taskId) tasks)).

End BatchSpec.

(** *** Vocabulary: texts *)

Module TextSpec.

(** A string with no white space at its start. *)
Definition noLeadingSpace (s : string) : Prop :=
  match s with
  | String c _ => Js.isWhiteSpace c = false
  | EmptyString => True
  end.

(** A string of decimal digits, the empty string included. *)
Fixpoint allDigits (s : string) : bool :=
  match s with
  | String c s' => Js.isDigit c && allDigits s'
  | EmptyString => true
  end.

End TextSpec.

(** *** Vocabulary: numbered identifiers *)

Module IdSpec.
Import Types.

(** The identifiers of the list that [parseInt] reads as a number. *)
Definition numericIds (tasks : list Task) : list Z :=
  omap (λ task, Js.parseInt (id task)) tasks.

(** A task that carries the identifier. *)
Definition numbered (i : string) : Task :=
  {| id := i; title := "Write report"; description := None; status := Todo;
     priority := Medium; createdAt := ValidDate 1690000000000;
     updatedAt := ValidDate 1700000000000 |}.

End IdSpec.

(** *** Vocabulary: filters and orders *)

Module HelperSpec.
Import Types Helpers.

(** The three filters of [filterTasks], one after the other. *)
Definition filterInTurn (tasks : list Task) (filters : TaskFilters) : list Task :=
  let byStatus :=
    match filterStatus filters with
    | Some s => getTasksByStatus tasks s
    | None => tasks
    end in
  let byPriority :=
    match filterPriority filters with
    | Some p => getTasksByPriority byStatus p
    | None => byStatus
    end in
  match filterSearch filters with
  | Some search => searchTasks byPriority search
  | None => byPriority
  end.

(** A search text that [searchTasks] and [filterTasks] treat alike: empty,
    or with a character that is no white space. *)
Definition plainSearch (filters : TaskFilters) : Prop :=
  ∀ search, filterSearch filters = Some search →
    search = "" ∨ Js.trim search ≠ "".


(** The place of a status in the order todo, in-progress, done. *)
Definition statusRank (s : TaskStatus) : Z :=
  match s with Todo => 0 | InProgress => 1 | Done => 2 end%Z.

(** [a] was created no earlier than [b]; both dates are valid. *)
Definition createdNoEarlier (a b : Task) : Prop :=
  match createdAt a, createdAt b with
  | ValidDate ta, ValidDate tb => (tb ≤ ta)%Z
  | _, _ => False
  end.

Definition validCreatedAt (t : Task) : Prop := createdAt t ≠ InvalidDate.

End HelperSpec.

(** *** Vocabulary: stored tasks *)

Module StorageSpec.
Import Types Storage.

(** What a stored task is read back as. *)
Definition restored (task : Task) : Task := rehydrate (stringifyTask task).

(** The outcome of [restoreFromBackup] around that of the save it makes. *)
Definition restoreOutcome {W} (saved : Result unit * W) : Result unit * W :=
  match saved with
  | (Ok _, w) => (Ok (), w)
  | (Throw msg, w) => (Throw ("Failed to restore backup: " +:+ msg), w)
  end.

End StorageSpec.

(** *** Vocabulary: the hook and its storage *)

Module HookSpec.
Import Types Storage Hook StorageSpec.

(** A storage that keeps what is saved: a save succeeds, and the load that
    follows gives the saved tasks as they are read back. *)
Definition keepsSaved {W} (storage : TaskStorage W) : Prop :=
  ∀ l w, ∃ w',
    saveTasks storage l w = (Ok (), w')
    ∧ loadTasks storage w' = (Ok (restored <$> l), w').

(** After an operation that succeeded, a refresh shows the list the hook
    holds, as it is read back. *)
Definition persisted {W} (storage : TaskStorage W)
    (result : Result unit * (HookState * W)) : Prop :=
  result.1 = Ok () →
  tasks (refresh storage result.2).1 = restored <$> tasks result.2.1
  ∧ error (refresh storage result.2).1 = None.

End HookSpec.

(** *** Vocabulary: sort fields *)

Module SortSpec.
Import Types.


End SortSpec.

#[local] Set Warnings "-clear-no-such-hyp".

(** * Properties *)

(** ** Dependency-cycle detection *)

Module CycleFacts.
Import Validation Spec.

Lemma forEachM_partial {A S} (I : S → Prop) (f : A → S → option S) l s s' :
  Js.forEachM f l s = Some s' →
  I s →
  (∀ x s1 s2, x ∈ l → I s1 → f x s1 = Some s2 → I s2) →
  I s'.
Proof.
  revert s. induction l as [|x l IH]; intros s Hrun Hs Hstep; simpl in Hrun.
  - by simplify_eq.
  - destruct (f x s) as [s1|] eqn:Hf; [|done].
    apply (IH s1 Hrun).
    + eapply Hstep; [left | done | done].
    + intros y s2 s3 Hy. apply Hstep. by right.
Qed.

Lemma forEachM_total {A S} (I : S → Prop) (f : A → S → option S) l s :
  I s →
  (∀ x s1, x ∈ l → I s1 → ∃ s2, f x s1 = Some s2 ∧ I s2) →
  ∃ s', Js.forEachM f l s = Some s' ∧ I s'.
Proof.
  revert s. induction l as [|x l IH]; intros s Hs Hstep; simpl.
  - eauto.
  - destruct (Hstep x s) as (s1 & -> & Hs1); [left | done |].
    apply IH; [done|]. intros y s2 Hy. apply Hstep. by right.
Qed.

Section WithMap.
Context (taskMap : gmap string Task).

Lemma edge_depsOf x y : y ∈ depsOf taskMap x → edge taskMap x y.
Proof.
  unfold depsOf, edge.
  destruct (taskMap !! x) as [task|]; [|by intros ?%elem_of_nil].
  destruct (dependencies task) as [deps|] eqn:Hd; simpl;
    [|by intros ?%elem_of_nil].
  eauto.
Qed.

Lemma dfs_unfold fuel taskId path s :
  dfs taskMap (S fuel) taskId path s =
    if decide (taskId ∈ recursionStack s) then
      match Js.indexOf taskId path with
      | Some cycleStart => Some (pushCycle (Js.slice cycleStart path) s)
      | None => Some s
      end
    else if decide (taskId ∈ visited s) then Some s
    else
      match
        Js.forEachM
          (λ depId s',
             if decide (is_Some (taskMap !! depId))
             then dfs taskMap fuel depId (path ++ [depId]) s'
             else Some s')
          (depsOf taskMap taskId) (enter taskId s)
      with
      | Some s2 => Some (leave taskId s2)
      | None => None
      end.
Proof. reflexivity. Qed.

(** A call of [dfs] leaves the recursion stack as it found it. *)
Lemma dfs_stack fuel : ∀ taskId path s s',
  dfs taskMap fuel taskId path s = Some s' →
  recursionStack s' = recursionStack s.
Proof.
  induction fuel as [|fuel IH]; intros taskId path s s' Hrun; [done|].
  rewrite dfs_unfold in Hrun.
  destruct (decide (taskId ∈ recursionStack s)) as [Hin|Hnin].
  { destruct (Js.indexOf taskId path); by simplify_eq. }
  destruct (decide (taskId ∈ visited s)); [by simplify_eq|].
  destruct (Js.forEachM _ _ _) as [s2|] eqn:Hloop; [|done].
  simplify_eq.
  assert (recursionStack s2 = recursionStack (enter taskId s)) as Hs2.
  { eapply (forEachM_partial
              (λ s1, recursionStack s1 = recursionStack (enter taskId s)));
      [exact Hloop | done |].
    intros depId s1 s3 _ Hs1 Hstep. simpl in Hstep.
    destruct (decide (is_Some (taskMap !! depId))); [|by simplify_eq].
    by rewrite (IH _ _ _ _ Hstep). }
  simpl. rewrite Hs2. simpl. clear -Hnin. set_solver.
Qed.

(** Enough fuel: every call that goes on marks one more key of the map as
    visited. *)
Lemma dfs_total fuel : ∀ taskId path s,
  known taskMap taskId →
  visited s ⊆ dom taskMap →
  size (dom taskMap ∖ visited s) < fuel →
  ∃ s', dfs taskMap fuel taskId path s = Some s'
        ∧ visited s ⊆ visited s' ∧ visited s' ⊆ dom taskMap.
Proof.
  induction fuel as [|fuel IH]; intros taskId path s Hk Hsub Hsize; [lia|].
  rewrite dfs_unfold.
  destruct (decide (taskId ∈ recursionStack s)).
  { destruct (Js.indexOf taskId path); eauto. }
  destruct (decide (taskId ∈ visited s)) as [|Hnv]; [eauto|].
  assert (taskId ∈ dom taskMap) as Hdom by by apply elem_of_dom.
  assert (size (dom taskMap ∖ visited (enter taskId s)) < fuel) as Hlt.
  { simpl.
    assert (dom taskMap ∖ ({[taskId]} ∪ visited s)
              ⊂ dom taskMap ∖ visited s) as Hss by (clear -Hnv Hdom; set_solver).
    apply subset_size in Hss. lia. }
  destruct (forEachM_total
              (λ s1, visited (enter taskId s) ⊆ visited s1
                     ∧ visited s1 ⊆ dom taskMap)
              (λ depId s',
                 if decide (is_Some (taskMap !! depId))
                 then dfs taskMap fuel depId (path ++ [depId]) s'
                 else Some s')
              (depsOf taskMap taskId) (enter taskId s)) as (s2 & -> & Hs2a & Hs2b).
  - split; [done|]. simpl. clear -Hsub Hdom. set_solver.
  - intros depId s1 _ [Hv1 Hv2]. simpl.
    destruct (decide (is_Some (taskMap !! depId))) as [Hd|]; [|eauto].
    destruct (IH depId (path ++ [depId]) s1 Hd Hv2) as (s3 & -> & ? & ?).
    + assert (size (dom taskMap ∖ visited s1)
                ≤ size (dom taskMap ∖ visited (enter taskId s))); [|lia].
      apply subseteq_size. clear -Hv1. set_solver.
    + exists s3. split; [done|]. split; [by etrans|done].
  - eexists. split; [done|]. simpl in *. split; [|done].
    clear -Hs2a. set_solver.
Qed.

(** Every identifier in a reported cycle is a key of the map. *)
Lemma dfs_cycles_known fuel : ∀ taskId path s s',
  dfs taskMap fuel taskId path s = Some s' →
  Forall (known taskMap) path →
  Forall (Forall (known taskMap)) (cycles s) →
  Forall (Forall (known taskMap)) (cycles s').
Proof.
  induction fuel as [|fuel IH]; intros taskId path s s' Hrun Hpath Hcyc; [done|].
  rewrite dfs_unfold in Hrun.
  destruct (decide (taskId ∈ recursionStack s)).
  { destruct (Js.indexOf taskId path) as [i|]; simplify_eq; [|done].
    simpl. apply Forall_app. split; [done|].
    apply Forall_singleton. by apply Forall_drop. }
  destruct (decide (taskId ∈ visited s)); [by simplify_eq|].
  destruct (Js.forEachM _ _ _) as [s2|] eqn:Hloop; [|done].
  simplify_eq. simpl.
  eapply (forEachM_partial (λ s1, Forall (Forall (known taskMap)) (cycles s1)));
    [exact Hloop | done |].
  intros depId s1 s3 _ Hs1 Hstep. simpl in Hstep.
  destruct (decide (is_Some (taskMap !! depId))) as [Hd|]; [|by simplify_eq].
  eapply IH; [exact Hstep | | done].
  apply Forall_app. split; [done|]. by apply Forall_singleton.
Qed.

(** A cycle is reported only for a task that reaches itself. *)
Lemma dfs_acyclic fuel : ∀ taskId path s s',
  dfs taskMap fuel taskId path s = Some s' →
  (∀ x, ¬ tc (edge taskMap) x x) →
  (∀ x, x ∈ recursionStack s → tc (edge taskMap) x taskId) →
  cycles s' = cycles s.
Proof.
  induction fuel as [|fuel IH]; intros taskId path s s' Hrun Hacyc Hstack; [done|].
  rewrite dfs_unfold in Hrun.
  destruct (decide (taskId ∈ recursionStack s)) as [Hin|Hnin].
  { destruct (Hacyc taskId). by apply Hstack. }
  destruct (decide (taskId ∈ visited s)); [by simplify_eq|].
  destruct (Js.forEachM _ _ _) as [s2|] eqn:Hloop; [|done].
  simplify_eq. simpl.
  cut (recursionStack s2 = recursionStack (enter taskId s)
       ∧ cycles s2 = cycles s); [by intros [_ ?]|].
  eapply (forEachM_partial
            (λ s1, recursionStack s1 = recursionStack (enter taskId s)
                   ∧ cycles s1 = cycles s));
    [exact Hloop | done |].
  intros depId s1 s3 Hdep [Hst Hcy] Hstep. simpl in Hstep.
  destruct (decide (is_Some (taskMap !! depId))); [|by simplify_eq].
  split.
  - rewrite <-Hst. by eapply dfs_stack.
  - rewrite <-Hcy. eapply IH; [exact Hstep | done |].
    intros x. rewrite Hst. simpl. rewrite elem_of_union, elem_of_singleton.
    intros [->|Hx].
    + apply tc_once. by apply edge_depsOf.
    + eapply tc_r; [by apply Hstack|]. by apply edge_depsOf.
Qed.

End WithMap.

Lemma taskMapOf_lookup tasks x task :
  taskMapOf tasks !! x = Some task → task ∈ tasks ∧ id task = x.
Proof.
  unfold taskMapOf.
  cut (∀ m : gmap string Task,
         foldl (λ m task, <[id task := task]> m) m tasks !! x = Some task →
         (task ∈ tasks ∧ id task = x) ∨ m !! x = Some task).
  { intros H Hl. destruct (H ∅ Hl) as [?|Hm]; [done|].
    by rewrite lookup_empty in Hm. }
  induction tasks as [|t tasks IH]; intros m Hl; simpl in Hl; [by right|].
  destruct (IH _ Hl) as [[? ?]|Hm].
  - left. split; [by right|done].
  - destruct (decide (id t = x)) as [<-|Hne].
    + rewrite lookup_insert_eq in Hm. simplify_eq. left. split; [left|done].
    + rewrite lookup_insert_ne in Hm by done. by right.
Qed.

Lemma dom_taskMapOf tasks :
  dom (taskMapOf tasks) = list_to_set (id <$> tasks).
Proof.
  unfold taskMapOf.
  cut (∀ m : gmap string Task,
         dom (foldl (λ m task, <[id task := task]> m) m tasks)
         = dom m ∪ list_to_set (id <$> tasks)).
  { intros H. rewrite H, dom_empty_L. by rewrite (left_id_L ∅ (∪)). }
  induction tasks as [|t tasks IH]; intros m; simpl.
  - by rewrite (right_id_L ∅ (∪)).
  - rewrite IH, dom_insert_L. set_solver.
Qed.

Lemma size_list_to_set_le (l : list string) :
  size (list_to_set l : gset string) ≤ length l.
Proof.
  induction l as [|x l IH].
  - rewrite list_to_set_nil, size_empty. done.
  - rewrite list_to_set_cons, size_union_alt, size_singleton. simpl.
    assert (size ((list_to_set l : gset string) ∖ {[x]})
              ≤ size (list_to_set l : gset string)).
    { apply subseteq_size. set_solver. }
    lia.
Qed.

Lemma known_taskMapOf tasks x :
  known (taskMapOf tasks) x ↔ x ∈ id <$> tasks.
Proof.
  unfold known. rewrite <-elem_of_dom, dom_taskMapOf. apply elem_of_list_to_set.
Qed.

Lemma edge_dependsOn tasks x y :
  edge (taskMapOf tasks) x y → dependsOn tasks x y.
Proof.
  intros (task & deps & Hl & Hd & Hy).
  apply taskMapOf_lookup in Hl as [? ?]. by exists task, deps.
Qed.

Lemma acyclic_edge tasks :
  acyclic tasks → ∀ x, ¬ tc (edge (taskMapOf tasks)) x x.
Proof.
  intros Hac x Hx. apply (Hac x).
  apply (tc_congruence (λ z, z) (dependsOn tasks)) in Hx; [done|].
  intros ??. apply edge_dependsOn.
Qed.

(** [findCircularDependencies] returns; its cycles only name tasks of the
    list; and an acyclic list has none. *)
Lemma findCircularDependencies_spec tasks :
  ∃ cycles,
    findCircularDependencies tasks = Some cycles
    ∧ Forall (Forall (λ x, x ∈ id <$> tasks)) cycles
    ∧ (acyclic tasks → cycles = []).
Proof.
  unfold findCircularDependencies.
  destruct (forEachM_total (outerInv tasks)
              (λ task s,
                 if decide (id task ∈ visited s) then Some s
                 else dfs (taskMapOf tasks) (S (length tasks))
                        (id task) [id task] s)
              tasks dfsInit) as (s' & -> & Hinv).
  - repeat split; simpl; done.
  - intros task s Htask (Hv & Hst & Hcyc & Hac).
    destruct (decide (id task ∈ visited s)); [by eexists|].
    assert (known (taskMapOf tasks) (id task)) as Hk.
    { apply known_taskMapOf. by apply list_elem_of_fmap_2. }
    destruct (dfs_total (taskMapOf tasks) (S (length tasks))
                (id task) [id task] s) as (s2 & Hrun & Hv1 & Hv2); [done|done| |].
    { assert (size (dom (taskMapOf tasks) ∖ visited s)
                ≤ size (dom (taskMapOf tasks)))
        by (apply subseteq_size; set_solver).
      pose proof (size_list_to_set_le (id <$> tasks)) as Hle.
      rewrite <-dom_taskMapOf, length_fmap in Hle. lia. }
    exists s2. split; [done|]. repeat split.
    + done.
    + rewrite <-Hst. by eapply dfs_stack.
    + eapply dfs_cycles_known; [exact Hrun| |done]. by apply Forall_singleton.
    + intros Hacyc. rewrite <-(Hac Hacyc).
      eapply dfs_acyclic; [exact Hrun|by apply acyclic_edge|].
      intros x. rewrite Hst. by intros ?%not_elem_of_empty.
  - destruct Hinv as (_ & _ & Hcyc & Hac). simpl. eexists. split; [done|].
    split; [|done].
    eapply Forall_impl; [exact Hcyc|]. intros c Hc.
    eapply Forall_impl; [exact Hc|]. intros x. apply known_taskMapOf.
Qed.

(** The acyclic half of C1: no cycle is reported for an acyclic list. *)
Lemma findCircularDependencies_acyclic tasks :
  acyclic tasks → findCircularDependencies tasks = Some [].
Proof.
  intros Hac. destruct (findCircularDependencies_spec tasks)
    as (cycles & -> & _ & Hnil). by rewrite (Hnil Hac).
Qed.

Lemma abc_chain_acyclic : acyclic abc_chain.
Proof.
  assert (∀ x y, dependsOn abc_chain x y → chainRank y < chainRank x) as Hstep.
  { intros x y (task & deps & Hin & <- & Hdeps & Hy). unfold abc_chain in Hin.
    repeat (apply elem_of_cons in Hin as [->|Hin]);
      [..|by apply elem_of_nil in Hin];
      simpl in Hdeps; simplify_eq;
      repeat (apply elem_of_cons in Hy as [->|Hy]);
      try (by apply elem_of_nil in Hy); vm_compute; lia. }
  assert (∀ x y, tc (dependsOn abc_chain) x y → chainRank y < chainRank x) as Htc.
  { induction 1 as [x y Hxy|x y z Hxy _ IH].
    - by apply Hstep.
    - apply Hstep in Hxy. lia. }
  intros x Hx. apply Htc in Hx. lia.
Qed.

Lemma findCircularDependencies_abc_chain :
  findCircularDependencies abc_chain = Some [].
Proof. apply findCircularDependencies_acyclic, abc_chain_acyclic. Qed.

(** C1: on the three-task cycle the reported cycle names [A] twice, and
    the message built from it by the batch validator ends with [A] twice. *)
Theorem findCircularDependencies_three_cycle :
  findCircularDependencies abc_cycle = Some [["A"; "B"; "C"; "A"]]
  ∧ circularDependencyMessage ["A"; "B"; "C"; "A"]
    = "Circular dependency detected: A → B → C → A → A".
Proof. split; reflexivity. Qed.

End CycleFacts.

(** ** Validation *)

Module ValidateFacts.
Import Validation Spec.

(** The errors of a task split around the description rule, the only check
    that tells two valid priorities apart. *)
Lemma validateTask_priority_split task options :
  ∃ pre post, ∀ p,
    p ∈ validPriorities →
    errors (validateTask (withPriority p task) options)
    = pre
      ++ (if Js.includes p (default ["high"] (requireDescriptionForPriority options))
             && isBlank (description task)
          then [descriptionRequired p] else [])
      ++ post.
Proof.
  set (idp := default Js.defaultIdPattern (idPattern options)).
  set (existing := default [] (existingTasks options)).
  exists (idErrors idp task
          ++ titleErrors (default 1%Z (minTitleLength options))
               (default 100%Z (maxTitleLength options)) task
          ++ descriptionErrors (default 1000%Z (maxDescriptionLength options)) task
          ++ statusErrors task),
         (complexityErrors task
          ++ dependencyErrors idp existing task
          ++ subtaskErrors task).
  intros p Hp.
  unfold validateTask. cbn [errors]. fold idp existing.
  assert (priorityErrors (withPriority p task) = []) as ->.
  { unfold priorityErrors, Js.includes. cbn [priority withPriority].
    by rewrite (bool_decide_eq_true_2 _ Hp). }
  rewrite <-!(assoc_L (++)). reflexivity.
Qed.

Lemma isValid_errors task options :
  isValid (validateTask task options)
  = bool_decide (errors (validateTask task options) = []).
Proof.
  unfold validateTask. cbn [isValid errors].
  apply bool_decide_ext. apply length_zero_iff_nil.
Qed.

Lemma validateTask_error_invalid task options e :
  e ∈ errors (validateTask task options) →
  isValid (validateTask task options) = false.
Proof.
  intros He. rewrite isValid_errors. apply bool_decide_eq_false.
  intros Hnil. rewrite Hnil in He. by apply elem_of_nil in He.
Qed.

Lemma dependencyErrors_errors task options e :
  e ∈ dependencyErrors (default Js.defaultIdPattern (idPattern options))
        (default [] (existingTasks options)) task →
  e ∈ errors (validateTask task options).
Proof.
  intros He. unfold validateTask. cbn [errors].
  rewrite !elem_of_app. do 7 right. by left.
Qed.

Lemma missing_dependency_reported idp tasks task deps depId :
  tasks ≠ [] →
  dependencies task = Some deps →
  depId ∈ deps →
  depId ∉ id <$> tasks →
  depId ∈ missingDependencies tasks deps
  ∧ missingDependencyMessage (missingDependencies tasks deps)
      ∈ dependencyErrors idp tasks task.
Proof.
  intros Hne Hdeps Hin Hnot.
  assert (depId ∈ missingDependencies tasks deps) as Hmiss.
  { unfold missingDependencies. apply list_elem_of_filter. split; [|done].
    by rewrite elem_of_list_to_set. }
  split; [done|].
  unfold dependencyErrors. rewrite Hdeps.
  assert ((0 <? Z.of_nat (length tasks))%Z = true) as ->.
  { apply Z.ltb_lt. destruct tasks; [done|simpl; lia]. }
  cbv zeta.
  assert ((0 <? Z.of_nat (length (missingDependencies tasks deps)))%Z = true) as ->.
  { apply Z.ltb_lt. destruct (missingDependencies tasks deps);
      [by apply elem_of_nil in Hmiss | simpl; lia]. }
  rewrite !elem_of_app. right. right. apply list_elem_of_singleton. done.
Qed.

(** C2: an identifier that no task of the list carries never occurs in a
    reported cycle, and cycle detection returns; [validateTask], given the
    non-empty list as [existingTasks], lists it in a "Missing dependency
    tasks" error, so the record is invalid. *)
Theorem dangling_dependency_policy (tasks : list Task) (depId : string) :
  depId ∉ id <$> tasks →
  (∃ cycles,
     findCircularDependencies tasks = Some cycles
     ∧ ∀ cycle, cycle ∈ cycles → depId ∉ cycle)
  ∧ (∀ task options deps,
       existingTasks options = Some tasks →
       tasks ≠ [] →
       dependencies task = Some deps →
       depId ∈ deps →
       isValid (validateTask task options) = false
       ∧ depId ∈ missingDependencies tasks deps
       ∧ missingDependencyMessage (missingDependencies tasks deps)
           ∈ errors (validateTask task options)).
Proof.
  intros Hdangling. split.
  - destruct (CycleFacts.findCircularDependencies_spec tasks)
      as (cycles & Hrun & Hknown & _).
    exists cycles. split; [done|]. intros cycle Hcycle Hin.
    rewrite Forall_forall in Hknown. specialize (Hknown cycle Hcycle).
    rewrite Forall_forall in Hknown. by apply Hdangling, Hknown.
  - intros task options deps Hexisting Hne Hdeps Hin.
    destruct (missing_dependency_reported
                (default Js.defaultIdPattern (idPattern options))
                tasks task deps depId Hne Hdeps Hin Hdangling) as [Hmiss Hmsg].
    assert (missingDependencyMessage (missingDependencies tasks deps)
              ∈ errors (validateTask task options)) as Herr.
    { apply dependencyErrors_errors. by rewrite Hexisting. }
    split; [by eapply validateTask_error_invalid|]. done.
Qed.

Lemma dangling_dependency_policy_witness :
  ("9" ∉ id <$> danglingTasks)
  ∧ (∃ cycles,
       findCircularDependencies danglingTasks = Some cycles
       ∧ ∀ cycle, cycle ∈ cycles → "9" ∉ cycle)
  ∧ isValid (validateTask (mk "1" ["2"; "9"]) (withExisting danglingTasks)) = false
  ∧ missingDependencyMessage ["9"]
      ∈ errors (validateTask (mk "1" ["2"; "9"]) (withExisting danglingTasks)).
Proof.
  assert ("9" ∉ id <$> danglingTasks) as Hdangling.
  { intros Hin. vm_compute in Hin.
    repeat (apply elem_of_cons in Hin as [Hin|Hin]; [discriminate|]).
    by apply elem_of_nil in Hin. }
  destruct (dangling_dependency_policy danglingTasks "9" Hdangling)
    as [Hcycles Hvalidate].
  split; [exact Hdangling|]. split; [exact Hcycles|].
  destruct (Hvalidate (mk "1" ["2"; "9"]) (withExisting danglingTasks) ["2"; "9"])
    as (Hinvalid & _ & Hmsg).
  - reflexivity.
  - discriminate.
  - reflexivity.
  - right. left.
  - split; [exact Hinvalid | exact Hmsg].
Defined.

Lemma trimStart_onlyWhiteSpace s :
  onlyWhiteSpace s = true → Js.trimStart s = "".
Proof.
  induction s as [|c s IH]; simpl; [done|].
  intros [Hc Hs]%andb_true_iff. rewrite Hc. by apply IH.
Qed.

Lemma isBlank_blankDescription task :
  blankDescription task → isBlank (description task) = true.
Proof.
  unfold blankDescription, isBlank. destruct (description task) as [d|]; [|done].
  intros Hd. apply orb_true_iff. right. apply bool_decide_eq_true.
  unfold Js.trim. by rewrite (trimStart_onlyWhiteSpace d Hd).
Qed.

(** C3: with the default options a task whose description is absent or
    consists only of white space is invalid under priority "high"; when
    the description rule is its only error, the same task is valid under
    priority "medium". *)
Theorem high_priority_requires_description task :
  blankDescription task →
  let high := validateTask (withPriority "high" task) noOptions in
  let medium := validateTask (withPriority "medium" task) noOptions in
  isValid high = false
  ∧ descriptionRequired "high" ∈ errors high
  ∧ (errors high = [descriptionRequired "high"] → isValid medium = true).
Proof.
  intros Hblank%isBlank_blankDescription high medium.
  destruct (validateTask_priority_split task noOptions) as (pre & post & Hsplit).
  assert (errors high = pre ++ [descriptionRequired "high"] ++ post) as Hhigh.
  { unfold high. rewrite Hsplit by (unfold validPriorities; set_solver).
    by rewrite Hblank. }
  assert (errors medium = pre ++ post) as Hmedium.
  { unfold medium. rewrite Hsplit by (unfold validPriorities; set_solver). done. }
  split; [|split].
  - unfold high. rewrite isValid_errors. apply bool_decide_eq_false.
    fold high. rewrite Hhigh. by destruct pre.
  - rewrite Hhigh. set_solver.
  - intros Honly. unfold medium. rewrite isValid_errors. apply bool_decide_eq_true.
    fold medium. rewrite Hmedium. rewrite Hhigh in Honly.
    apply (f_equal length) in Honly. rewrite !length_app in Honly. simpl in Honly.
    destruct pre, post; simpl in *; try lia. done.
Qed.

Lemma high_priority_requires_description_witness :
  blankDescription blankTask
  ∧ isValid (validateTask (withPriority "high" blankTask) noOptions) = false
  ∧ errors (validateTask (withPriority "high" blankTask) noOptions)
    = ["high priority tasks must have a description"]
  ∧ isValid (validateTask (withPriority "medium" blankTask) noOptions) = true.
Proof.
  assert (blankDescription blankTask) as Hblank by reflexivity.
  destruct (high_priority_requires_description blankTask Hblank)
    as (Hhigh & _ & Hmedium).
  assert (errors (validateTask (withPriority "high" blankTask) noOptions)
          = ["high priority tasks must have a description"]) as Honly
    by reflexivity.
  split; [exact Hblank|]. split; [exact Hhigh|]. split; [exact Honly|].
  exact (Hmedium Honly).
Defined.

End ValidateFacts.

(** ** Identifiers *)

Module IdFacts.
Import Validation Spec.

Lemma toString_inj (m n : Z) : Js.toString m = Js.toString n → m = n.
Proof. unfold Js.toString. apply (inj pretty). Qed.

Lemma firstNames_NoDup k : NoDup (firstNames k).
Proof.
  unfold firstNames. apply NoDup_fmap_2; [|apply NoDup_seq].
  intros i j Hij. apply toString_inj in Hij. lia.
Qed.

(** Pigeonhole: a list that holds the names of 1, ..., [k] has at least
    [k] elements. *)
Lemma firstNames_bound (ids : list string) k :
  (∀ i, 1 ≤ i ≤ k → Js.toString (Z.of_nat i) ∈ ids) → k ≤ length ids.
Proof.
  intros Hall.
  assert (firstNames k ⊆+ ids) as Hsub.
  { apply NoDup_submseteq; [apply firstNames_NoDup|].
    intros x (i & -> & Hi)%list_elem_of_fmap. apply elem_of_seq in Hi.
    apply Hall. lia. }
  apply submseteq_length in Hsub. unfold firstNames in Hsub.
  by rewrite length_fmap, length_seq in Hsub.
Qed.



End IdFacts.

(** ** Sorting by priority *)

Module SortFacts.
Import Types Spec.

Section Comparator.
Context {A : Type} (cmp : A → A → Z).

Lemma sortInsert_Permutation x l : Js.sortInsert cmp x l ≡ₚ x :: l.
Proof.
  induction l as [|y l IH]; simpl; [done|].
  destruct (0 <? cmp x y)%Z; [|done].
  rewrite IH. apply Permutation_swap.
Qed.

Lemma sort_Permutation l : Js.sort cmp l ≡ₚ l.
Proof.
  induction l as [|x l IH]; simpl; [done|].
  rewrite sortInsert_Permutation. by f_equiv.
Qed.

(** A comparator that orders by a rank: [x] goes behind [y] exactly when
    its rank is larger. *)
Context (rank : A → Z).
Hypothesis cmp_rank : ∀ x y, (0 < cmp x y)%Z ↔ (rank y < rank x)%Z.

Lemma sortInsert_Sorted x l :
  StronglySorted (rankLe rank) l →
  StronglySorted (rankLe rank) (Js.sortInsert cmp x l).
Proof.
  induction 1 as [|y l Hl IH Hy]; simpl.
  - by repeat constructor.
  - destruct (0 <? cmp x y)%Z eqn:Hc.
    + apply Z.ltb_lt, cmp_rank in Hc. constructor; [done|].
      rewrite sortInsert_Permutation. constructor; [unfold rankLe; lia|done].
    + apply Z.ltb_ge in Hc.
      assert (rank x ≤ rank y)%Z as Hxy.
      { destruct (Z.le_gt_cases (rank x) (rank y)) as [?|Hgt]; [done|].
        apply cmp_rank in Hgt. lia. }
      constructor; [by constructor|].
      constructor; [done|].
      eapply Forall_impl; [exact Hy|]. unfold rankLe. intros z ?. lia.
Qed.

Lemma sort_Sorted l : StronglySorted (rankLe rank) (Js.sort cmp l).
Proof.
  induction l as [|x l IH]; simpl; [constructor|]. by apply sortInsert_Sorted.
Qed.

(** Stability: elements that share a rank keep their order, so any class
    of elements of one rank is left as it was. *)
Section Stable.
Context (P : A → Prop) `{!∀ x, Decision (P x)}.
Hypothesis P_rank : ∀ x y, P x → P y → rank x = rank y.

Lemma sortInsert_stable x l :
  filter P (Js.sortInsert cmp x l) = filter P (x :: l).
Proof.
  induction l as [|y l IH]; simpl; [done|].
  destruct (0 <? cmp x y)%Z eqn:Hc; [|done].
  apply Z.ltb_lt, cmp_rank in Hc.
  rewrite !filter_cons in *.
  destruct (decide (P y)) as [Hy|], (decide (P x)) as [Hx|];
    try (rewrite IH; done).
  pose proof (P_rank _ _ Hx Hy). lia.
Qed.

Lemma sort_stable l : filter P (Js.sort cmp l) = filter P l.
Proof.
  induction l as [|x l IH]; simpl; [done|].
  rewrite sortInsert_stable, !filter_cons, IH. done.
Qed.
End Stable.

End Comparator.

Lemma StronglySorted_impl {A} (R R' : relation A) l :
  (∀ x y, R x y → R' x y) → StronglySorted R l → StronglySorted R' l.
Proof.
  intros HR. induction 1 as [|x l Hl IH Hx]; constructor; [done|].
  eapply Forall_impl; [exact Hx|]. auto.
Qed.

(** A sort whose comparator is the difference of the weights, second minus
    first, puts the heavier element first. *)
Lemma sort_by_weight_descending {T} (w : T → Z) (cmp : T → T → Z) tasks :
  (∀ a b, cmp a b = (w b - w a)%Z) →
  Js.sort cmp tasks ≡ₚ tasks
  ∧ StronglySorted (weightNonIncreasing w) (Js.sort cmp tasks)
  ∧ ∀ (P : T → Prop) `{!∀ x, Decision (P x)},
      (∀ x y, P x → P y → w x = w y) →
      filter P (Js.sort cmp tasks) = filter P tasks.
Proof.
  intros Hcmp.
  assert (∀ x y, (0 < cmp x y)%Z ↔ (- w y < - w x)%Z) as Hrank
    by (intros x y; rewrite Hcmp; lia).
  split; [apply sort_Permutation|]. split.
  - eapply StronglySorted_impl; [|apply (sort_Sorted cmp (λ x, - w x)%Z Hrank)].
    unfold rankLe, weightNonIncreasing. intros x y. lia.
  - intros P HP Hclass. apply (sort_stable cmp (λ x, - w x)%Z Hrank).
    intros x y Hx Hy. by rewrite (Hclass x y).
Qed.

(** With the difference the other way round the lighter element comes
    first. *)
Lemma sort_by_weight_ascending {T} (w : T → Z) (cmp : T → T → Z) tasks :
  (∀ a b, cmp a b = (w a - w b)%Z) →
  Js.sort cmp tasks ≡ₚ tasks
  ∧ StronglySorted (weightNonDecreasing w) (Js.sort cmp tasks)
  ∧ ∀ (P : T → Prop) `{!∀ x, Decision (P x)},
      (∀ x y, P x → P y → w x = w y) →
      filter P (Js.sort cmp tasks) = filter P tasks.
Proof.
  intros Hcmp.
  assert (∀ x y, (0 < cmp x y)%Z ↔ (w y < w x)%Z) as Hrank
    by (intros x y; rewrite Hcmp; lia).
  split; [apply sort_Permutation|]. split.
  - apply (sort_Sorted cmp w Hrank).
  - intros P HP Hclass. by apply (sort_stable cmp w Hrank).
Qed.

(** C5 (as amended): both [sortByPriority] functions, and [sortTasks] on
    the field "priority" with order "asc", return a permutation of the
    input in which the weights (high 3, medium 2, low 1) never increase and
    the tasks of one priority keep their order; [sortTasks] with order
    "desc" negates the comparison, so there the weights never decrease.
    The priorities low, high, medium sort to high, medium, low. *)
Theorem priority_sort_stable_descending :
  (∀ (T : Type) (priority : T → string) (tasks : list T),
     let sorted := Priority.sortByPriority priority tasks in
     sorted ≡ₚ tasks
     ∧ StronglySorted
         (weightNonIncreasing (λ t, Priority.getPriorityWeight (priority t)))
         sorted
     ∧ ∀ p, filter (λ t, priority t = p) sorted
            = filter (λ t, priority t = p) tasks)
  ∧ (∀ localeCompare (tasks : list Task),
       let sorted :=
         Helpers.sortTasks localeCompare tasks
           {| field := FieldPriority; order := Asc |} in
       Helpers.sortByPriority localeCompare tasks = sorted
       ∧ sorted ≡ₚ tasks
       ∧ StronglySorted
           (weightNonIncreasing (λ t, Helpers.priorityWeights (priority t)))
           sorted
       ∧ ∀ p, filter (λ t, priority t = p) sorted
              = filter (λ t, priority t = p) tasks)
  ∧ (∀ localeCompare (tasks : list Task),
       let sorted :=
         Helpers.sortTasks localeCompare tasks
           {| field := FieldPriority; order := Desc |} in
       sorted ≡ₚ tasks
       ∧ StronglySorted
           (weightNonDecreasing (λ t, Helpers.priorityWeights (priority t)))
           sorted
       ∧ ∀ p, filter (λ t, priority t = p) sorted
              = filter (λ t, priority t = p) tasks)
  ∧ Priority.getPriorityWeight "high" = 3%Z
  ∧ Priority.getPriorityWeight "medium" = 2%Z
  ∧ Priority.getPriorityWeight "low" = 1%Z
  ∧ Priority.sortByPriority (λ p, p) ["low"; "high"; "medium"]
    = ["high"; "medium"; "low"]
  ∧ (∀ localeCompare,
       priority <$> Helpers.sortByPriority localeCompare
                      [sampleAt "1" Low (ValidDate 0);
                       sampleAt "2" High (ValidDate 0);
                       sampleAt "3" Medium (ValidDate 0)]
       = [High; Medium; Low]).
Proof.
  split; [|split; [|split]].
  - intros T priority tasks sorted.
    destruct (sort_by_weight_descending
                (λ t, Priority.getPriorityWeight (priority t))
                (λ a b, Priority.comparePriorities (priority a) (priority b))
                tasks) as (Hperm & Hsorted & Hstable); [done|].
    split; [done|]. split; [done|].
    intros p. apply Hstable. by intros x y -> ->.
  - intros lc tasks sorted.
    destruct (sort_by_weight_descending
                (λ t, Helpers.priorityWeights (priority t))
                (λ a b, Js.compareResult
                          (Helpers.sortComparator lc
                             {| field := FieldPriority; order := Asc |} a b))
                tasks) as (Hperm & Hsorted & Hstable); [done|].
    split; [done|]. split; [done|]. split; [done|].
    intros p. apply Hstable. by intros x y -> ->.
  - intros lc tasks sorted.
    destruct (sort_by_weight_ascending
                (λ t, Helpers.priorityWeights (priority t))
                (λ a b, Js.compareResult
                          (Helpers.sortComparator lc
                             {| field := FieldPriority; order := Desc |} a b))
                tasks) as (Hperm & Hsorted & Hstable).
    { intros a b. simpl. lia. }
    split; [done|]. split; [done|].
    intros p. apply Hstable. by intros x y -> ->.
  - repeat split; try reflexivity.
Qed.

(** With order "desc", [sortTasks] on the field "priority" puts the
    priorities low, high, medium in the order low, medium, high. *)
Lemma sortTasks_priority_desc_ascending :
  let tasks := [sampleAt "1" Low (ValidDate 0); sampleAt "2" High (ValidDate 0);
                sampleAt "3" Medium (ValidDate 0)] in
  let sorted :=
    Helpers.sortTasks (λ _ _, 0%Z) tasks
      {| field := FieldPriority; order := Desc |} in
  priority <$> sorted = [Low; Medium; High]
  ∧ ¬ StronglySorted
        (weightNonIncreasing (λ t, Helpers.priorityWeights (priority t))) sorted.
Proof.
  intros tasks sorted. split; [reflexivity|].
  assert (sorted = [sampleAt "1" Low (ValidDate 0);
                    sampleAt "3" Medium (ValidDate 0);
                    sampleAt "2" High (ValidDate 0)]) as -> by reflexivity.
  intros Hs. inversion Hs as [|? ? _ Hall]; subst.
  apply Forall_cons in Hall as [Hbad _]. unfold weightNonIncreasing in Hbad.
  simpl in Hbad. lia.
Qed.

End SortFacts.

(** ** Storage adapters *)

Module StorageFacts.
Import Types Storage Platform Spec.

Lemma newDate_toJSON d : d ≠ InvalidDate → newDate (toJSON d) = d.
Proof. by destruct d. Qed.

Lemma rehydrate_stringifyTask t : validDates t → rehydrate (stringifyTask t) = t.
Proof.
  intros [Hc Hu]. destruct t as [i ti de st pr c u].
  unfold rehydrate, stringifyTask. simpl in *. by rewrite !newDate_toJSON.
Qed.

Lemma rehydrate_stringify tasks :
  Forall validDates tasks → rehydrate <$> (stringifyTask <$> tasks) = tasks.
Proof.
  induction 1 as [|t tasks Ht _ IH]; [done|].
  rewrite !fmap_cons, IH. by rewrite rehydrate_stringifyTask.
Qed.

Lemma stringify_iso tasks :
  Forall validDates tasks → Forall isoTimestamps (stringifyTask <$> tasks).
Proof.
  intros H. apply Forall_fmap. eapply Forall_impl; [exact H|].
  intros [i ti de st pr c u] [Hc Hu]. simpl in *.
  destruct c as [c|], u as [u|]; try done. by exists c, u.
Qed.

(** C4 (as amended): the memory adapter hands back the list it was given;
    for a list whose timestamps are valid dates, the file and localStorage
    adapters, and the API adapter against a server that keeps the last body
    put, store the timestamps as ISO strings and load a list equal to the
    one saved. *)
Theorem storage_round_trip (tasks : list Task) :
  (∀ this_tasks : list Task,
     ∃ stored, saveTasks MemoryStorage tasks this_tasks = (Ok (), stored)
               ∧ loadTasks MemoryStorage stored = (Ok tasks, stored))
  ∧ (Forall validDates tasks →
     Forall isoTimestamps (stringifyTask <$> tasks)
     ∧ (∀ path w,
          ∃ w', saveTasks (FileStorage fileSystem path) tasks w = (Ok (), w')
                ∧ w' !! path = Some (stringify tasks)
                ∧ loadTasks (FileStorage fileSystem path) w' = (Ok tasks, w'))
     ∧ (∀ key w,
          ∃ w', saveTasks (LocalStorage webStorage key) tasks w = (Ok (), w')
                ∧ w' !! key = Some (stringify tasks)
                ∧ loadTasks (LocalStorage webStorage key) w' = (Ok tasks, w'))
     ∧ (∀ baseUrl apiKey w,
          ∃ w', saveTasks (ApiStorage restServer baseUrl apiKey) tasks w
                = (Ok (), w')
                ∧ w' !! (baseUrl +:+ "/tasks") = Some (stringify tasks)
                ∧ loadTasks (ApiStorage restServer baseUrl apiKey) w'
                  = (Ok tasks, w'))).
Proof.
  split.
  { intros this_tasks. by exists tasks. }
  intros Hvalid. split; [by apply stringify_iso|].
  split; [|split].
  - intros path w. exists (<[path := stringify tasks]> w).
    split; [done|]. split; [apply lookup_insert_eq|].
    simpl. unfold FileStorage_loadTasks. simpl. rewrite lookup_insert_eq. simpl.
    by rewrite rehydrate_stringify.
  - intros key w. exists (<[key := stringify tasks]> w).
    split; [done|]. split; [apply lookup_insert_eq|].
    simpl. unfold LocalStorage_loadTasks. simpl. rewrite lookup_insert_eq. simpl.
    by rewrite rehydrate_stringify.
  - intros baseUrl apiKey w. exists (<[baseUrl +:+ "/tasks" := stringify tasks]> w).
    split; [done|]. split; [apply lookup_insert_eq|].
    simpl. unfold ApiStorage_loadTasks, restServer. simpl.
    rewrite lookup_insert_eq. simpl. by rewrite rehydrate_stringify.
Qed.

Lemma storage_round_trip_witness :
  let tasks := [sample "1"; sampleAt "2" High (ValidDate 0)] in
  Forall validDates tasks
  ∧ ∃ w', saveTasks (FileStorage fileSystem FILE_PATH) tasks ∅ = (Ok (), w')
          ∧ w' !! FILE_PATH = Some (stringify tasks)
          ∧ loadTasks (FileStorage fileSystem FILE_PATH) w' = (Ok tasks, w').
Proof.
  intros tasks.
  assert (Forall validDates tasks) as Hvalid by (repeat constructor; done).
  split; [exact Hvalid|].
  exact (proj1 (proj2 (proj2 (storage_round_trip tasks) Hvalid)) FILE_PATH ∅).
Defined.

(** An invalid date is written as [null] and read back as the epoch. *)
Lemma invalid_date_not_restored :
  let tasks := [sampleAt "1" Medium InvalidDate] in
  ∃ w' loaded,
    saveTasks (FileStorage fileSystem FILE_PATH) tasks ∅ = (Ok (), w')
    ∧ loadTasks (FileStorage fileSystem FILE_PATH) w' = (Ok loaded, w')
    ∧ loaded = [sampleAt "1" Medium (ValidDate 0)]
    ∧ loaded ≠ tasks.
Proof.
  intros tasks. eexists _, _. split; [reflexivity|]. split; [|split].
  - simpl. unfold FileStorage_loadTasks. simpl. rewrite lookup_insert_eq.
    reflexivity.
  - reflexivity.
  - discriminate.
Qed.

Section File.
Context {W : Type} (fs : FsPromises W) (path : string) (w : W).

Lemma file_load_not_found e :
  readFile fs path w = inl e → code e = Some "ENOENT" →
  loadTasks (FileStorage fs path) w = (Ok [], w).
Proof.
  intros Hr Hc. simpl. unfold FileStorage_loadTasks. rewrite Hr.
  by rewrite decide_True.
Qed.

Lemma file_load_failure e :
  readFile fs path w = inl e → code e ≠ Some "ENOENT" →
  loadTasks (FileStorage fs path) w
  = (Throw ("Failed to load tasks: " +:+ message e), w).
Proof.
  intros Hr Hc. simpl. unfold FileStorage_loadTasks. rewrite Hr.
  by rewrite decide_False.
Qed.

Lemma file_load_corrupt data msg :
  readFile fs path w = inr data → parse data = inl msg →
  loadTasks (FileStorage fs path) w
  = (Throw ("Failed to load tasks: " +:+ msg), w).
Proof.
  intros Hr Hp. simpl. unfold FileStorage_loadTasks. by rewrite Hr, Hp.
Qed.

End File.

Section Local.
Context {W : Type} (ls : WebStorage W) (key : string) (w : W).

Lemma local_load_absent :
  getItem ls key w = inr None → loadTasks (LocalStorage ls key) w = (Ok [], w).
Proof. intros Hg. simpl. unfold LocalStorage_loadTasks. by rewrite Hg. Qed.

Lemma local_load_failure e :
  getItem ls key w = inl e →
  loadTasks (LocalStorage ls key) w
  = (Throw ("Failed to load tasks: " +:+ message e), w).
Proof. intros Hg. simpl. unfold LocalStorage_loadTasks. by rewrite Hg. Qed.

End Local.

Section Api.
Context {W : Type} (fetch : Fetch W) (baseUrl : string) (apiKey : option string)
  (w : W).

Lemma api_load_not_ok response w' :
  fetch (getRequest baseUrl apiKey) w = (inr response, w') →
  ok response = false →
  loadTasks (ApiStorage fetch baseUrl apiKey) w
  = (Throw ("Failed to load tasks: "
              +:+ ("API request failed: " +:+ statusText response)), w').
Proof.
  intros Hf Hok. simpl. unfold ApiStorage_loadTasks.
  fold (getRequest baseUrl apiKey). by rewrite Hf, Hok.
Qed.

Lemma api_load_failure e w' :
  fetch (getRequest baseUrl apiKey) w = (inl e, w') →
  loadTasks (ApiStorage fetch baseUrl apiKey) w
  = (Throw ("Failed to load tasks: " +:+ message e), w').
Proof.
  intros Hf. simpl. unfold ApiStorage_loadTasks.
  fold (getRequest baseUrl apiKey). by rewrite Hf.
Qed.

Lemma api_save_not_ok tasks response w' :
  fetch (putRequest baseUrl apiKey tasks) w = (inr response, w') →
  ok response = false →
  saveTasks (ApiStorage fetch baseUrl apiKey) tasks w
  = (Throw ("Failed to save tasks: "
              +:+ ("API request failed: " +:+ statusText response)), w').
Proof.
  intros Hf Hok. simpl. unfold ApiStorage_saveTasks.
  fold (putRequest baseUrl apiKey tasks). by rewrite Hf, Hok.
Qed.

End Api.

(** C7 (as amended): a load on a missing collection gives the empty list
    for the file adapter (ENOENT), the localStorage adapter (absent key)
    and a fresh memory adapter; the API adapter raises a wrapped error on
    a response that is not ok, such as not-found; every other failure of
    the underlying call is raised as "Failed to load tasks: ..." *)
Theorem load_of_missing_collection :
  (∀ W (fs : FsPromises W) path w e,
     readFile fs path w = inl e → code e = Some "ENOENT" →
     loadTasks (FileStorage fs path) w = (Ok [], w))
  ∧ (∀ W (ls : WebStorage W) key w,
       getItem ls key w = inr None →
       loadTasks (LocalStorage ls key) w = (Ok [], w))
  ∧ loadTasks MemoryStorage MemoryStorage_new = (Ok [], MemoryStorage_new)
  ∧ (∀ W (fetch : Fetch W) baseUrl apiKey w response w',
       fetch (getRequest baseUrl apiKey) w = (inr response, w') →
       ok response = false →
       loadTasks (ApiStorage fetch baseUrl apiKey) w
       = (Throw ("Failed to load tasks: "
                   +:+ ("API request failed: " +:+ statusText response)), w'))
  ∧ (∀ W (fs : FsPromises W) path w e,
       readFile fs path w = inl e → code e ≠ Some "ENOENT" →
       loadTasks (FileStorage fs path) w
       = (Throw ("Failed to load tasks: " +:+ message e), w))
  ∧ (∀ W (ls : WebStorage W) key w e,
       getItem ls key w = inl e →
       loadTasks (LocalStorage ls key) w
       = (Throw ("Failed to load tasks: " +:+ message e), w))
  ∧ (∀ W (fetch : Fetch W) baseUrl apiKey w e w',
       fetch (getRequest baseUrl apiKey) w = (inl e, w') →
       loadTasks (ApiStorage fetch baseUrl apiKey) w
       = (Throw ("Failed to load tasks: " +:+ message e), w')).
Proof.
  repeat split.
  - intros. by eapply file_load_not_found.
  - intros. by apply local_load_absent.
  - intros. by apply api_load_not_ok.
  - intros. by apply file_load_failure.
  - intros. by apply local_load_failure.
  - intros. by apply api_load_failure.
Qed.

Lemma load_of_missing_collection_witness :
  loadTasks (FileStorage fileSystem FILE_PATH) ∅ = (Ok [], ∅)
  ∧ loadTasks (LocalStorage webStorage STORAGE_KEY) ∅ = (Ok [], ∅)
  ∧ loadTasks (ApiStorage restServer "https://example.org" None) ∅
    = (Throw "Failed to load tasks: API request failed: Not Found", ∅)
  ∧ loadTasks (FileStorage (failingFileSystem accessDenied) FILE_PATH) ()
    = (Throw "Failed to load tasks: EACCES: permission denied", ())
  ∧ loadTasks (LocalStorage (failingWebStorage accessDenied) STORAGE_KEY) ()
    = (Throw "Failed to load tasks: EACCES: permission denied", ())
  ∧ loadTasks (ApiStorage (failingFetch accessDenied) "https://example.org" None) ()
    = (Throw "Failed to load tasks: EACCES: permission denied", ()).
Proof.
  destruct load_of_missing_collection
    as (Hfile & Hlocal & _ & Hapi & Hf & Hl & Ha).
  split; [|split; [|split; [|split; [|split]]]].
  - apply (Hfile _ fileSystem FILE_PATH ∅ (noSuchFile FILE_PATH)); reflexivity.
  - apply (Hlocal _ webStorage STORAGE_KEY ∅). reflexivity.
  - apply (Hapi _ restServer "https://example.org" None ∅ notFound ∅);
      reflexivity.
  - apply (Hf _ (failingFileSystem accessDenied) FILE_PATH () accessDenied);
      [reflexivity | discriminate].
  - apply (Hl _ (failingWebStorage accessDenied) STORAGE_KEY () accessDenied).
    reflexivity.
  - apply (Ha _ (failingFetch accessDenied) "https://example.org" None ()
             accessDenied ()). reflexivity.
Defined.

(** The API adapter raises on a not-found response. *)
Lemma api_not_found_raises :
  let storage := ApiStorage restServer "https://example.org" None in
  restServer (getRequest "https://example.org" None) ∅ = (inr notFound, ∅)
  ∧ loadTasks storage ∅
    = (Throw "Failed to load tasks: API request failed: Not Found", ∅)
  ∧ (loadTasks storage ∅).1 ≠ Ok [].
Proof. repeat split. discriminate. Qed.

End StorageFacts.

(** ** The hook *)

Module HookFacts.
Import Types Storage Platform Hook Spec.

Section WithStorage.
Context {W : Type} (storage : TaskStorage W).

Lemma saveTasksToStorage_tasks l h w :
  tasks (saveTasksToStorage storage l (h, w)).1 = tasks h.
Proof.
  unfold saveTasksToStorage. by destruct (saveTasks storage l w) as [[|] ?].
Qed.



Lemma existsb_id (taskId : string) (l : list Task) :
  existsb (λ t, bool_decide (id t = taskId)) l = true
  ↔ ∃ t, t ∈ l ∧ id t = taskId.
Proof.
  rewrite existsb_exists. split.
  - intros (t & Hin & Ht). exists t. split; [by apply list_elem_of_In|].
    by apply bool_decide_eq_true in Ht.
  - intros (t & Hin & Ht). exists t. split; [by apply list_elem_of_In|].
    by apply bool_decide_eq_true.
Qed.

Lemma deleteTask_tasks taskId h w :
  (∃ t, t ∈ tasks h ∧ id t = taskId) →
  (deleteTask storage taskId (h, w)).1 = Ok ()
  ∧ tasks (deleteTask storage taskId (h, w)).2.1
    = filter (λ t, id t ≠ taskId) (tasks h).
Proof.
  intros Hex. apply existsb_id in Hex. unfold deleteTask. rewrite Hex.
  unfold CONFIG_ui_autoSave. cbn [negb fst snd].
  split; [done|]. by rewrite saveTasksToStorage_tasks.
Qed.

Lemma createTask_tasks env data h w :
  Helpers.isValid (Helpers.validateTask (partialOf data)) = true →
  (createTask storage env data (h, w)).1 = Ok ()
  ∧ tasks (createTask storage env data (h, w)).2.1
    = tasks h ++ [createdTask env data].
Proof.
  intros Hvalid. unfold createTask. rewrite Hvalid.
  unfold CONFIG_ui_autoSave. cbn [negb fst snd].
  split; [done|]. by rewrite saveTasksToStorage_tasks.
Qed.

End WithStorage.

Lemma filter_id_length (taskId : string) (l : list Task) :
  length (filter (λ t, id t ≠ taskId) l)
  + length (filter (λ t, id t = taskId) l)
  = length l.
Proof.
  induction l as [|t l IH]; [done|]. rewrite !filter_cons.
  destruct (decide (id t = taskId)), (decide (id t ≠ taskId));
    simpl; try lia; done.
Qed.

Lemma filter_id_absent (taskId : string) (l : list Task) :
  taskId ∉ id <$> l → filter (λ t, id t = taskId) l = [].
Proof.
  induction l as [|t l IH]; intros Hnot; [done|].
  rewrite fmap_cons in Hnot. apply not_elem_of_cons in Hnot as [Hne Hnot].
  rewrite filter_cons. destruct (decide (id t = taskId)); [done|]. by apply IH.
Qed.

Lemma filter_id_NoDup (taskId : string) (l : list Task) :
  NoDup (id <$> l) → (∃ t, t ∈ l ∧ id t = taskId) →
  length (filter (λ t, id t = taskId) l) = 1.
Proof.
  induction l as [|t l IH]; intros Hnd (t' & Hin & Ht').
  - by apply elem_of_nil in Hin.
  - rewrite fmap_cons in Hnd. apply NoDup_cons in Hnd as [Hnotin Hnd].
    rewrite filter_cons. destruct (decide (id t = taskId)) as [Heq|Hne].
    + simpl. rewrite filter_id_absent; [done|]. by rewrite <-Heq.
    + apply IH; [done|]. apply elem_of_cons in Hin as [->|Hin]; [done|].
      by exists t'.
Qed.

(** C6 (as amended): when the list holds a task with the identifier,
    [deleteTask] succeeds and leaves exactly the tasks with another
    identifier, the same records in the same order; the count drops by the
    number of tasks that carry the identifier, which is one when the
    identifiers of the list are distinct. *)
Theorem deleteTask_frame {W} (storage : TaskStorage W) taskId h w :
  (∃ t, t ∈ tasks h ∧ id t = taskId) →
  let result := deleteTask storage taskId (h, w) in
  let remaining := tasks result.2.1 in
  result.1 = Ok ()
  ∧ remaining = filter (λ t, id t ≠ taskId) (tasks h)
  ∧ remaining `sublist_of` tasks h
  ∧ length remaining + length (filter (λ t, id t = taskId) (tasks h))
    = length (tasks h)
  ∧ (NoDup (id <$> tasks h) → length remaining + 1 = length (tasks h)).
Proof.
  intros Hex result remaining.
  destruct (deleteTask_tasks storage taskId h w Hex) as [Hok Hrem].
  fold result in Hok, Hrem. fold remaining in Hrem.
  split; [done|]. split; [done|]. rewrite Hrem. split; [apply sublist_filter|].
  split; [apply filter_id_length|].
  intros Hnd. pose proof (filter_id_length taskId (tasks h)) as Hlen.
  by rewrite (filter_id_NoDup taskId (tasks h)) in Hlen.
Qed.

Lemma deleteTask_frame_witness :
  let h := holding [sample "a"; sample "b"; sample "c"] in
  let result := deleteTask MemoryStorage "b" (h, MemoryStorage_new) in
  (∃ t, t ∈ tasks h ∧ id t = "b")
  ∧ result.1 = Ok ()
  ∧ tasks result.2.1 = filter (λ t, id t ≠ "b") (tasks h)
  ∧ length (tasks result.2.1) + 1 = length (tasks h).
Proof.
  intros h result.
  assert (∃ t, t ∈ tasks h ∧ id t = "b") as Hex.
  { exists (sample "b"). split; [|reflexivity]. right. left. }
  destruct (deleteTask_frame MemoryStorage "b" h MemoryStorage_new Hex)
    as (Hok & Hrem & _ & _ & Hone).
  split; [exact Hex|]. split; [exact Hok|]. split; [exact Hrem|].
  apply Hone. simpl. repeat constructor; set_solver.
Defined.

(** Two tasks that share an identifier are removed together. *)
Lemma deleteTask_removes_every_match :
  let h := holding [sample "a"; sample "a"] in
  let result := deleteTask MemoryStorage "a" (h, MemoryStorage_new) in
  (∃ t, t ∈ tasks h ∧ id t = "a")
  ∧ result.1 = Ok ()
  ∧ length (tasks h) = 2
  ∧ length (tasks result.2.1) = 0.
Proof.
  intros h result. split; [|by repeat split].
  exists (sample "a"). split; [left|reflexivity].
Qed.







(** A failed save inside [deleteTask] is not raised by [deleteTask], and
    the list stays as [deleteTask] had already set it. *)
Lemma deleteTask_failed_save :
  let storage := FileStorage (failingFileSystem accessDenied) FILE_PATH in
  let h := holding [sample "a"; sample "b"] in
  deleteTask storage "a" (h, ())
  = (Ok (), ({| tasks := [sample "b"]; isLoading := false;
                error := Some "Failed to save tasks" |}, ())).
Proof. reflexivity. Qed.

End HookFacts.

(** ** Status transitions *)

Module TransitionFacts.
Import Config.

Lemma isValidTransition_table from to :
  isValidTransition from to = true →
  (from, to) ∈ [("pending", "in-progress"); ("pending", "cancelled");
                ("in-progress", "review"); ("in-progress", "done");
                ("in-progress", "deferred"); ("review", "done");
                ("review", "in-progress"); ("done", "in-progress");
                ("deferred", "pending"); ("deferred", "cancelled");
                ("cancelled", "pending")].
Proof.
  unfold isValidTransition, getValidTransitions, Js.includes.
  unfold STATUS_CONFIG. simpl.
  repeat (destruct (decide (_ = from)) as [<-|?]; simpl;
          [intros Hin%bool_decide_eq_true; set_solver|]).
  discriminate.
Qed.

(** C10: no status may change to itself, no entry of [STATUS_CONFIG] lists
    its own key, and every status listed in a [canTransitionTo] is a key of
    [STATUS_CONFIG]. *)
Theorem status_transitions_irreflexive_closed :
  (∀ s, isValidTransition s s = false)
  ∧ Forall (λ entry, entry.1 ∉ default [] (canTransitionTo entry.2))
      STATUS_CONFIG
  ∧ Forall
      (λ entry,
         Forall (λ target, target ∈ Js.keys STATUS_CONFIG)
                (default [] (canTransitionTo entry.2)))
      STATUS_CONFIG
  ∧ (∀ from,
       Forall (λ to, to ∈ Js.keys STATUS_CONFIG) (getValidTransitions from)).
Proof.
  split; [|split; [|split]].
  - intros s. apply not_true_is_false. intros Hs.
    apply isValidTransition_table in Hs.
    repeat (apply elem_of_cons in Hs as [Hs|Hs]; [by simplify_eq|]).
    by apply elem_of_nil in Hs.
  - unfold STATUS_CONFIG. repeat constructor; simpl; set_solver.
  - unfold STATUS_CONFIG. repeat constructor; simpl; set_solver.
  - intros from. apply Forall_forall. intros to Hin.
    assert (isValidTransition from to = true) as Hs
      by by apply bool_decide_eq_true.
    apply isValidTransition_table in Hs. unfold Js.keys, STATUS_CONFIG. simpl.
    set_solver.
Qed.

End TransitionFacts.

(** ** Dependency cycles: what the search reports *)

Module DependencyFacts.
Import Validation Spec DependencySpec CycleFacts.

Lemma forEachM_prefix {A S} (I : list A → S → Prop) (f : A → S → option S) l s s' :
  Js.forEachM f l s = Some s' →
  I [] s →
  (∀ pre x s1 s2, I pre s1 → f x s1 = Some s2 → I (pre ++ [x]) s2) →
  I l s'.
Proof.
  intros Hrun H0 Hstep.
  cut (∀ pre s, I pre s → Js.forEachM f l s = Some s' → I (pre ++ l) s').
  { intros H. by apply (H [] s). }
  clear s Hrun H0. induction l as [|x l IH]; intros pre s Hs Hrun; simpl in Hrun.
  - simplify_eq. by rewrite app_nil_r.
  - destruct (f x s) as [s1|] eqn:Hf; [|done].
    rewrite (cons_middle x pre l), app_assoc. eapply IH; [|done].
    by eapply Hstep.
Qed.

Section Walks.
Context {A : Type} (R : relation A).

Lemma walk_cons_inv a l : walk R (a :: l) → walk R l.
Proof. destruct l as [|b l]; simpl; [done|]. by intros [_ ?]. Qed.

Lemma walk_drop n l : walk R l → walk R (drop n l).
Proof.
  revert l. induction n as [|n IH]; intros [|a l] Hw; simpl; try done.
  apply IH. by eapply walk_cons_inv.
Qed.

Lemma walk_snoc l a b :
  walk R (l ++ [a]) → R a b → walk R ((l ++ [a]) ++ [b]).
Proof.
  induction l as [|x l IH]; simpl; [done|].
  destruct l as [|y l]; simpl in *.
  - intros [? _] ?. done.
  - intros [? Hw] Hab. split; [done|]. by apply IH.
Qed.

Lemma walk_tc l a b : walk R (a :: l ++ [b]) → tc R a b.
Proof.
  revert a. induction l as [|x l IH]; intros a; simpl.
  - intros [? _]. by apply tc_once.
  - intros [Hax Hw]. eapply tc_l; [done|]. by apply IH.
Qed.
End Walks.

Lemma indexOf_Some x l :
  x ∈ l → ∃ i pre post,
    Js.indexOf x l = Some i ∧ l = pre ++ x :: post ∧ length pre = i.
Proof.
  induction l as [|y l IH]; intros Hin; [by apply elem_of_nil in Hin|].
  simpl. destruct (decide (y = x)) as [->|Hne].
  - by exists 0, [], l.
  - apply elem_of_cons in Hin as [->|Hin]; [done|].
    destruct (IH Hin) as (i & pre & post & -> & -> & <-).
    by exists (S (length pre)), (y :: pre), post.
Qed.

Section WithMap.
Context (taskMap : gmap string Task).

(** The number of reported cycles never shrinks. *)
Lemma dfs_cycles_length fuel : ∀ taskId path s s',
  dfs taskMap fuel taskId path s = Some s' →
  length (cycles s) ≤ length (cycles s').
Proof.
  induction fuel as [|fuel IH]; intros taskId path s s' Hrun; [done|].
  rewrite dfs_unfold in Hrun.
  destruct (decide (taskId ∈ recursionStack s)).
  { destruct (Js.indexOf taskId path); simplify_eq; simpl; [|done].
    rewrite length_app. lia. }
  destruct (decide (taskId ∈ visited s)); [by simplify_eq|].
  destruct (Js.forEachM _ _ _) as [s2|] eqn:Hloop; [|done].
  simplify_eq. simpl.
  eapply (forEachM_partial (λ s1, length (cycles s) ≤ length (cycles s1)));
    [exact Hloop | done |].
  intros depId s1 s3 _ Hs1 Hstep. simpl in Hstep.
  destruct (decide (is_Some (taskMap !! depId))); [|by simplify_eq].
  apply IH in Hstep. lia.
Qed.

(** Every reported cycle is a closed walk along dependencies. *)
Lemma dfs_cycles_walk fuel : ∀ taskId init s s',
  dfs taskMap fuel taskId (init ++ [taskId]) s = Some s' →
  walk (edge taskMap) (init ++ [taskId]) →
  (∀ x, x ∈ recursionStack s → x ∈ init) →
  Forall (closedWalk (edge taskMap)) (cycles s) →
  Forall (closedWalk (edge taskMap)) (cycles s').
Proof.
  induction fuel as [|fuel IH]; intros taskId init s s' Hrun Hwalk Hstack Hcyc;
    [done|].
  rewrite dfs_unfold in Hrun.
  destruct (decide (taskId ∈ recursionStack s)) as [Hin|Hnin].
  { apply Hstack in Hin.
    destruct (indexOf_Some taskId init Hin) as (i & pre & post & Hi & -> & <-).
    assert (Js.indexOf taskId ((pre ++ taskId :: post) ++ [taskId])
            = Some (length pre)) as Hidx.
    { clear -Hi. revert Hi. generalize (length pre) as i.
      induction (pre ++ taskId :: post) as [|y l IHl]; intros i; simpl; [done|].
      destruct (decide (y = taskId)); [done|].
      destruct (Js.indexOf taskId l) as [j|] eqn:Hj; simpl; [|done].
      intros [= <-]. by rewrite (IHl j). }
    rewrite Hidx in Hrun. simplify_eq. simpl.
    apply Forall_app. split; [done|]. apply Forall_singleton.
    unfold Js.slice. split; [by apply walk_drop|].
    exists taskId, post.
    rewrite <-(assoc_L (++)), drop_app_length. done. }
  destruct (decide (taskId ∈ visited s)); [by simplify_eq|].
  destruct (Js.forEachM _ _ _) as [s2|] eqn:Hloop; [|done].
  simplify_eq. simpl.
  cut (recursionStack s2 = recursionStack (enter taskId s)
       ∧ Forall (closedWalk (edge taskMap)) (cycles s2)); [by intros [_ ?]|].
  eapply (forEachM_partial
            (λ s1, recursionStack s1 = recursionStack (enter taskId s)
                   ∧ Forall (closedWalk (edge taskMap)) (cycles s1)));
    [exact Hloop | done |].
  intros depId s1 s3 Hdep [Hst Hc1] Hstep. simpl in Hstep.
  destruct (decide (is_Some (taskMap !! depId))); [|by simplify_eq].
  split; [rewrite <-Hst; by eapply dfs_stack|].
  eapply (IH depId (init ++ [taskId])); [exact Hstep | | | done].
  - apply walk_snoc; [done|]. by apply edge_depsOf.
  - intros x. rewrite Hst. simpl. rewrite elem_of_union, elem_of_singleton.
    intros [->|Hx]; [set_solver|]. apply elem_of_app. left. by apply Hstack.
Qed.

End WithMap.

Section Complete.
Context (taskMap : gmap string Task).

Lemma dfs_visited fuel : ∀ taskId path s s',
  dfs taskMap fuel taskId path s = Some s' → visited s ⊆ visited s'.
Proof.
  induction fuel as [|fuel IH]; intros taskId path s s' Hrun; [done|].
  rewrite dfs_unfold in Hrun.
  destruct (decide (taskId ∈ recursionStack s)).
  { destruct (Js.indexOf taskId path); by simplify_eq. }
  destruct (decide (taskId ∈ visited s)); [by simplify_eq|].
  destruct (Js.forEachM _ _ _) as [s2|] eqn:Hloop; [|done].
  simplify_eq. simpl.
  assert (visited (enter taskId s) ⊆ visited s2) as Hsub.
  { eapply (forEachM_partial (λ s1, visited (enter taskId s) ⊆ visited s1));
      [exact Hloop | done |].
    intros depId s1 s3 _ Hs1 Hstep. simpl in Hstep.
    destruct (decide (is_Some (taskMap !! depId))); [|by simplify_eq].
    apply IH in Hstep. by etrans. }
  simpl in Hsub. clear -Hsub. set_solver.
Qed.

Lemma depsOf_edge x y : edge taskMap x y → y ∈ depsOf taskMap x.
Proof.
  intros (task & deps & Hl & Hd & Hy). unfold depsOf. by rewrite Hl, Hd.
Qed.

(** A set closed under the followed edges holds everything its members
    reach. *)
Lemma closed_tc (F : gset string) u w :
  (∀ u v, u ∈ F → knownEdge taskMap u v → v ∈ F) →
  u ∈ F → tc (knownEdge taskMap) u w → w ∈ F.
Proof.
  intros Hclosed Hu Htc. induction Htc as [u w Huw|u v w Huv _ IH]; eauto.
Qed.

(** A call that reports no new cycle finishes its task and keeps the
    finished tasks closed and free of cycles. *)
Lemma dfs_complete fuel : ∀ taskId init s s',
  dfs taskMap fuel taskId (init ++ [taskId]) s = Some s' →
  length (cycles s') = length (cycles s) →
  finishedInv taskMap s →
  finishedInv taskMap s' ∧ taskId ∈ finished s'.
Proof.
  induction fuel as [|fuel IH]; intros taskId init s s' Hrun Hlen Hinv; [done|].
  rewrite dfs_unfold in Hrun.
  destruct (decide (taskId ∈ recursionStack s)) as [Hin|Hnin].
  { destruct (indexOf_Some taskId (init ++ [taskId])) as (i & _ & _ & Hi & _);
      [set_solver|].
    rewrite Hi in Hrun. simplify_eq. simpl in Hlen. rewrite length_app in Hlen.
    simpl in Hlen. lia. }
  destruct (decide (taskId ∈ visited s)) as [Hv|Hnv].
  { simplify_eq. split; [done|]. unfold finished. set_solver. }
  destruct (Js.forEachM _ _ _) as [s2|] eqn:Hloop; [|done].
  simplify_eq. simpl in Hlen.
  set (s1 := enter taskId s) in *.
  assert (finished s1 = finished s) as Hf1.
  { unfold finished, s1. simpl. clear -Hnv. set_solver. }
  pose proof (forEachM_prefix
    (λ pre si,
       recursionStack si = recursionStack s1
       ∧ visited s1 ⊆ visited si
       ∧ length (cycles s) ≤ length (cycles si)
       ∧ (length (cycles si) = length (cycles s) →
          finishedInv taskMap si
          ∧ ∀ d, d ∈ pre → known taskMap d → d ∈ finished si))
    _ _ _ _ Hloop) as Hend.
  destruct Hend as (Hst2 & Hv2 & _ & Hgood).
  - split; [done|]. split; [done|]. split; [done|]. intros _.
    split; [|by intros d ?%elem_of_nil].
    destruct Hinv as [Hc Ha]. unfold finishedInv. rewrite Hf1. done.
  - intros pre d si sj (Hst & Hvi & Hle & Hgood) Hstep. simpl in Hstep.
    destruct (decide (is_Some (taskMap !! d))) as [Hk|Hnk].
    + pose proof (dfs_stack _ _ _ _ _ _ Hstep) as Hstj.
      pose proof (dfs_visited _ _ _ _ _ Hstep) as Hvj.
      pose proof (dfs_cycles_length _ _ _ _ _ _ Hstep) as Hlej.
      split; [by rewrite Hstj|]. split; [by etrans|]. split; [lia|].
      intros Heq. destruct Hgood as [Hinvi Hpre]; [lia|].
      destruct (IH d (init ++ [taskId]) si sj Hstep) as [Hinvj Hdj];
        [lia|done|].
      split; [done|]. intros d' [Hd'| ->%list_elem_of_singleton]%elem_of_app Hk';
        [|done].
      specialize (Hpre d' Hd' Hk'). unfold finished in *. rewrite Hstj.
      clear -Hpre Hvj. set_solver.
    + simplify_eq. split; [done|]. split; [done|]. split; [done|].
      intros Heq. destruct (Hgood Heq) as [Hinvi Hpre]. split; [done|].
      intros d' [Hd'| ->%list_elem_of_singleton]%elem_of_app Hk'; [|done].
      by apply Hpre.
  - destruct (Hgood Hlen) as [[Hclosed Hacyc] Hdeps].
    assert (taskId ∈ visited s2) as Ht2 by (unfold s1 in Hv2; simpl in Hv2; set_solver).
    assert (finished (leave taskId s2) = finished s2 ∪ {[taskId]}) as Hfin.
    { unfold finished. simpl. rewrite Hst2. unfold s1. simpl.
      apply set_eq. intros x. rewrite !elem_of_union, !elem_of_difference,
        !elem_of_union, !elem_of_singleton.
      destruct (decide (x = taskId)) as [->|]; naive_solver. }
    assert (taskId ∉ finished s2) as Hnot.
    { unfold finished. rewrite Hst2. unfold s1. simpl. set_solver. }
    assert (∀ v, knownEdge taskMap taskId v → v ∈ finished s2) as Hsucc.
    { intros v [He Hk]. apply Hdeps; [|done]. by apply depsOf_edge. }
    split; [|rewrite Hfin; set_solver].
    split.
    + intros u v. rewrite Hfin, !elem_of_union, !elem_of_singleton.
      intros [Hu| ->] Huv; left; eauto.
    + intros u. rewrite Hfin, elem_of_union, elem_of_singleton.
      intros [Hu| ->]; [by apply Hacyc|].
      intros Htc. apply Hnot.
      inversion Htc as [? ? Hstep|? v ? Hstep Hrest]; subst.
      * by apply Hsucc.
      * eapply closed_tc; [exact Hclosed| |exact Hrest]. by apply Hsucc.
Qed.

End Complete.

Lemma findCircularDependencies_none tasks :
  findCircularDependencies tasks = Some [] →
  ∀ x, ¬ tc (knownEdge (taskMapOf tasks)) x x.
Proof.
  unfold findCircularDependencies. intros Hrun.
  destruct (Js.forEachM _ _ _) as [s'|] eqn:Hloop; [|done].
  simpl in Hrun. injection Hrun as Hnil.
  pose proof (forEachM_prefix
    (λ pre s,
       recursionStack s = ∅
       ∧ (length (cycles s) = 0 →
          finishedInv (taskMapOf tasks) s
          ∧ ∀ task, task ∈ pre → id task ∈ finished s))
    _ _ _ _ Hloop) as Hend.
  destruct Hend as (Hst & Hgood).
  - split; [done|]. intros _. split; [|by intros ? ?%elem_of_nil].
    split; intros u; unfold finished; simpl; set_solver.
  - intros pre task s1 s2 (Hst1 & Hgood) Hstep. cbv beta in Hstep.
    destruct (decide (id task ∈ visited s1)) as [Hv|Hnv].
    + simplify_eq. split; [done|]. intros Hlen.
      destruct (Hgood Hlen) as [Hinv Hpre]. split; [done|].
      intros t [Ht| ->%list_elem_of_singleton]%elem_of_app; [by apply Hpre|].
      unfold finished. rewrite Hst1. set_solver.
    + pose proof (dfs_stack _ _ _ _ _ _ Hstep) as Hst2.
      pose proof (dfs_visited _ _ _ _ _ _ Hstep) as Hv2.
      pose proof (dfs_cycles_length _ _ _ _ _ _ Hstep) as Hle.
      split; [by rewrite Hst2|]. intros Hlen.
      destruct Hgood as [Hinv Hpre]; [lia|].
      destruct (dfs_complete _ _ (id task) [] s1 s2 Hstep) as [Hinv2 Hid];
        [lia|done|].
      split; [done|].
      intros t [Ht| ->%list_elem_of_singleton]%elem_of_app; [|done].
      specialize (Hpre t Ht). unfold finished in *. rewrite Hst2.
      clear -Hpre Hv2. set_solver.
  - destruct Hgood as [[Hclosed Hacyc] Hall]; [by rewrite Hnil|].
    intros x Hx. apply (Hacyc x); [|done].
    assert (∃ y, knownEdge (taskMapOf tasks) x y) as (y & (task & deps & Hl & _) & _).
    { inversion Hx; subst; eauto. }
    apply taskMapOf_lookup in Hl as [Hin <-]. by apply Hall.
Qed.

Lemma foldl_insert_notin (tasks : list Task) (m : gmap string Task) k :
  k ∉ id <$> tasks →
  foldl (λ m task, <[id task := task]> m) m tasks !! k = m !! k.
Proof.
  revert m. induction tasks as [|t tasks IH]; intros m Hk; [done|].
  rewrite fmap_cons in Hk. apply not_elem_of_cons in Hk as [Hne Hk].
  simpl. rewrite IH by done. by rewrite lookup_insert_ne.
Qed.

Lemma taskMapOf_lookup_NoDup tasks task :
  NoDup (id <$> tasks) → task ∈ tasks →
  taskMapOf tasks !! id task = Some task.
Proof.
  unfold taskMapOf. generalize (∅ : gmap string Task).
  induction tasks as [|t tasks IH]; intros m Hnd Hin;
    [by apply elem_of_nil in Hin|].
  rewrite fmap_cons in Hnd. apply NoDup_cons in Hnd as [Hnot Hnd].
  apply elem_of_cons in Hin as [->|Hin]; simpl.
  - rewrite foldl_insert_notin by done. apply lookup_insert_eq.
  - by apply IH.
Qed.

Lemma dependsOn_known tasks x y : dependsOn tasks x y → known (taskMapOf tasks) x.
Proof.
  intros (task & deps & Hin & <- & _). apply known_taskMapOf.
  by apply list_elem_of_fmap_2.
Qed.

Lemma dependsOn_edge tasks x y :
  NoDup (id <$> tasks) → dependsOn tasks x y → edge (taskMapOf tasks) x y.
Proof.
  intros Hnd (task & deps & Hin & <- & Hd & Hy).
  exists task, deps. split; [by apply taskMapOf_lookup_NoDup|done].
Qed.

Lemma tc_dependsOn_knownEdge tasks x y :
  NoDup (id <$> tasks) →
  tc (dependsOn tasks) x y → (∃ z, dependsOn tasks y z) →
  tc (knownEdge (taskMapOf tasks)) x y.
Proof.
  intros Hnd Htc. induction Htc as [x y Hxy|x y z Hxy Hyz IH]; intros Hout.
  - apply tc_once. split; [by apply dependsOn_edge|].
    destruct Hout as [z Hz]. by eapply dependsOn_known.
  - eapply tc_l; [|by apply IH]. split; [by apply dependsOn_edge|].
    inversion Hyz; subst; by eapply dependsOn_known.
Qed.

(** For a list with distinct identifiers, an empty report means that no
    task reaches itself. *)
Lemma findCircularDependencies_nil_acyclic tasks :
  NoDup (id <$> tasks) →
  findCircularDependencies tasks = Some [] → acyclic tasks.
Proof.
  intros Hnd Hrun x Hx. apply (findCircularDependencies_none tasks Hrun x).
  apply tc_dependsOn_knownEdge; [done|done|].
  inversion Hx; subst; eauto.
Qed.

Lemma findCircularDependencies_walks tasks cycles :
  findCircularDependencies tasks = Some cycles →
  Forall (closedWalk (dependsOn tasks)) cycles.
Proof.
  unfold findCircularDependencies. intros Hrun.
  destruct (Js.forEachM _ _ _) as [s'|] eqn:Hloop; [|done].
  simpl in Hrun. simplify_eq.
  assert (recursionStack s' = ∅
          ∧ Forall (closedWalk (edge (taskMapOf tasks))) (cycles s')) as [_ Hc].
  { eapply (forEachM_partial
              (λ s, recursionStack s = ∅
                    ∧ Forall (closedWalk (edge (taskMapOf tasks))) (cycles s)));
      [exact Hloop | done |].
    intros task s1 s2 _ [Hst Hc] Hstep. cbv beta in Hstep.
    destruct (decide (id task ∈ visited s1)); [by simplify_eq|].
    split; [rewrite <-Hst; by eapply dfs_stack|].
    eapply (dfs_cycles_walk _ _ (id task) []); [exact Hstep|done| |done].
    intros x. rewrite Hst. by intros ?%not_elem_of_empty. }
  eapply Forall_impl; [exact Hc|]. intros c [Hw Hshape]. split; [|done].
  clear -Hw. induction c as [|a c IH]; [done|].
  destruct c as [|b c]; [done|]. destruct Hw as [Hab Hw].
  split; [by apply edge_dependsOn|]. by apply IH.
Qed.


(** *** wouldCreateCircularDependency *)

Lemma tc_added_edge {A} (R R' : relation A) a b x y :
  (∀ u v, R' u v → R u v ∨ (u = a ∧ v = b)) →
  tc R' x y → tc R x y ∨ (rtc R x a ∧ rtc R b y).
Proof.
  intros Hsplit Htc. induction Htc as [x y Hxy|x y z Hxy _ IH].
  - destruct (Hsplit _ _ Hxy) as [?|[-> ->]]; [left; by apply tc_once|].
    by right.
  - destruct (Hsplit _ _ Hxy) as [HR|[-> ->]].
    + destruct IH as [Htc|[Hya Hbz]].
      * left. by eapply tc_l.
      * right. split; [by eapply rtc_l|done].
    + right. split; [done|]. destruct IH as [Htc|[_ Hbz]]; [|done].
      by apply tc_rtc.
Qed.

Lemma withDependency_ids tasks a b :
  id <$> withDependency tasks a b = id <$> tasks.
Proof.
  unfold withDependency. rewrite <-list_fmap_compose. apply list_fmap_ext.
  intros _ task _. simpl. by destruct (decide (id task = a)).
Qed.

Lemma dependsOn_withDependency tasks a b x y :
  dependsOn (withDependency tasks a b) x y
  ↔ dependsOn tasks x y ∨ (x = a ∧ y = b ∧ a ∈ id <$> tasks).
Proof.
  unfold withDependency. split.
  - intros (task' & deps & Hin & <- & Hd & Hy).
    apply list_elem_of_fmap in Hin as (task & -> & Hin).
    destruct (decide (id task = a)) as [<-|Hne].
    + simpl in *. simplify_eq. apply elem_of_app in Hy as [Hy|Hy].
      * left. destruct (dependencies task) as [deps|] eqn:Hdeps;
          [|by apply elem_of_nil in Hy].
        by exists task, deps.
      * apply list_elem_of_singleton in Hy as ->. right.
        split; [done|]. split; [done|]. by apply list_elem_of_fmap_2.
    + left. by exists task, deps.
  - intros [(task & deps & Hin & <- & Hd & Hy)|(-> & -> & Hin)].
    + destruct (decide (id task = a)) as [Heq|Hne].
      * exists (addDependency b task), (deps ++ [b]).
        split; [|split; [done|split; [simpl; by rewrite Hd|set_solver]]].
        apply list_elem_of_fmap. exists task. by rewrite decide_True.
      * exists task, deps. split; [|done].
        apply list_elem_of_fmap. exists task. by rewrite decide_False.
    + apply list_elem_of_fmap in Hin as (task & -> & Hin).
      exists (addDependency b task), (default [] (dependencies task) ++ [b]).
      split; [|split; [done|split; [done|set_solver]]].
      apply list_elem_of_fmap. exists task. by rewrite decide_True.
Qed.

Lemma closedWalk_tc {A} (R : relation A) c :
  closedWalk R c → ∃ x, tc R x x.
Proof.
  intros [Hw (x & rest & ->)]. exists x. by eapply walk_tc.
Qed.

(** On an acyclic list with distinct identifiers, adding the dependency
    of [taskId] on [newDependencyId] is refused exactly when [taskId] is
    in the list and [newDependencyId] is [taskId] or depends on it. *)
(** X3: on an acyclic list with distinct identifiers,
    [wouldCreateCircularDependency] answers true exactly when [taskId] is
    an identifier of the list and [newDependencyId] already reaches [taskId]
    along zero or more dependencies. *)
Theorem wouldCreateCircularDependency_reachability tasks taskId newDependencyId :
  NoDup (id <$> tasks) →
  acyclic tasks →
  ∃ answer,
    wouldCreateCircularDependency tasks taskId newDependencyId = Some answer
    ∧ (answer = true
       ↔ taskId ∈ id <$> tasks
         ∧ rtc (dependsOn tasks) newDependencyId taskId).
Proof.
  intros Hnd Hac. unfold wouldCreateCircularDependency.
  fold (withDependency tasks taskId newDependencyId).
  set (modified := withDependency tasks taskId newDependencyId).
  destruct (findCircularDependencies_spec modified) as (cycles & Hrun & _ & _).
  rewrite Hrun. simpl. eexists. split; [done|].
  rewrite bool_decide_eq_true. split.
  - intros Hlen. destruct cycles as [|c cycles]; [simpl in Hlen; lia|].
    pose proof (findCircularDependencies_walks modified _ Hrun) as Hwalks.
    apply Forall_cons in Hwalks as [Hc _].
    apply closedWalk_tc in Hc as [x Hx].
    destruct (tc_added_edge (dependsOn tasks) (dependsOn modified)
                taskId newDependencyId x x) as [Hold|[Hxa Hbx]]; [|done| |].
    + intros u v Huv. apply dependsOn_withDependency in Huv.
      destruct Huv as [?|(-> & -> & _)]; [by left|by right].
    + by destruct (Hac x).
    + split; [|by etrans].
      destruct (decide (taskId ∈ id <$> tasks)) as [?|Hnot]; [done|].
      destruct (Hac x).
      eapply tc_congruence with (f := λ z, z); [|exact Hx].
      intros u v Huv. apply dependsOn_withDependency in Huv.
      destruct Huv as [?|(_ & _ & ?)]; done.
  - intros [Hin Hrtc].
    destruct cycles as [|c cycles]; [|simpl; lia].
    exfalso.
    apply (findCircularDependencies_nil_acyclic modified) in Hrun;
      [|unfold modified; by rewrite withDependency_ids].
    apply (Hrun taskId).
    eapply tc_rtc_r.
    + apply tc_once. apply dependsOn_withDependency. by right.
    + eapply rtc_subrel; [|exact Hrtc].
      intros u v Huv. apply dependsOn_withDependency. by left.
Qed.

Lemma wouldCreateCircularDependency_reachability_witness :
  NoDup (id <$> abc_chain) ∧ acyclic abc_chain
  ∧ ∃ answer,
      wouldCreateCircularDependency abc_chain "C" "A" = Some answer
      ∧ (answer = true
         ↔ "C" ∈ id <$> abc_chain ∧ rtc (dependsOn abc_chain) "A" "C").
Proof.
  assert (NoDup (id <$> abc_chain)) as Hnd
    by compute_done.
  split; [exact Hnd|]. split; [exact abc_chain_acyclic|].
  exact (wouldCreateCircularDependency_reachability abc_chain "C" "A" Hnd
           abc_chain_acyclic).
Defined.

(** X1: for a list with distinct identifiers, [findCircularDependencies]
    reports no cycle exactly when no task reaches itself along one or more
    dependencies. *)
Theorem no_cycle_reported_iff_acyclic tasks :
  NoDup (id <$> tasks) →
  findCircularDependencies tasks = Some [] ↔ acyclic tasks.
Proof.
  intros Hnd. split.
  - by apply findCircularDependencies_nil_acyclic.
  - apply findCircularDependencies_acyclic.
Qed.

Lemma no_cycle_reported_iff_acyclic_witness :
  NoDup (id <$> abc_chain)
  ∧ (findCircularDependencies abc_chain = Some [] ↔ acyclic abc_chain).
Proof.
  assert (NoDup (id <$> abc_chain)) as Hnd
    by compute_done.
  split; [exact Hnd|]. exact (no_cycle_reported_iff_acyclic abc_chain Hnd).
Defined.

(** X2: [findCircularDependencies] returns, and every cycle it reports is
    a walk along dependencies of the list that ends at the identifier it
    starts from. *)
Theorem reported_cycles_are_closed_walks tasks :
  ∃ cycles,
    findCircularDependencies tasks = Some cycles
    ∧ Forall (closedWalk (dependsOn tasks)) cycles.
Proof.
  destruct (findCircularDependencies_spec tasks) as (cycles & Hrun & _).
  exists cycles. split; [done|]. by apply findCircularDependencies_walks.
Qed.

End DependencyFacts.

(** ** Batch validation *)

Module BatchFacts.
Import Validation Spec DependencySpec BatchSpec CycleFacts DependencyFacts.

Section OrderedMap.
Context {A : Type}.

Lemma mapGet_mapSet (m : list (string * A)) k v k' :
  Js.mapGet k' (Js.mapSet k v m)
  = if decide (k = k') then Some v else Js.mapGet k' m.
Proof.
  induction m as [|[k0 v0] m IH]; simpl.
  - done.
  - destruct (decide (k0 = k)) as [->|Hne]; simpl.
    + destruct (decide (k = k')); done.
    + rewrite IH. destruct (decide (k0 = k')) as [->|]; [|done].
      by rewrite decide_False.
Qed.

Lemma mapSet_keys (m : list (string * A)) k v :
  (Js.mapSet k v m).*1 = if decide (k ∈ m.*1) then m.*1 else m.*1 ++ [k].
Proof.
  induction m as [|[k0 v0] m IH].
  - reflexivity.
  - cbn [Js.mapSet]. destruct (decide (k0 = k)) as [->|Hne].
    + rewrite !fmap_cons. cbn [fst].
      destruct (decide (k ∈ k :: m.*1)) as [|Hin]; [done|].
      destruct Hin. left.
    + rewrite !fmap_cons, IH. cbn [fst].
      destruct (decide (k ∈ m.*1)) as [Hin|Hnin].
      * rewrite decide_True; [done|]. by right.
      * rewrite decide_False; [done|]. intros [?|?]%elem_of_cons; done.
Qed.

Lemma mapSet_NoDup (m : list (string * A)) k v :
  NoDup m.*1 → NoDup (Js.mapSet k v m).*1.
Proof.
  intros Hnd. rewrite mapSet_keys. destruct (decide (k ∈ m.*1)); [done|].
  apply NoDup_app. split; [done|]. split; [|apply NoDup_singleton].
  intros x Hx ->%list_elem_of_singleton. done.
Qed.

Lemma mapGet_elem_of (m : list (string * A)) k v :
  NoDup m.*1 → (k, v) ∈ m ↔ Js.mapGet k m = Some v.
Proof.
  induction m as [|[k0 v0] m IH]; simpl; intros Hnd.
  - split; [by intros ?%elem_of_nil|done].
  - apply NoDup_cons in Hnd as [Hnot Hnd].
    destruct (decide (k0 = k)) as [->|Hne].
    + split.
      * intros [?|Hin]%elem_of_cons; [by simplify_eq|].
        destruct Hnot. by apply (list_elem_of_fmap_2 fst) in Hin.
      * intros [= ->]. left.
    + rewrite <-IH by done. split.
      * intros [?|?]%elem_of_cons; [by simplify_eq|done].
      * intros ?. by right.
Qed.
End OrderedMap.

Lemma countIds_spec tasks :
  NoDup (countIds tasks).*1
  ∧ ∀ x, default 0%Z (Js.mapGet x (countIds tasks)) = occurrences x tasks.
Proof.
  unfold countIds, occurrences.
  cut (∀ acc : list (string * Z),
         NoDup acc.*1 →
         let m := foldl
                    (λ idCounts task,
                       Js.mapSet (id task)
                         (default 0%Z (Js.mapGet (id task) idCounts) + 1)%Z
                         idCounts) acc tasks in
         NoDup m.*1
         ∧ ∀ x, default 0%Z (Js.mapGet x m)
                = (default 0%Z (Js.mapGet x acc)
                   + Z.of_nat (length (filter (λ task, id task = x) tasks)))%Z).
  { intros H. destruct (H [] (NoDup_nil_2)) as [Hnd Hcount].
    split; [done|]. intros x. rewrite Hcount. simpl. lia. }
  induction tasks as [|t tasks IH]; intros acc Hnd; simpl.
  - split; [done|]. intros x. lia.
  - destruct (IH (Js.mapSet (id t)
                    (default 0%Z (Js.mapGet (id t) acc) + 1)%Z acc))
      as [Hnd' Hcount]; [by apply mapSet_NoDup|].
    split; [done|]. intros x. rewrite Hcount, mapGet_mapSet, filter_cons.
    destruct (decide (id t = x)) as [->|Hne]; simpl; lia.
Qed.

Lemma countIds_positive tasks x c :
  (x, c) ∈ countIds tasks → (0 < c)%Z.
Proof.
  unfold countIds.
  cut (∀ acc : list (string * Z),
         (∀ x c, (x, c) ∈ acc → (0 < c)%Z) →
         (∀ x c, (x, c) ∈ acc → (0 <= default 0%Z (Js.mapGet x acc))%Z) →
         (x, c) ∈ foldl
                    (λ idCounts task,
                       Js.mapSet (id task)
                         (default 0%Z (Js.mapGet (id task) idCounts) + 1)%Z
                         idCounts) acc tasks → (0 < c)%Z).
  { intros H. apply H; by intros ? ? ?%elem_of_nil. }
  clear. revert x c. induction tasks as [|t tasks IH]; intros x c acc Hacc _;
    simpl; [by apply Hacc|].
  assert (∀ (m : list (string * Z)) k,
            (∀ x c, (x, c) ∈ m → (0 < c)%Z) →
            (0 <= default 0%Z (Js.mapGet k m))%Z) as Hget.
  { clear. intros m k Hm. induction m as [|[k0 v0] m IHm]; simpl; [done|].
    destruct (decide (k0 = k)); simpl.
    - assert (0 < v0)%Z by (eapply Hm; left). lia.
    - apply IHm. intros x c Hin. eapply Hm. by right. }
  assert (∀ (m : list (string * Z)) k v x c,
            (∀ x c, (x, c) ∈ m → (0 < c)%Z) → (0 < v)%Z →
            (x, c) ∈ Js.mapSet k v m → (0 < c)%Z) as Hset.
  { clear. intros m k v x c Hm Hv. induction m as [|[k0 v0] m IHm]; simpl.
    - intros [= -> ->]%list_elem_of_singleton. done.
    - destruct (decide (k0 = k)).
      + intros [[= -> ->]|Hin]%elem_of_cons; [done|]. eapply Hm. by right.
      + intros [[= -> ->]|Hin]%elem_of_cons; [eapply Hm; left|].
        apply IHm; [|done]. intros ? ? ?. eapply Hm. by right. }
  apply IH.
  - intros x' c' Hin. eapply Hset; [exact Hacc| |exact Hin].
    specialize (Hget acc (id t) Hacc). lia.
  - intros x' c' _. apply Hget. intros x'' c'' Hin.
    eapply Hset; [exact Hacc| |exact Hin].
    specialize (Hget acc (id t) Hacc). lia.
Qed.

Lemma occurrences_absent x tasks :
  x ∉ id <$> tasks → filter (λ task, id task = x) tasks = [].
Proof.
  induction tasks as [|t tasks IH]; intros Hnot; [done|].
  rewrite fmap_cons in Hnot. apply not_elem_of_cons in Hnot as [Hne Hnot].
  rewrite filter_cons. destruct (decide (id t = x)); [done|]. by apply IH.
Qed.

Lemma occurrences_NoDup tasks :
  NoDup (id <$> tasks) ↔ ∀ x, (occurrences x tasks <= 1)%Z.
Proof.
  unfold occurrences. induction tasks as [|t tasks IH].
  - split; [|constructor]. intros _ x. simpl. lia.
  - rewrite fmap_cons, NoDup_cons, IH. split.
    + intros [Hnot Hall] x. rewrite filter_cons.
      destruct (decide (id t = x)) as [<-|]; [|apply Hall].
      simpl. rewrite (occurrences_absent (id t) tasks Hnot). simpl. lia.
    + intros Hall. split.
      * intros Hin. specialize (Hall (id t)). rewrite filter_cons in Hall.
        rewrite decide_True in Hall by done. simpl in Hall.
        apply list_elem_of_fmap in Hin as (t' & Heq & Hin').
        assert (t' ∈ filter (λ task, id task = id t) tasks) as Hf
          by (apply list_elem_of_filter; done).
        destruct (filter _ tasks); [by apply elem_of_nil in Hf|simpl in Hall; lia].
      * intros x. specialize (Hall x). rewrite filter_cons in Hall.
        destruct (decide (id t = x)); simpl in Hall; lia.
Qed.

Section Results.
Context (V : Task → ValidationResult).

Lemma foldl_setProp_lookup tasks (m : gmap string ValidationResult) k r :
  foldl (λ results task, Js.setProp (id task) (V task) results) m tasks !! k
  = Some r →
  (∃ task, task ∈ tasks ∧ id task = k ∧ r = V task) ∨ m !! k = Some r.
Proof.
  revert m. induction tasks as [|t tasks IH]; intros m Hl; simpl in Hl;
    [by right|].
  destruct (IH _ Hl) as [(task & Hin & Hid & Hr)|Hm].
  - left. exists task. split; [by right|done].
  - unfold Js.setProp in Hm. destruct (decide (id t = "__proto__")); [by right|].
    destruct (decide (id t = k)) as [<-|Hne].
    + rewrite lookup_insert_eq in Hm. simplify_eq. left. exists t.
      split; [left|done].
    + rewrite lookup_insert_ne in Hm by done. by right.
Qed.

Lemma foldl_setProp_notin tasks (m : gmap string ValidationResult) k :
  k ∉ id <$> tasks →
  foldl (λ results task, Js.setProp (id task) (V task) results) m tasks !! k
  = m !! k.
Proof.
  revert m. induction tasks as [|t tasks IH]; intros m Hk; [done|].
  rewrite fmap_cons in Hk. apply not_elem_of_cons in Hk as [Hne Hk].
  simpl. rewrite IH by done. unfold Js.setProp.
  destruct (decide (id t = "__proto__")); [done|]. by rewrite lookup_insert_ne.
Qed.

Lemma foldl_setProp_NoDup tasks (m : gmap string ValidationResult) task :
  NoDup (id <$> tasks) → task ∈ tasks → id task ≠ "__proto__" →
  foldl (λ results task, Js.setProp (id task) (V task) results) m tasks
    !! id task = Some (V task).
Proof.
  revert m. induction tasks as [|t tasks IH]; intros m Hnd Hin Hproto;
    [by apply elem_of_nil in Hin|].
  rewrite fmap_cons in Hnd. apply NoDup_cons in Hnd as [Hnot Hnd].
  apply elem_of_cons in Hin as [->|Hin]; simpl.
  - rewrite foldl_setProp_notin by done. unfold Js.setProp.
    rewrite decide_False by done. apply lookup_insert_eq.
  - by apply IH.
Qed.
End Results.

Lemma duplicateIds_spec tasks x :
  x ∈ (List.filter (λ entry : string * Z, (1 <? entry.2)%Z) (countIds tasks)).*1
  ↔ (1 < occurrences x tasks)%Z.
Proof.
  destruct (countIds_spec tasks) as [Hnd Hcount]. rewrite <-Hcount. split.
  - intros ([k c] & -> & Hin)%list_elem_of_fmap. simpl.
    apply list_elem_of_In, filter_In in Hin as [Hin Hc].
    apply list_elem_of_In, (mapGet_elem_of _ _ _ Hnd) in Hin. rewrite Hin.
    simpl in *. by apply Z.ltb_lt.
  - intros Hc. destruct (Js.mapGet x (countIds tasks)) as [c|] eqn:Hget;
      [|simpl in Hc; lia].
    apply (mapGet_elem_of _ _ _ Hnd) in Hget.
    apply list_elem_of_fmap. exists (x, c). split; [done|].
    apply list_elem_of_In, filter_In. split; [by apply list_elem_of_In|].
    by apply Z.ltb_lt.
Qed.

Lemma filter_keys_NoDup {A} (f : string * A → bool) (m : list (string * A)) :
  NoDup m.*1 → NoDup (List.filter f m).*1.
Proof.
  induction m as [|e m IH]; simpl; [done|]. intros [Hnot Hnd]%NoDup_cons.
  destruct (f e); [|by apply IH]. rewrite fmap_cons. apply NoDup_cons.
  split; [|by apply IH]. intros (e' & Heq & Hin)%list_elem_of_fmap.
  apply Hnot. apply list_elem_of_fmap. exists e'. split; [done|].
  apply list_elem_of_In. apply list_elem_of_In, filter_In in Hin. tauto.
Qed.

Lemma duplicateIds_nil tasks :
  (List.filter (λ entry : string * Z, (1 <? entry.2)%Z) (countIds tasks)).*1 = []
  ↔ NoDup (id <$> tasks).
Proof.
  rewrite occurrences_NoDup. split.
  - intros Hnil x. destruct (Z.le_gt_cases (occurrences x tasks) 1) as [?|Hgt];
      [done|]. apply duplicateIds_spec in Hgt. rewrite Hnil in Hgt.
    by apply elem_of_nil in Hgt.
  - intros Hall.
    destruct (List.filter _ (countIds tasks)).*1 as [|x l] eqn:Hl; [done|].
    assert (x ∈ (List.filter (λ entry : string * Z, (1 <? entry.2)%Z)
                   (countIds tasks)).*1) as Hin by (rewrite Hl; left).
    apply duplicateIds_spec in Hin. specialize (Hall x). lia.
Qed.

(** What [validateTaskBatch] answers: the duplicated identifiers, each
    once, and the verdict. *)
Lemma validateTaskBatch_spec tasks options :
  ∃ r,
    validateTaskBatch tasks options = Some r
    ∧ NoDup (duplicateIds r)
    ∧ (∀ x, x ∈ duplicateIds r ↔ (1 < occurrences x tasks)%Z)
    ∧ (duplicateIds r = [] ↔ NoDup (id <$> tasks))
    ∧ ((∀ task, task ∈ tasks → id task ≠ "__proto__") →
       overallValid r = true
       ↔ NoDup (id <$> tasks)
         ∧ (∀ task, task ∈ tasks →
              isValid (validateTask task (setExistingTasks tasks options)) = true)
         ∧ (checkCircularDependencies options = Some false ∨ acyclic tasks)).
Proof.
  unfold validateTaskBatch.
  set (dups := List.filter (λ entry : string * Z, (1 <? entry.2)%Z) (countIds tasks)).
  set (V := λ task, validateTask task (setExistingTasks tasks options)).
  assert (∃ cycles,
            (if bool_decide (checkCircularDependencies options = Some false)
             then Some [] else findCircularDependencies tasks) = Some cycles
            ∧ (NoDup (id <$> tasks) →
               cycles = []
               ↔ (checkCircularDependencies options = Some false ∨ acyclic tasks)))
    as (cycles & -> & Hcycles).
  { case_bool_decide as Hoff.
    - exists []. split; [done|]. intros _. split; [by left|done].
    - destruct (findCircularDependencies_spec tasks) as (cycles & Hrun & _ & _).
      exists cycles. split; [done|]. intros Hnd. split.
      + intros ->. right. by apply findCircularDependencies_nil_acyclic.
      + intros [?|Hac]; [done|].
        apply findCircularDependencies_acyclic in Hac. by simplify_eq. }
  eexists. split; [done|]. cbn [duplicateIds overallValid].
  split; [apply filter_keys_NoDup, countIds_spec|].
  split; [apply duplicateIds_spec|]. split; [apply duplicateIds_nil|].
  intros Hproto. rewrite andb_true_iff, negb_true_iff, bool_decide_eq_false,
    bool_decide_eq_true, length_zero_iff_nil. split.
  - intros [Hnone Hglobal]. apply app_eq_nil in Hglobal as [Hd Hc].
    apply fmap_nil_inv in Hd. apply fmap_nil_inv in Hc.
    assert (NoDup (id <$> tasks)) as Hnd.
    { apply duplicateIds_nil. fold dups. by rewrite Hd. }
    split; [done|]. split; [|by apply Hcycles].
    intros task Hin. destruct (isValid _) eqn:Hv; [done|].
    destruct Hnone. exists (id task), (V task). split; [|done].
    apply foldl_setProp_NoDup; auto.
  - intros (Hnd & Hvalid & Hc). split.
    + intros (k & r & Hl & Hr). simpl in Hr.
      apply foldl_setProp_lookup in Hl as [(task & Hin & _ & ->)|Hl];
        [|by rewrite lookup_empty in Hl].
      unfold V in Hr. by rewrite Hvalid in Hr.
    + apply (Hcycles Hnd) in Hc as ->. apply duplicateIds_nil in Hnd.
      fold dups in Hnd. apply fmap_nil_inv in Hnd. by rewrite Hnd.
Qed.

(** X4: [validateTaskBatch] returns, and its [duplicateIds] are the
    identifiers that more than one task of the list carries, each listed
    once; the list is empty exactly when the identifiers are distinct. *)
Theorem batch_duplicate_ids tasks options :
  ∃ r,
    validateTaskBatch tasks options = Some r
    ∧ NoDup (duplicateIds r)
    ∧ (∀ x, x ∈ duplicateIds r ↔ (1 < occurrences x tasks)%Z)
    ∧ (duplicateIds r = [] ↔ NoDup (id <$> tasks)).
Proof.
  destruct (validateTaskBatch_spec tasks options)
    as (r & Hrun & Hnd & Hin & Hnil & _).
  by exists r.
Qed.

(** X5: when no identifier is "__proto__", the batch is valid overall
    exactly when the identifiers are distinct, every task is valid against
    the list, and the cycle check is switched off or no task reaches itself
    along dependencies. *)
Theorem batch_overall_valid tasks options :
  (∀ task, task ∈ tasks → id task ≠ "__proto__") →
  ∃ r,
    validateTaskBatch tasks options = Some r
    ∧ (overallValid r = true
       ↔ NoDup (id <$> tasks)
         ∧ (∀ task, task ∈ tasks →
              isValid (validateTask task (setExistingTasks tasks options)) = true)
         ∧ (checkCircularDependencies options = Some false ∨ acyclic tasks)).
Proof.
  intros Hproto.
  destruct (validateTaskBatch_spec tasks options)
    as (r & Hrun & _ & _ & _ & Hvalid).
  exists r. split; [done|]. by apply Hvalid.
Qed.

Lemma batch_overall_valid_witness :
  (∀ task, task ∈ abc_chain → id task ≠ "__proto__")
  ∧ ∃ r,
      validateTaskBatch abc_chain noOptions = Some r
      ∧ (overallValid r = true
         ↔ NoDup (id <$> abc_chain)
           ∧ (∀ task, task ∈ abc_chain →
                isValid (validateTask task (setExistingTasks abc_chain noOptions))
                = true)
           ∧ (checkCircularDependencies noOptions = Some false
              ∨ acyclic abc_chain)).
Proof.
  assert (∀ task, task ∈ abc_chain → id task ≠ "__proto__") as Hproto.
  { intros task Hin. unfold abc_chain in Hin.
    repeat (apply elem_of_cons in Hin as [->|Hin]); try discriminate.
    by apply elem_of_nil in Hin. }
  split; [exact Hproto|].
  exact (batch_overall_valid abc_chain noOptions Hproto).
Defined.

(** An identifier "__proto__" leaves no entry in [results]: the batch is
    reported valid although the task is not. *)
Lemma batch_proto_unreported :
  let task := mk "__proto__" [] in
  isValid (validateTask task (setExistingTasks [task] noOptions)) = false
  ∧ (overallValid <$> validateTaskBatch [task] noOptions) = Some true.
Proof. split; reflexivity. Qed.

End BatchFacts.

(** ** Trimming and decimal names *)

Module TextFacts.
Import TextSpec.

Lemma string_app_cons c (s1 s2 : string) :
  String c s1 +:+ s2 = String c (s1 +:+ s2).
Proof. reflexivity. Qed.

Lemma string_app_nil_r (s : string) : s +:+ "" = s.
Proof.
  induction s as [|c s IH]; [done|]. by rewrite string_app_cons, IH.
Qed.

Lemma string_app_assoc (s1 s2 s3 : string) :
  s1 +:+ (s2 +:+ s3) = (s1 +:+ s2) +:+ s3.
Proof.
  induction s1 as [|c s1 IH]; [done|]. by rewrite !string_app_cons, IH.
Qed.

Lemma rev_app_spec (s1 s2 : string) :
  String.rev_app s1 s2 = String.rev s1 +:+ s2.
Proof.
  unfold String.rev. revert s2. induction s1 as [|c s1 IH]; intros s2;
    [done|]. cbn [String.rev_app].
  by rewrite (IH (String c "")), IH, <-string_app_assoc.
Qed.

Lemma rev_cons c (s : string) :
  String.rev (String c s) = String.rev s +:+ String c "".
Proof. unfold String.rev at 1. cbn [String.rev_app]. apply rev_app_spec. Qed.

Lemma rev_app_distr (s1 s2 : string) :
  String.rev (s1 +:+ s2) = String.rev s2 +:+ String.rev s1.
Proof.
  induction s1 as [|c s1 IH].
  - change ("" +:+ s2) with s2. by rewrite string_app_nil_r.
  - by rewrite string_app_cons, !rev_cons, IH, string_app_assoc.
Qed.

Lemma rev_involutive (s : string) : String.rev (String.rev s) = s.
Proof.
  induction s as [|c s IH]; [done|].
  by rewrite rev_cons, rev_app_distr, IH.
Qed.

Lemma trimStart_noLeadingSpace s : noLeadingSpace (Js.trimStart s).
Proof.
  induction s as [|c s IH]; [done|]. cbn [Js.trimStart].
  by destruct (Js.isWhiteSpace c) eqn:Hc.
Qed.

Lemma trimStart_fixed s : noLeadingSpace s → Js.trimStart s = s.
Proof.
  destruct s as [|c s]; [done|]. cbn [noLeadingSpace Js.trimStart].
  by intros ->.
Qed.

Lemma trimStart_app a c b :
  Js.isWhiteSpace c = false →
  ∃ a', Js.trimStart (a +:+ String c b) = a' +:+ String c b.
Proof.
  intros Hc. induction a as [|x a IH].
  - exists "". change ("" +:+ String c b) with (String c b).
    cbn [Js.trimStart]. by rewrite Hc.
  - rewrite string_app_cons. cbn [Js.trimStart].
    destruct (Js.isWhiteSpace x); [done|]. by exists (String x a).
Qed.

Lemma trimEnd_noLeadingSpace s :
  noLeadingSpace s → noLeadingSpace (Js.trimEnd s).
Proof.
  destruct s as [|c s]; [done|]. cbn [noLeadingSpace]. intros Hc.
  unfold Js.trimEnd. rewrite rev_cons.
  destruct (trimStart_app (String.rev s) c "" Hc) as [a' ->].
  by rewrite rev_app_distr, rev_cons.
Qed.

Lemma trimEnd_fixed s : noLeadingSpace (String.rev s) → Js.trimEnd s = s.
Proof.
  intros Hs. unfold Js.trimEnd. by rewrite trimStart_fixed, rev_involutive.
Qed.

Lemma trim_noLeadingSpace s : noLeadingSpace (Js.trim s).
Proof. apply trimEnd_noLeadingSpace, trimStart_noLeadingSpace. Qed.

Lemma trim_noTrailingSpace s : noLeadingSpace (String.rev (Js.trim s)).
Proof.
  unfold Js.trim, Js.trimEnd. rewrite rev_involutive.
  apply trimStart_noLeadingSpace.
Qed.

Lemma trim_fixed s :
  noLeadingSpace s → noLeadingSpace (String.rev s) → Js.trim s = s.
Proof.
  intros H1 H2. unfold Js.trim. rewrite trimStart_fixed by done.
  by apply trimEnd_fixed.
Qed.

Lemma trim_idemp s : Js.trim (Js.trim s) = Js.trim s.
Proof. apply trim_fixed; [apply trim_noLeadingSpace|apply trim_noTrailingSpace]. Qed.

(** *** Decimal names *)

Lemma idPatternFrom_allDigits s :
  allDigits s = true → Js.idPatternFrom true s = true.
Proof.
  induction s as [|c s IH]; simpl; [done|].
  intros [-> Hs]%andb_true_iff. by apply IH.
Qed.

Lemma pretty_N_char_digit x : Js.isDigit (pretty_N_char x) = true.
Proof. unfold pretty_N_char. by repeat case_match. Qed.

Lemma pretty_N_go_pattern (x : N) : ∀ s,
  (0 < x)%N → allDigits s = true →
  Js.idPatternFrom false (pretty_N_go x s) = true.
Proof.
  induction (N.lt_wf_0 x) as [x _ IH]; intros s Hx Hs.
  rewrite pretty_N_go_step by done.
  assert (x < 10 ∨ 10 ≤ x)%N as [Hsmall|Hbig] by lia.
  - rewrite N.div_small by done. rewrite pretty_N_go_0.
    rewrite N.mod_small by done. simpl.
    assert (x = 1 ∨ x = 2 ∨ x = 3 ∨ x = 4 ∨ x = 5 ∨ x = 6
          ∨ x = 7 ∨ x = 8 ∨ x = 9)%N as Hcases by lia.
    destruct Hcases as [->|[->|[->|[->|[->|[->|[->|[->| ->]]]]]]]]; simpl;
      by apply idPatternFrom_allDigits.
  - apply IH.
    + by apply N.div_lt.
    + apply N.div_str_pos. lia.
    + simpl. by rewrite pretty_N_char_digit.
Qed.

Lemma toString_pattern (n : Z) :
  (1 ≤ n)%Z → Js.defaultIdPattern (Js.toString n) = true.
Proof.
  intros Hn. destruct n as [|p|p]; try lia.
  unfold Js.defaultIdPattern, Js.toString, pretty, pretty_Z, pretty,
    pretty_positive, pretty, pretty_N.
  rewrite decide_False by done. by apply pretty_N_go_pattern.
Qed.

End TextFacts.

(** ** generateTaskId *)

Module TaskIdFacts.
Import Validation Spec TextFacts IdFacts.

Lemma nextFreeId_least (ids : list string) fuel : ∀ k : nat,
  (∀ i, 1 ≤ i ≤ k → Js.toString (Z.of_nat i) ∈ ids) →
  length ids < fuel + k →
  ∃ n : nat,
    nextFreeId fuel ids (Z.of_nat (S k)) = Some (Z.of_nat n)
    ∧ k < n ≤ S (length ids)
    ∧ (Js.toString (Z.of_nat n) ∉ ids)
    ∧ ∀ i, 1 ≤ i < n → Js.toString (Z.of_nat i) ∈ ids.
Proof.
  induction fuel as [|fuel IH]; intros k Hall Hlen.
  - apply firstNames_bound in Hall. lia.
  - simpl. unfold Js.includes. case_bool_decide as Hin.
    + replace (Z.of_nat (S k) + 1)%Z with (Z.of_nat (S (S k))) by lia.
      destruct (IH (S k)) as (n & Hrun & Hn & Hfresh & Hbelow); [|lia|].
      { intros i Hi. destruct (decide (i = S k)) as [->|]; [done|].
        apply Hall. lia. }
      exists n. split; [done|]. split; [lia|done].
    + exists (S k). split; [done|]. apply firstNames_bound in Hall as Hk.
      split; [lia|]. split; [done|]. intros i Hi. apply Hall. lia.
Qed.

(** X6: [generateTaskId] returns the decimal name of the least positive
    integer whose name is no identifier of the list; that number is at
    most the number of tasks plus one, and its name passes
    [isValidTaskId]. *)
Theorem generateTaskId_least_unused (existingTasks : list Task) :
  ∃ n : nat,
    generateTaskId existingTasks = Some (Js.toString (Z.of_nat n))
    ∧ 1 ≤ n ≤ S (length existingTasks)
    ∧ (Js.toString (Z.of_nat n) ∉ id <$> existingTasks)
    ∧ (∀ i, 1 ≤ i < n → Js.toString (Z.of_nat i) ∈ id <$> existingTasks)
    ∧ isValidTaskId (Js.toString (Z.of_nat n)) = true.
Proof.
  unfold generateTaskId.
  set (ids := merge_sort String.le (id <$> existingTasks)).
  assert (ids ≡ₚ id <$> existingTasks) as Hperm by apply merge_sort_Permutation.
  destruct (nextFreeId_least ids (S (length existingTasks)) 0)
    as (n & Hrun & Hn & Hfresh & Hbelow).
  - intros i Hi. lia.
  - rewrite Hperm, length_fmap. lia.
  - change (Z.of_nat 1) with 1%Z in Hrun. rewrite Hrun. simpl.
    rewrite Hperm, length_fmap in Hn. exists n. split; [done|].
    split; [lia|]. split; [by rewrite <-Hperm|].
    split; [intros i Hi; rewrite <-Hperm; by apply Hbelow|].
    apply toString_pattern. lia.
Qed.

End TaskIdFacts.

(** ** sanitizeTask, getValidTasks and getInvalidTasks *)

Module SanitizeFacts.
Import Validation Spec TextSpec TextFacts.

Lemma uniqFrom_elem_of seen l x :
  x ∈ Js.uniqFrom seen l ↔ x ∈ l ∧ x ∉ seen.
Proof.
  revert seen. induction l as [|y l IH]; intros seen; simpl.
  - set_solver.
  - destruct (decide (y ∈ seen)) as [Hin|Hnot].
    + rewrite IH. set_solver.
    + rewrite elem_of_cons, IH. destruct (decide (x = y)); set_solver.
Qed.

Lemma uniqFrom_NoDup seen l : NoDup (Js.uniqFrom seen l).
Proof.
  revert seen. induction l as [|y l IH]; intros seen; simpl; [constructor|].
  destruct (decide (y ∈ seen)); [apply IH|]. apply NoDup_cons. split; [|apply IH].
  rewrite uniqFrom_elem_of. set_solver.
Qed.

Lemma uniqFrom_fixed seen l :
  NoDup l → (∀ x, x ∈ l → x ∉ seen) → Js.uniqFrom seen l = l.
Proof.
  revert seen. induction l as [|y l IH]; intros seen Hnd Hseen; simpl; [done|].
  apply NoDup_cons in Hnd as [Hy Hnd].
  rewrite decide_False by (apply Hseen; left). f_equal. apply IH; [done|].
  intros x Hx [->|Hin]%elem_of_cons; [done|]. apply (Hseen x); [by right|done].
Qed.

Lemma filter_fixed {A} (f : A → bool) l :
  (∀ x, x ∈ l → f x = true) → List.filter f l = l.
Proof.
  induction l as [|y l IH]; intros Hall; simpl; [done|].
  rewrite (Hall y) by left. f_equal. apply IH. intros x Hx. apply Hall. by right.
Qed.

Lemma sanitized_dependencies deps :
  let deps' := Js.uniq (List.filter (λ d, negb (bool_decide (d = ""))) deps) in
  NoDup deps' ∧ ∀ d, d ∈ deps' ↔ d ∈ deps ∧ d ≠ "".
Proof.
  intros deps'. split; [apply uniqFrom_NoDup|]. intros d. unfold deps', Js.uniq.
  rewrite uniqFrom_elem_of, !list_elem_of_In, filter_In, negb_true_iff,
    bool_decide_eq_false, <-!list_elem_of_In. set_solver.
Qed.

Lemma sanitized_dependencies_fixed deps :
  NoDup deps → "" ∉ deps →
  Js.uniq (List.filter (λ d, negb (bool_decide (d = ""))) deps) = deps.
Proof.
  intros Hnd Hne. rewrite filter_fixed.
  - apply uniqFrom_fixed; [done|]. intros x _. apply not_elem_of_nil.
  - intros x Hx. apply negb_true_iff, bool_decide_eq_false. by intros ->.
Qed.

(** X7: [sanitizeTask] changes nothing in a task it has already
    sanitised. *)
Theorem sanitizeTask_idempotent task :
  sanitizeTask (sanitizeTask task) = sanitizeTask task.
Proof.
  destruct task as [i t d s p deps c sts]. unfold sanitizeTask. simpl.
  f_equal.
  - apply trim_idemp.
  - destruct d as [d|]; [|done]. simpl. by rewrite trim_idemp.
  - destruct deps as [deps|]; [|done]. simpl. f_equal.
    destruct (sanitized_dependencies deps) as [Hnd Hin].
    apply sanitized_dependencies_fixed; [done|]. rewrite Hin. tauto.
Qed.

Lemma titleWarnings_sanitizeTask task : titleWarnings (sanitizeTask task) = [].
Proof.
  unfold titleWarnings. simpl. destruct (decide (Js.trim (title task) = "")); [done|].
  by rewrite decide_True by apply trim_idemp.
Qed.

Lemma dependencyWarnings_sanitizeTask task :
  dependencyWarnings (sanitizeTask task) = [].
Proof.
  unfold dependencyWarnings. simpl. destruct (dependencies task) as [deps|];
    [|done]. simpl. rewrite decide_True; [done|].
  destruct (sanitized_dependencies deps) as [Hnd _].
  by apply size_list_to_set.
Qed.


(** X8: under any options, [validateTask] gives a sanitised task neither
    the warning about white space around the title nor the warning about
    duplicate dependencies. *)
Theorem sanitizeTask_clears_warnings task options :
  ("Task title has leading or trailing whitespace"
     ∉ warnings (validateTask (sanitizeTask task) options))
  ∧ ("Task has duplicate dependencies"
       ∉ warnings (validateTask (sanitizeTask task) options)).
Proof.
  unfold validateTask. cbn [warnings].
  rewrite titleWarnings_sanitizeTask, dependencyWarnings_sanitizeTask.
  cbn [app]. unfold subtaskWarnings, workflowWarnings.
  split; rewrite !not_elem_of_app; repeat split;
    repeat case_match; try apply not_elem_of_nil;
    (apply not_elem_of_cons; split; [|apply not_elem_of_nil]);
    rewrite ?string_app_cons; discriminate.
Qed.

Lemma filter_split {A} (f : A → bool) (l : list A) :
  l ≡ₚ List.filter f l ++ List.filter (λ x, negb (f x)) l.
Proof.
  induction l as [|x l IH]; simpl; [done|]. destruct (f x); simpl.
  - by constructor.
  - rewrite <-Permutation_middle. by constructor.
Qed.

Lemma getInvalidTasks_tasks tasks options :
  (getInvalidTasks tasks options).*1
  = List.filter (λ task, negb (isValid (validateTask task options))) tasks.
Proof.
  unfold getInvalidTasks. induction tasks as [|task tasks IH]; [done|].
  rewrite fmap_cons. cbn [List.filter snd].
  destruct (isValid (validateTask task options)); cbn [negb]; [done|].
  by rewrite fmap_cons, IH.
Qed.

(** X9: [getValidTasks] and [getInvalidTasks] split the list: together
    they hold the tasks of the list, no task of the first is in the second,
    and each entry of the second pairs a task of the list with its own
    validation result, which has an error. *)
Theorem valid_and_invalid_tasks_split tasks options :
  tasks ≡ₚ getValidTasks tasks options ++ (getInvalidTasks tasks options).*1
  ∧ (∀ task, task ∈ getValidTasks tasks options →
       task ∉ (getInvalidTasks tasks options).*1)
  ∧ (∀ task result, (task, result) ∈ getInvalidTasks tasks options →
       task ∈ tasks ∧ result = validateTask task options
       ∧ errors result ≠ []).
Proof.
  rewrite getInvalidTasks_tasks. unfold getValidTasks. split; [apply filter_split|].
  split.
  - intros task [_ Hv]%list_elem_of_In%filter_In
      [_ Hi]%list_elem_of_In%filter_In.
    by rewrite Hv in Hi.
  - intros task result [Hin Hi]%list_elem_of_In%filter_In.
    apply list_elem_of_In, list_elem_of_fmap in Hin as (task' & [= -> ->] & Hin).
    split; [done|]. split; [done|]. simpl in Hi.
    apply negb_true_iff in Hi. unfold validateTask in *. cbn [isValid errors] in *.
    apply bool_decide_eq_false in Hi. intros Hnil. apply Hi. by rewrite Hnil.
Qed.

End SanitizeFacts.

(** ** parseInt on decimal names *)

Module NumberFacts.
Import TextSpec TextFacts.

Lemma digitValue_pretty_N_char (m : N) :
  (m < 10)%N → Js.digitValue 10 (pretty_N_char m) = Some (Z.of_N m).
Proof.
  intros Hm.
  assert (m = 0 ∨ m = 1 ∨ m = 2 ∨ m = 3 ∨ m = 4 ∨ m = 5 ∨ m = 6
          ∨ m = 7 ∨ m = 8 ∨ m = 9)%N as Hcases by lia.
  destruct Hcases as [->|[->|[->|[->|[->|[->|[->|[->|[->| ->]]]]]]]]];
    reflexivity.
Qed.

(** Reading back the digits that [pretty_N_go] writes in front of [s]. *)
Lemma parseDigits_pretty_N_go (x : N) :
  (0 < x)%N →
  ∃ k : Z, (0 ≤ k)%Z ∧ ∀ s acc,
    Js.parseDigits 10 acc (pretty_N_go x s)
    = Js.parseDigits 10 (Some (default 0 acc * 10 ^ k + Z.of_N x)%Z) s.
Proof.
  induction (N.lt_wf_0 x) as [x _ IH]; intros Hx.
  assert (x < 10 ∨ 10 ≤ x)%N as [Hsmall|Hbig] by lia.
  - exists 1%Z. split; [lia|]. intros s acc.
    rewrite pretty_N_go_step by done.
    rewrite N.div_small, pretty_N_go_0, N.mod_small by done.
    cbn [Js.parseDigits]. rewrite digitValue_pretty_N_char by done.
    do 2 f_equal; lia.
  - destruct (IH (x `div` 10)%N) as (k & Hk & Hread).
    + by apply N.div_lt.
    + apply N.div_str_pos. lia.
    + exists (k + 1)%Z. split; [lia|]. intros s acc.
      rewrite pretty_N_go_step, Hread by done.
      cbn [Js.parseDigits].
      rewrite digitValue_pretty_N_char by (apply N.mod_lt; lia).
      f_equal. f_equal. cbn [default]. rewrite Z.pow_add_r by lia.
      pose proof (N.div_mod x 10 ltac:(lia)) as Hdm.
      assert (Z.of_N x = 10 * Z.of_N (x `div` 10) + Z.of_N (x `mod` 10))%Z
        as -> by lia.
      rewrite Z.pow_1_r. unfold Datatypes.id. ring.
Qed.

Lemma pretty_N_go_head (x : N) : ∀ s,
  (0 < x)%N →
  ∃ c rest, pretty_N_go x s = String c rest ∧ Js.isDigit1to9 c = true.
Proof.
  induction (N.lt_wf_0 x) as [x _ IH]; intros s Hx.
  rewrite pretty_N_go_step by done.
  assert (x < 10 ∨ 10 ≤ x)%N as [Hsmall|Hbig] by lia.
  - rewrite N.div_small, pretty_N_go_0, N.mod_small by done.
    eexists _, _. split; [done|].
    assert (x = 1 ∨ x = 2 ∨ x = 3 ∨ x = 4 ∨ x = 5 ∨ x = 6
          ∨ x = 7 ∨ x = 8 ∨ x = 9)%N as Hcases by lia.
    by destruct Hcases as [->|[->|[->|[->|[->|[->|[->|[->| ->]]]]]]]].
  - apply IH; [by apply N.div_lt|]. apply N.div_str_pos. lia.
Qed.

Lemma parseInt_digit1to9 c rest :
  Js.isDigit1to9 c = true →
  Js.parseInt (String c rest) = Js.parseDigits 10 None (String c rest).
Proof.
  intros Hc. unfold Js.parseInt.
  destruct c as [[] [] [] [] [] [] [] []]; try discriminate Hc; reflexivity.
Qed.

(** [parseInt] reads the decimal name of a positive integer back. *)
Lemma parseInt_toString (n : Z) :
  (1 ≤ n)%Z → Js.parseInt (Js.toString n) = Some n.
Proof.
  intros Hn. destruct n as [|p|p]; try lia.
  unfold Js.toString, pretty, pretty_Z, pretty, pretty_positive, pretty,
    pretty_N.
  rewrite decide_False by done.
  destruct (pretty_N_go_head (N.pos p) "") as (c & rest & Heq & Hc); [lia|].
  rewrite Heq, parseInt_digit1to9, <-Heq by done.
  destruct (parseDigits_pretty_N_go (N.pos p)) as (k & _ & ->); [lia|].
  cbn [Js.parseDigits default]. f_equal.
Qed.

End NumberFacts.

(** ** generateSequentialId *)

Module SequentialFacts.
Import Types Helpers Spec IdSpec SortFacts NumberFacts.

Lemma sortInsert_ext {A} (cmp cmp' : A → A → Z) x l :
  (∀ y, y ∈ l → cmp x y = cmp' x y) →
  Js.sortInsert cmp x l = Js.sortInsert cmp' x l.
Proof.
  induction l as [|y l IH]; intros Hagree; simpl; [done|].
  rewrite <-(Hagree y) by left.
  rewrite IH by (intros z Hz; apply Hagree; by right). done.
Qed.

(** Only the comparisons between elements of the list matter. *)
Lemma sort_ext {A} (cmp cmp' : A → A → Z) l :
  (∀ x y, x ∈ l → y ∈ l → cmp x y = cmp' x y) →
  Js.sort cmp l = Js.sort cmp' l.
Proof.
  induction l as [|x l IH]; intros Hagree; simpl; [done|].
  fold (Js.sort cmp l). fold (Js.sort cmp' l).
  rewrite IH by (intros y z Hy Hz; apply Hagree; by right).
  apply sortInsert_ext. intros y Hy. rewrite sort_Permutation in Hy.
  apply Hagree; [left|by right].
Qed.

Lemma filter_isNaN {A} (f : A → option Z) (l : list A) :
  List.filter (λ n, negb (Js.isNaN n)) (f <$> l) = Some <$> omap f l.
Proof.
  induction l as [|x l IH]; [done|]. rewrite fmap_cons. simpl.
  destruct (f x) as [n|]; simpl; by rewrite IH.
Qed.

Lemma sequentialIds_sorted tasks :
  sequentialIds tasks ≡ₚ Some <$> numericIds tasks
  ∧ StronglySorted (rankLe (default 0%Z)) (sequentialIds tasks).
Proof.
  unfold sequentialIds. rewrite filter_isNaN. fold (numericIds tasks).
  rewrite (sort_ext _ (λ a b, default 0 a - default 0 b)%Z).
  - destruct (sort_by_weight_ascending (default 0%Z)
               (λ a b : option Z, default 0 a - default 0 b)%Z
               (Some <$> numericIds tasks)) as (Hperm & Hsorted & _); [done|].
    done.
  - by intros x y (a & -> & _)%list_elem_of_fmap (b & -> & _)%list_elem_of_fmap.
Qed.

(** The loop stops at the first gap of a strictly increasing list. *)
Lemma nextSequentialId_spec (l : list (option Z)) : ∀ k : Z,
  StronglySorted (rankLe (default 0%Z)) l → NoDup l →
  (∀ o, o ∈ l → ∃ n, o = Some n ∧ (k ≤ n)%Z) →
  let n := nextSequentialId k l in
  (k ≤ n)%Z ∧ (Some n ∉ l) ∧ ∀ i, (k ≤ i < n)%Z → Some i ∈ l.
Proof.
  induction l as [|o l IH]; intros k Hsorted Hnd Hall; simpl.
  - split; [lia|]. split; [apply not_elem_of_nil|]. intros i Hi. lia.
  - apply StronglySorted_inv in Hsorted as [Hsorted Hhead].
    apply NoDup_cons in Hnd as [Hnot Hnd].
    destruct (Hall o) as (x & -> & Hx); [left|].
    assert (∀ o', o' ∈ l → ∃ m, o' = Some m ∧ (x + 1 ≤ m)%Z) as Hrest.
    { intros o' Ho'. destruct (Hall o') as (m & -> & Hm); [by right|].
      exists m. split; [done|]. rewrite Forall_forall in Hhead.
      specialize (Hhead _ Ho'). unfold rankLe in Hhead. simpl in Hhead.
      destruct (decide (m = x)) as [->|]; [done|]. lia. }
    destruct (decide (Some x = Some k)) as [[= ->]|Hne].
    + destruct (IH (k + 1)%Z Hsorted Hnd Hrest) as (Hle & Hfresh & Hbelow).
      split; [lia|]. split.
      * intros [[= Heq]|Hin]%elem_of_cons; [lia|done].
      * intros i Hi. destruct (decide (i = k)) as [->|]; [left|].
        right. apply Hbelow. lia.
    + split; [lia|]. split; [|intros i Hi; lia].
      intros [[= Heq]|Hin]%elem_of_cons; [by subst|].
      destruct (Hrest _ Hin) as (m & [= <-] & Hm).
      assert (x ≠ k) by congruence. lia.
Qed.

Lemma elem_of_numericIds tasks n :
  n ∈ numericIds tasks ↔ ∃ task, task ∈ tasks ∧ Js.parseInt (id task) = Some n.
Proof. unfold numericIds. rewrite list_elem_of_omap. naive_solver. Qed.

(** X10: when the numbers that [parseInt] reads from the identifiers are
    positive and pairwise different, [generateSequentialId] returns the
    decimal name of the least positive integer that is none of them, and
    that name is no identifier of the list. *)
Theorem generateSequentialId_first_gap tasks :
  NoDup (numericIds tasks) → (∀ n, n ∈ numericIds tasks → (1 ≤ n)%Z) →
  ∃ n, generateSequentialId tasks = Js.toString n
       ∧ (1 ≤ n)%Z
       ∧ (n ∉ numericIds tasks)
       ∧ (∀ i, (1 ≤ i < n)%Z → i ∈ numericIds tasks)
       ∧ (Js.toString n ∉ id <$> tasks).
Proof.
  intros Hnd Hpos. destruct (sequentialIds_sorted tasks) as [Hperm Hsorted].
  destruct (nextSequentialId_spec (sequentialIds tasks) 1 Hsorted)
    as (Hle & Hfresh & Hbelow).
  - rewrite Hperm. apply NoDup_fmap_2; [|done]. by intros ?? [=].
  - intros o. rewrite Hperm. intros (n & -> & Hn)%list_elem_of_fmap. eauto.
  - assert (generateSequentialId tasks
            = Js.toString (nextSequentialId 1 (sequentialIds tasks))) as Hrun
      by done.
    revert Hrun Hle Hfresh Hbelow.
    generalize (nextSequentialId 1 (sequentialIds tasks)).
    intros n Hrun Hle Hfresh Hbelow. exists n. split; [done|].
    split; [done|]. rewrite Hperm in Hfresh.
    assert (n ∉ numericIds tasks) as Hn.
    { intros Hin. apply Hfresh. by apply list_elem_of_fmap_2. }
    split; [done|]. split.
    + intros i Hi. specialize (Hbelow i Hi). rewrite Hperm in Hbelow.
      by apply list_elem_of_fmap in Hbelow as (? & [= <-] & ?).
    + intros (task & Heq & Hin)%list_elem_of_fmap. apply Hn.
      apply elem_of_numericIds. exists task. split; [done|].
      rewrite <-Heq. by apply parseInt_toString.
Qed.

Lemma generateSequentialId_first_gap_witness :
  let tasks := [numbered "2"; numbered "1"; numbered "4"; numbered "draft"] in
  NoDup (numericIds tasks) ∧ (∀ n, n ∈ numericIds tasks → (1 ≤ n)%Z)
  ∧ ∃ n, generateSequentialId tasks = Js.toString n
         ∧ (1 ≤ n)%Z
         ∧ (n ∉ numericIds tasks)
         ∧ (∀ i, (1 ≤ i < n)%Z → i ∈ numericIds tasks)
         ∧ (Js.toString n ∉ id <$> tasks).
Proof.
  intros tasks.
  assert (NoDup (numericIds tasks)) as Hnd by compute_done.
  assert (∀ n, n ∈ numericIds tasks → (1 ≤ n)%Z) as Hpos.
  { intros n Hn. change (numericIds tasks) with [2; 1; 4]%Z in Hn.
    repeat (apply elem_of_cons in Hn as [->|Hn]); try lia.
    by apply elem_of_nil in Hn. }
  split; [exact Hnd|]. split; [exact Hpos|].
  exact (generateSequentialId_first_gap tasks Hnd Hpos).
Defined.

(** Two identifiers that read as the same number stop the count early:
    the result can be an identifier of the list. *)
Lemma generateSequentialId_repeated_number :
  generateSequentialId [numbered "1"; numbered "01"; numbered "2"] = "2".
Proof. reflexivity. Qed.

End SequentialFacts.

(** ** Formatting *)

Module FormatFacts.
Import Types Helpers Spec TextSpec HelperSpec TextFacts.

Lemma length_app (s1 s2 : string) :
  String.length (s1 +:+ s2) = String.length s1 + String.length s2.
Proof.
  induction s1 as [|c s1 IH]; [done|].
  rewrite string_app_cons. simpl. by rewrite IH.
Qed.





(** Below three characters the limit is not kept: the three dots alone
    are longer. *)
Lemma format_short_limit :
  formatTaskTitle "Write the quarterly report" (Some 2%Z) = "...".
Proof. reflexivity. Qed.

End FormatFacts.

(** ** Filtering and searching *)

Module FilterFacts.
Import Types Helpers Spec TextSpec HelperSpec TextFacts.

Lemma rev_empty s : String.rev s = "" → s = "".
Proof. intros Hs. by rewrite <-(rev_involutive s), Hs. Qed.

Lemma trimStart_empty s : Js.trimStart s = "" → onlyWhiteSpace s = true.
Proof.
  induction s as [|c s IH]; [done|]. cbn [Js.trimStart onlyWhiteSpace].
  destruct (Js.isWhiteSpace c); [|done]. exact IH.
Qed.

Lemma trimEnd_empty s : noLeadingSpace s → Js.trimEnd s = "" → s = "".
Proof.
  destruct s as [|c s]; [done|]. cbn [noLeadingSpace]. intros Hc Hs.
  unfold Js.trimEnd in Hs. apply rev_empty in Hs. rewrite rev_cons in Hs.
  destruct (trimStart_app (String.rev s) c "" Hc) as [a' Ha]. rewrite Ha in Hs.
  by destruct a'.
Qed.

Lemma trim_empty_iff s : Js.trim s = "" ↔ onlyWhiteSpace s = true.
Proof.
  split.
  - intros Hs. apply trimStart_empty, trimEnd_empty; [|done].
    apply trimStart_noLeadingSpace.
  - intros Hs. unfold Js.trim.
    by rewrite (ValidateFacts.trimStart_onlyWhiteSpace s Hs).
Qed.

Lemma isWhiteSpace_lowerChar c :
  Js.isWhiteSpace (Js.lowerChar c) = Js.isWhiteSpace c.
Proof. by destruct c as [[] [] [] [] [] [] [] []]. Qed.

Lemma onlyWhiteSpace_toLowerCase s :
  onlyWhiteSpace (Js.toLowerCase s) = onlyWhiteSpace s.
Proof.
  induction s as [|c s IH]; [done|]. cbn [Js.toLowerCase onlyWhiteSpace].
  by rewrite isWhiteSpace_lowerChar, IH.
Qed.

(** X13: two queries that differ only in the case of their letters give
    the same result in [searchTasks]. *)
Theorem searchTasks_ignores_case tasks (query1 query2 : string) :
  Js.toLowerCase query1 = Js.toLowerCase query2 →
  searchTasks tasks query1 = searchTasks tasks query2.
Proof.
  intros Hq. unfold searchTasks. rewrite Hq.
  assert (Js.trim query1 = "" ↔ Js.trim query2 = "") as Hblank.
  { rewrite !trim_empty_iff, <-(onlyWhiteSpace_toLowerCase query1),
      <-(onlyWhiteSpace_toLowerCase query2), Hq. done. }
  destruct (decide (Js.trim query1 = "")), (decide (Js.trim query2 = ""));
    tauto.
Qed.

Lemma filter_filter {A} (f g : A → bool) (l : list A) :
  List.filter f (List.filter g l) = List.filter (λ x, g x && f x) l.
Proof.
  induction l as [|x l IH]; [done|]. simpl.
  destruct (g x); simpl; [destruct (f x)|]; by rewrite IH.
Qed.

Lemma filter_true {A} (l : list A) : List.filter (λ _, true) l = l.
Proof. induction l as [|x l IH]; [done|]. simpl. by rewrite IH. Qed.

Lemma searchTasks_filter tasks search :
  search = "" ∨ Js.trim search ≠ "" →
  searchTasks tasks search
  = List.filter
      (λ task,
         if decide (search = "") then true
         else Js.stringIncludes (searchableText task) (Js.toLowerCase search))
      tasks.
Proof.
  intros [->|Hsearch].
  - by rewrite filter_true.
  - unfold searchTasks. rewrite decide_False by done.
    apply filter_ext. intros task. rewrite decide_False; [done|]. by intros ->.
Qed.

(** X12: when the search text is empty or has a character that is no
    white space, [filterTasks] gives what [getTasksByStatus],
    [getTasksByPriority] and [searchTasks] give when applied in turn, each
    for the filter that is set. *)
Theorem filterTasks_filters_in_turn tasks filters :
  plainSearch filters → filterTasks tasks filters = filterInTurn tasks filters.
Proof.
  intros Hplain. unfold filterTasks, filterInTurn, matchesFilters.
  unfold plainSearch in Hplain.
  destruct (filterSearch filters) as [search|].
  - rewrite searchTasks_filter by auto. unfold getTasksByPriority, getTasksByStatus.
    destruct (filterStatus filters) as [s|], (filterPriority filters) as [p|];
      rewrite ?filter_filter; apply filter_ext; intros task;
      repeat case_bool_decide; simpl; try done;
      repeat case_decide; try done; by destruct (Js.stringIncludes _ _).
  - unfold getTasksByPriority, getTasksByStatus.
    destruct (filterStatus filters) as [s|], (filterPriority filters) as [p|];
      rewrite ?filter_filter;
      first [ apply filter_true
            | apply filter_ext; intros task; repeat case_bool_decide;
              simpl; done ].
Qed.

Lemma searchTasks_ignores_case_witness :
  Js.toLowerCase "Report" = Js.toLowerCase "REPORT"
  ∧ searchTasks [sample "1"; sample "2"] "Report"
    = searchTasks [sample "1"; sample "2"] "REPORT".
Proof.
  assert (Js.toLowerCase "Report" = Js.toLowerCase "REPORT") as Hq
    by reflexivity.
  split; [exact Hq|].
  exact (searchTasks_ignores_case [sample "1"; sample "2"] "Report" "REPORT" Hq).
Defined.

Lemma filterTasks_filters_in_turn_witness :
  let filters :=
    {| filterStatus := Some Todo; filterPriority := None;
       filterSearch := Some "report" |} in
  plainSearch filters
  ∧ filterTasks [sample "1"; sample "2"] filters
    = filterInTurn [sample "1"; sample "2"] filters.
Proof.
  intros filters.
  assert (plainSearch filters) as Hplain.
  { intros search [= <-]. right. by vm_compute. }
  split; [exact Hplain|].
  exact (filterTasks_filters_in_turn [sample "1"; sample "2"] filters Hplain).
Defined.

(** A search text of white space only: [searchTasks] keeps every task,
    [filterTasks] looks for the white space. *)
Lemma filterTasks_blank_search :
  let filters :=
    {| filterStatus := None; filterPriority := None;
       filterSearch := Some "   " |} in
  searchTasks [sample "1"] "   " = [sample "1"]
  ∧ filterTasks [sample "1"] filters = [].
Proof. split; reflexivity. Qed.

End FilterFacts.

(** ** Grouping and counting *)

Module GroupFacts.
Import Types Helpers Spec HelperSpec.

Lemma foldl_pushByStatus tasks : ∀ groups,
  foldl pushByStatus groups tasks
  = {| groupTodo := groupTodo groups ++ getTasksByStatus tasks Todo;
       groupInProgress :=
         groupInProgress groups ++ getTasksByStatus tasks InProgress;
       groupDone := groupDone groups ++ getTasksByStatus tasks Done |}.
Proof.
  induction tasks as [|task tasks IH]; intros [t i d]; simpl.
  - by rewrite !app_nil_r.
  - rewrite IH. unfold pushByStatus. destruct (status task); simpl;
      by rewrite <-?(assoc_L (++)).
Qed.

Lemma foldl_pushByPriority tasks : ∀ groups,
  foldl pushByPriority groups tasks
  = {| groupHigh := groupHigh groups ++ getTasksByPriority tasks High;
       groupMedium := groupMedium groups ++ getTasksByPriority tasks Medium;
       groupLow := groupLow groups ++ getTasksByPriority tasks Low |}.
Proof.
  induction tasks as [|task tasks IH]; intros [h m l]; simpl.
  - by rewrite !app_nil_r.
  - rewrite IH. unfold pushByPriority. destruct (priority task); simpl;
      by rewrite <-?(assoc_L (++)).
Qed.

Lemma foldl_countByStatus tasks : ∀ counts,
  foldl countByStatus counts tasks
  = {| countTodo :=
         countTodo counts + Z.of_nat (length (getTasksByStatus tasks Todo));
       countInProgress :=
         countInProgress counts
         + Z.of_nat (length (getTasksByStatus tasks InProgress));
       countDone :=
         countDone counts + Z.of_nat (length (getTasksByStatus tasks Done)) |}%Z.
Proof.
  induction tasks as [|task tasks IH]; intros [t i d]; simpl.
  - f_equal; lia.
  - rewrite IH. unfold countByStatus. destruct (status task); simpl;
      f_equal; lia.
Qed.

Lemma foldl_countByPriority tasks : ∀ counts,
  foldl countByPriority counts tasks
  = {| countHigh :=
         countHigh counts + Z.of_nat (length (getTasksByPriority tasks High));
       countMedium :=
         countMedium counts
         + Z.of_nat (length (getTasksByPriority tasks Medium));
       countLow :=
         countLow counts + Z.of_nat (length (getTasksByPriority tasks Low)) |}%Z.
Proof.
  induction tasks as [|task tasks IH]; intros [h m l]; simpl.
  - f_equal; lia.
  - rewrite IH. unfold countByPriority. destruct (priority task); simpl;
      f_equal; lia.
Qed.

Lemma getTasksByStatus_length tasks :
  length (getTasksByStatus tasks Todo)
  + length (getTasksByStatus tasks InProgress)
  + length (getTasksByStatus tasks Done) = length tasks.
Proof.
  induction tasks as [|task tasks IH]; [done|]. simpl.
  destruct (status task); simpl; lia.
Qed.

Lemma getTasksByPriority_length tasks :
  length (getTasksByPriority tasks High)
  + length (getTasksByPriority tasks Medium)
  + length (getTasksByPriority tasks Low) = length tasks.
Proof.
  induction tasks as [|task tasks IH]; [done|]. simpl.
  destruct (priority task); simpl; lia.
Qed.

Lemma groupTasksByStatus_spec tasks :
  groupTasksByStatus tasks
  = {| groupTodo := getTasksByStatus tasks Todo;
       groupInProgress := getTasksByStatus tasks InProgress;
       groupDone := getTasksByStatus tasks Done |}.
Proof. unfold groupTasksByStatus. by rewrite foldl_pushByStatus. Qed.

Lemma groupTasksByPriority_spec tasks :
  groupTasksByPriority tasks
  = {| groupHigh := getTasksByPriority tasks High;
       groupMedium := getTasksByPriority tasks Medium;
       groupLow := getTasksByPriority tasks Low |}.
Proof. unfold groupTasksByPriority. by rewrite foldl_pushByPriority. Qed.

(** X14: each group of [groupTasksByStatus] is what [getTasksByStatus]
    gives for its status, and each group of [groupTasksByPriority] what
    [getTasksByPriority] gives for its priority: the tasks of the group in
    the order of the input. *)
Theorem groups_are_the_filtered_lists tasks :
  groupTodo (groupTasksByStatus tasks) = getTasksByStatus tasks Todo
  ∧ groupInProgress (groupTasksByStatus tasks)
    = getTasksByStatus tasks InProgress
  ∧ groupDone (groupTasksByStatus tasks) = getTasksByStatus tasks Done
  ∧ groupHigh (groupTasksByPriority tasks) = getTasksByPriority tasks High
  ∧ groupMedium (groupTasksByPriority tasks) = getTasksByPriority tasks Medium
  ∧ groupLow (groupTasksByPriority tasks) = getTasksByPriority tasks Low.
Proof.
  rewrite groupTasksByStatus_spec, groupTasksByPriority_spec.
  repeat split; reflexivity.
Qed.

(** X15: the counts of [getTaskCountByStatus] and [getTaskCountByPriority]
    are the sizes of the groups, and each of the two records adds up to
    the number of tasks. *)
Theorem counts_add_up tasks :
  let byStatus := getTaskCountByStatus tasks in
  let byPriority := getTaskCountByPriority tasks in
  countTodo byStatus = Z.of_nat (length (groupTodo (groupTasksByStatus tasks)))
  ∧ countInProgress byStatus
    = Z.of_nat (length (groupInProgress (groupTasksByStatus tasks)))
  ∧ countDone byStatus = Z.of_nat (length (groupDone (groupTasksByStatus tasks)))
  ∧ countHigh byPriority
    = Z.of_nat (length (groupHigh (groupTasksByPriority tasks)))
  ∧ countMedium byPriority
    = Z.of_nat (length (groupMedium (groupTasksByPriority tasks)))
  ∧ countLow byPriority
    = Z.of_nat (length (groupLow (groupTasksByPriority tasks)))
  ∧ (countTodo byStatus + countInProgress byStatus + countDone byStatus
     = Z.of_nat (length tasks))%Z
  ∧ (countHigh byPriority + countMedium byPriority + countLow byPriority
     = Z.of_nat (length tasks))%Z.
Proof.
  intros byStatus byPriority. unfold byStatus, byPriority.
  unfold getTaskCountByStatus, getTaskCountByPriority.
  rewrite foldl_countByStatus, foldl_countByPriority.
  rewrite groupTasksByStatus_spec, groupTasksByPriority_spec.
  pose proof (getTasksByStatus_length tasks).
  pose proof (getTasksByPriority_length tasks).
  cbn [countTodo countInProgress countDone countHigh countMedium countLow
       groupTodo groupInProgress groupDone groupHigh groupMedium groupLow].
  repeat split; lia.
Qed.

End GroupFacts.

(** ** sortByStatus, sortByCreationDate and sanitizeTaskData *)

Module OrderFacts.
Import Types Helpers Spec HelperSpec SortFacts SequentialFacts GroupFacts TextFacts.

Lemma filter_bool_decide {A} (P : A → Prop) `{!∀ x, Decision (P x)} (l : list A) :
  List.filter (λ x, bool_decide (P x)) l = filter P l.
Proof.
  induction l as [|x l IH]; [done|]. simpl. rewrite filter_cons.
  case_bool_decide; rewrite IH; [rewrite decide_True by done|
                                  rewrite decide_False by done]; done.
Qed.

Lemma getTasksByStatus_none tasks s :
  Forall (λ t, status t ≠ s) tasks → getTasksByStatus tasks s = [].
Proof.
  induction 1 as [|task tasks Hs _ IH]; [done|]. simpl.
  by rewrite bool_decide_eq_false_2.
Qed.

Lemma getTasksByStatus_cons task tasks s :
  getTasksByStatus (task :: tasks) s
  = if bool_decide (status task = s) then task :: getTasksByStatus tasks s
    else getTasksByStatus tasks s.
Proof. reflexivity. Qed.

Lemma getTasksByStatus_below tasks (task : Task) s :
  Forall (λ t, (statusRank (status task) ≤ statusRank (status t))%Z) tasks →
  (statusRank s < statusRank (status task))%Z →
  getTasksByStatus tasks s = [].
Proof.
  intros Hhead Hs. apply getTasksByStatus_none.
  eapply Forall_impl; [exact Hhead|]. intros t Ht Heq. cbv beta in Ht.
  rewrite Heq in Ht. lia.
Qed.

(** A list in the order todo, in-progress, done is its three groups one
    after the other. *)
Lemma sorted_by_status tasks :
  StronglySorted (weightNonDecreasing (λ t, statusRank (status t))) tasks →
  tasks = getTasksByStatus tasks Todo ++ getTasksByStatus tasks InProgress
          ++ getTasksByStatus tasks Done.
Proof.
  induction 1 as [|task tasks Hsorted IH Hhead]; [done|].
  unfold weightNonDecreasing in Hhead. rewrite !getTasksByStatus_cons.
  destruct (status task) eqn:Hs.
  - rewrite bool_decide_eq_true_2, !bool_decide_eq_false_2 by done.
    cbn [app]. by rewrite <-IH.
  - rewrite (getTasksByStatus_below tasks task Todo) in IH |- *
      by (rewrite ?Hs; done).
    repeat case_bool_decide; try discriminate; try done.
    cbn [app] in *. by rewrite <-IH.
  - rewrite (getTasksByStatus_below tasks task Todo) in IH |- *
      by (rewrite ?Hs; done).
    rewrite (getTasksByStatus_below tasks task InProgress) in IH |- *
      by (rewrite ?Hs; done).
    repeat case_bool_decide; try discriminate; try done.
    cbn [app] in *. by rewrite <-IH.
Qed.

Lemma indexOfZ_statusOrder s :
  Js.indexOfZ (statusName s) statusOrder = statusRank s.
Proof. by destruct s. Qed.

Lemma sortByStatus_sorted localeCompare tasks :
  let sorted := sortByStatus localeCompare tasks in
  sorted ≡ₚ tasks
  ∧ StronglySorted (weightNonDecreasing (λ t, statusRank (status t))) sorted
  ∧ ∀ s, getTasksByStatus sorted s = getTasksByStatus tasks s.
Proof.
  intros sorted.
  destruct (sort_by_weight_ascending
              (λ t, statusRank (status t))
              (λ a b, Js.compareResult
                        (sortComparator localeCompare
                           {| field := FieldStatus; order := Asc |} a b))
              tasks) as (Hperm & Hsorted & Hstable).
  { intros a b. simpl. by rewrite !indexOfZ_statusOrder. }
  split; [done|]. split; [done|]. intros s. unfold getTasksByStatus.
  rewrite !(filter_bool_decide (λ t, status t = s)).
  apply Hstable. by intros x y -> ->.
Qed.

(** X16: [sortByStatus] returns the groups of [groupTasksByStatus] one
    after the other: todo, in-progress, done, each in the order of the
    input. *)
Theorem sortByStatus_concatenates_groups localeCompare tasks :
  sortByStatus localeCompare tasks
  = groupTodo (groupTasksByStatus tasks)
    ++ groupInProgress (groupTasksByStatus tasks)
    ++ groupDone (groupTasksByStatus tasks).
Proof.
  destruct (sortByStatus_sorted localeCompare tasks)
    as (_ & Hsorted & Hstable).
  rewrite groupTasksByStatus_spec. cbn [groupTodo groupInProgress groupDone].
  rewrite <-!Hstable. by apply sorted_by_status.
Qed.

(** X17: on tasks whose creation dates are valid, [sortByCreationDate]
    returns a permutation of the input in which no task is created later
    than a task before it, and tasks created at the same time keep their
    order. *)
Theorem sortByCreationDate_newest_first localeCompare tasks :
  Forall validCreatedAt tasks →
  let sorted := sortByCreationDate localeCompare tasks in
  sorted ≡ₚ tasks
  ∧ StronglySorted createdNoEarlier sorted
  ∧ ∀ created, filter (λ t, createdAt t = created) sorted
               = filter (λ t, createdAt t = created) tasks.
Proof.
  intros Hvalid sorted.
  set (w := λ t : Task, default 0%Z (getTime (createdAt t))).
  assert (sorted = Js.sort (λ a b, w b - w a)%Z tasks) as Hsorted.
  { apply sort_ext. intros a b Ha Hb. rewrite Forall_forall in Hvalid.
    pose proof (Hvalid a Ha) as Hca. pose proof (Hvalid b Hb) as Hcb.
    unfold validCreatedAt, w, sortComparator in *. cbn [field order].
    destruct (createdAt a), (createdAt b); try done. simpl. lia. }
  destruct (sort_by_weight_descending w (λ a b, w b - w a)%Z tasks)
    as (Hperm & Hdesc & Hstable); [done|].
  rewrite <-Hsorted in *. split; [done|]. split.
  - assert (Forall validCreatedAt sorted) as Hvalid' by by rewrite Hperm.
    clear Hsorted Hperm Hstable. induction Hdesc as [|t l Hl IH Hhead].
    + constructor.
    + apply Forall_cons in Hvalid' as [Ht Hvalid']. constructor; [by apply IH|].
      rewrite Forall_forall in Hhead, Hvalid'. apply Forall_forall.
      intros u Hu. specialize (Hhead u Hu). specialize (Hvalid' u Hu).
      unfold weightNonIncreasing, w, createdNoEarlier, validCreatedAt in *.
      by destruct (createdAt t), (createdAt u).
  - intros created. apply Hstable. intros x y Hx Hy. unfold w. by rewrite Hx, Hy.
Qed.

Lemma isValidStatus_statusName s : isValidStatus (statusName s) = true.
Proof. by destruct s. Qed.

Lemma isValidPriority_priorityName p : isValidPriority (priorityName p) = true.
Proof. by destruct p. Qed.

(** X18: [sanitizeTaskData] changes nothing in data it has already
    sanitised. *)
Theorem sanitizeTaskData_idempotent data :
  sanitizeTaskData (sanitizeTaskData data) = sanitizeTaskData data.
Proof.
  destruct data as [t d s p]. unfold sanitizeTaskData. simpl.
  rewrite !isValidStatus_statusName, !isValidPriority_priorityName,
    trim_idemp.
  f_equal. destruct d as [d|]; [|done].
  destruct (decide (Js.trim d = "")) as [|Hne]; [done|].
  rewrite trim_idemp. by rewrite decide_False.
Qed.

Lemma sortByCreationDate_newest_first_witness :
  let tasks := [sampleAt "1" Low (ValidDate 5); sampleAt "2" High (ValidDate 9)] in
  Forall validCreatedAt tasks
  ∧ sortByCreationDate (λ _ _, 0%Z) tasks ≡ₚ tasks
  ∧ id <$> sortByCreationDate (λ _ _, 0%Z) tasks = ["2"; "1"].
Proof.
  intros tasks.
  assert (Forall validCreatedAt tasks) as Hvalid by (repeat constructor; done).
  split; [exact Hvalid|].
  split;
    [exact (proj1 (sortByCreationDate_newest_first (λ _ _, 0%Z) tasks Hvalid))|].
  reflexivity.
Defined.

End OrderFacts.

(** ** Clearing, reloading and backups *)

Module PersistenceFacts.
Import Types Storage Platform Spec StorageSpec StorageFacts.

Lemma restored_validDates task : validDates (restored task).
Proof.
  destruct task as [i t d s p c u]. unfold restored, validDates. simpl.
  by destruct c, u.
Qed.

Lemma restored_tasksEqual task : Helpers.tasksEqual task (restored task) = true.
Proof.
  unfold Helpers.tasksEqual, restored. simpl.
  by rewrite !bool_decide_eq_true_2.
Qed.

Lemma restored_idemp task : restored (restored task) = restored task.
Proof. apply rehydrate_stringifyTask, restored_validDates. Qed.

Lemma restored_valid task : validDates task → restored task = task.
Proof. apply rehydrate_stringifyTask. Qed.

Lemma file_save_load path tasks w :
  ∃ w', saveTasks (FileStorage fileSystem path) tasks w = (Ok (), w')
        ∧ loadTasks (FileStorage fileSystem path) w'
          = (Ok (restored <$> tasks), w').
Proof.
  exists (<[path := stringify tasks]> w). split; [done|].
  simpl. unfold FileStorage_loadTasks. simpl. rewrite lookup_insert_eq. simpl.
  by rewrite <-list_fmap_compose.
Qed.

Lemma local_save_load key tasks w :
  ∃ w', saveTasks (LocalStorage webStorage key) tasks w = (Ok (), w')
        ∧ loadTasks (LocalStorage webStorage key) w'
          = (Ok (restored <$> tasks), w').
Proof.
  exists (<[key := stringify tasks]> w). split; [done|].
  simpl. unfold LocalStorage_loadTasks. simpl. rewrite lookup_insert_eq. simpl.
  by rewrite <-list_fmap_compose.
Qed.

Lemma api_save_load baseUrl apiKey tasks w :
  ∃ w', saveTasks (ApiStorage restServer baseUrl apiKey) tasks w = (Ok (), w')
        ∧ loadTasks (ApiStorage restServer baseUrl apiKey) w'
          = (Ok (restored <$> tasks), w').
Proof.
  exists (<[baseUrl +:+ "/tasks" := stringify tasks]> w). split; [done|].
  simpl. unfold ApiStorage_loadTasks, restServer. simpl.
  rewrite lookup_insert_eq. simpl. by rewrite <-list_fmap_compose.
Qed.

Lemma restored_list_spec tasks :
  Forall2 (λ t t', Helpers.tasksEqual t t' = true) tasks (restored <$> tasks)
  ∧ Forall validDates (restored <$> tasks)
  ∧ restored <$> (restored <$> tasks) = restored <$> tasks.
Proof.
  split; [|split].
  - apply Forall2_fmap_r, Forall_Forall2_diag, Forall_forall.
    intros t _. apply restored_tasksEqual.
  - apply Forall_fmap, Forall_forall. intros t _. apply restored_validDates.
  - rewrite <-list_fmap_compose. apply list_fmap_ext. intros i t _.
    apply restored_idemp.
Qed.

Lemma file_clear_load path w :
  ∃ w', clearTasks (FileStorage fileSystem path) w = (Ok (), w')
        ∧ w' = delete path w
        ∧ loadTasks (FileStorage fileSystem path) w' = (Ok [], w').
Proof.
  exists (delete path w). simpl.
  unfold FileStorage_clearTasks, FileStorage_loadTasks. simpl.
  rewrite lookup_delete_eq. simpl. split; [|done].
  destruct (w !! path) eqn:Hw; simpl; [done|].
  by rewrite delete_id.
Qed.

Lemma local_clear_load key w :
  ∃ w', clearTasks (LocalStorage webStorage key) w = (Ok (), w')
        ∧ w' = delete key w
        ∧ loadTasks (LocalStorage webStorage key) w' = (Ok [], w').
Proof.
  exists (delete key w). simpl.
  unfold LocalStorage_clearTasks, LocalStorage_loadTasks. simpl.
  by rewrite lookup_delete_eq.
Qed.

Lemma api_clear_load baseUrl apiKey w :
  ∃ w', clearTasks (ApiStorage restServer baseUrl apiKey) w = (Ok (), w')
        ∧ loadTasks (ApiStorage restServer baseUrl apiKey) w'
          = (Throw ("Failed to load tasks: "
                      +:+ ("API request failed: " +:+ "Not Found")), w').
Proof.
  exists (delete (baseUrl +:+ "/tasks") w). simpl.
  unfold ApiStorage_clearTasks, ApiStorage_loadTasks, restServer. simpl.
  by rewrite lookup_delete_eq.
Qed.

Section Backup.
Context {W : Type} (storage : TaskStorage W).

Lemma restoreFromBackup_failure backup w msg w' :
  restoreFromBackup storage backup w = (Throw msg, w') →
  ∃ detail, msg = "Failed to restore backup: " +:+ detail.
Proof.
  unfold restoreFromBackup. destruct backup as [bad| |v ts l].
  - intros [= <- <-]. eauto.
  - intros [= <- <-]. eauto.
  - destruct (saveTasks storage _ w) as [[[]|m] w3]; intros [= <- <-]; eauto.
Qed.
End Backup.

(** X21: when the load succeeds, [createBackup] returns a backup, and
    [restoreFromBackup] on that backup saves the tasks that were loaded,
    as they are read back; it succeeds when the save does and otherwise
    raises "Failed to restore backup: " followed by the message of the
    save. *)
Theorem backup_round_trip {W} (storage : TaskStorage W) now w tasks w1 :
  loadTasks storage w = (Ok tasks, w1) →
  ∃ backup,
    createBackup storage now w = (Ok backup, w1)
    ∧ ∀ w2, restoreFromBackup storage backup w2
            = restoreOutcome (saveTasks storage (restored <$> tasks) w2).
Proof.
  intros Hload. unfold createBackup. rewrite Hload. eexists. split; [done|].
  intros w2. unfold restoreFromBackup, restoreOutcome.
  rewrite <-list_fmap_compose.
  by destruct (saveTasks storage _ w2) as [[[]|msg] w3].
Qed.

Lemma backup_round_trip_witness :
  loadTasks MemoryStorage [sample "1"] = (Ok [sample "1"], [sample "1"])
  ∧ ∃ backup,
      createBackup MemoryStorage 1700000000000 [sample "1"]
      = (Ok backup, [sample "1"])
      ∧ ∀ w2, restoreFromBackup MemoryStorage backup w2
              = restoreOutcome
                  (saveTasks MemoryStorage (restored <$> [sample "1"]) w2).
Proof.
  split; [reflexivity|].
  exact (backup_round_trip MemoryStorage 1700000000000 [sample "1"]
           [sample "1"] [sample "1"] eq_refl).
Defined.

(** X19: the file adapter's [clearTasks] ignores a failure of the
    removal with code ENOENT and raises every other one as "Failed to
    clear tasks: ...".  On a file system and on a [localStorage] area,
    [clearTasks] succeeds whether or not something is stored, removes the
    stored collection, and the load that follows gives the empty list;
    against a server that forgets the collection on DELETE, the load that
    follows raises the not-found error. *)
Theorem clear_then_load :
  (∀ W (fs : FsPromises W) path w e w',
     unlink fs path w = (Some e, w') →
     clearTasks (FileStorage fs path) w
     = (if decide (code e = Some "ENOENT") then Ok ()
        else Throw ("Failed to clear tasks: " +:+ message e), w'))
  ∧ (∀ path w,
     ∃ w', clearTasks (FileStorage fileSystem path) w = (Ok (), w')
           ∧ w' = delete path w
           ∧ loadTasks (FileStorage fileSystem path) w' = (Ok [], w'))
  ∧ (∀ key w,
       ∃ w', clearTasks (LocalStorage webStorage key) w = (Ok (), w')
             ∧ w' = delete key w
             ∧ loadTasks (LocalStorage webStorage key) w' = (Ok [], w'))
  ∧ (∀ this_tasks,
       ∃ w', clearTasks MemoryStorage this_tasks = (Ok (), w')
             ∧ loadTasks MemoryStorage w' = (Ok [], w'))
  ∧ (∀ baseUrl apiKey w,
       ∃ w', clearTasks (ApiStorage restServer baseUrl apiKey) w = (Ok (), w')
             ∧ loadTasks (ApiStorage restServer baseUrl apiKey) w'
               = (Throw ("Failed to load tasks: "
                           +:+ ("API request failed: " +:+ "Not Found")), w')).
Proof.
  split.
  { intros W fs path w e w' Hunlink. simpl. unfold FileStorage_clearTasks.
    rewrite Hunlink. by destruct (decide (code e = Some "ENOENT")). }
  split; [exact file_clear_load|]. split; [exact local_clear_load|].
  split; [|exact api_clear_load]. intros this_tasks. by exists [].
Qed.

(** X20: whatever the dates of the tasks, a save followed by a load on a
    file system, a [localStorage] area or a server that keeps the last
    body gives a list that agrees with the saved one task by task under
    [tasksEqual] and has valid dates only; saving and loading that list
    again gives it back unchanged. *)
Theorem load_after_save_is_stable tasks :
  let loaded := restored <$> tasks in
  Forall2 (λ t t', Helpers.tasksEqual t t' = true) tasks loaded
  ∧ Forall validDates loaded
  ∧ restored <$> loaded = loaded
  ∧ (∀ path w,
       ∃ w', saveTasks (FileStorage fileSystem path) tasks w = (Ok (), w')
             ∧ loadTasks (FileStorage fileSystem path) w' = (Ok loaded, w'))
  ∧ (∀ key w,
       ∃ w', saveTasks (LocalStorage webStorage key) tasks w = (Ok (), w')
             ∧ loadTasks (LocalStorage webStorage key) w' = (Ok loaded, w'))
  ∧ (∀ baseUrl apiKey w,
       ∃ w', saveTasks (ApiStorage restServer baseUrl apiKey) tasks w
             = (Ok (), w')
             ∧ loadTasks (ApiStorage restServer baseUrl apiKey) w'
               = (Ok loaded, w')).
Proof.
  intros loaded. destruct (restored_list_spec tasks) as (Heq & Hvalid & Hidem).
  split; [done|]. split; [done|]. split; [done|].
  split; [intros; apply file_save_load|].
  split; [intros; apply local_save_load|]. intros; apply api_save_load.
Qed.

End PersistenceFacts.

(** ** The operations of the hook *)

Module OperationFacts.
Import Types Storage Platform Hook Spec StorageSpec HookSpec GroupFacts HookFacts PersistenceFacts.

Lemma stats_counts l :
  statsTodo (stats l) = Helpers.countTodo (Helpers.getTaskCountByStatus l)
  ∧ statsInProgress (stats l)
    = Helpers.countInProgress (Helpers.getTaskCountByStatus l)
  ∧ statsDone (stats l) = Helpers.countDone (Helpers.getTaskCountByStatus l)
  ∧ statsByPriority (stats l) = Helpers.getTaskCountByPriority l.
Proof.
  unfold Helpers.getTaskCountByStatus, Helpers.getTaskCountByPriority.
  rewrite foldl_countByStatus, foldl_countByPriority. simpl.
  repeat split; reflexivity.
Qed.

Lemma stats_total l :
  (statsTodo (stats l) + statsInProgress (stats l) + statsDone (stats l)
   = statsTotal (stats l))%Z
  ∧ (Helpers.countHigh (statsByPriority (stats l))
     + Helpers.countMedium (statsByPriority (stats l))
     + Helpers.countLow (statsByPriority (stats l))
     = statsTotal (stats l))%Z.
Proof.
  pose proof (getTasksByStatus_length l) as Hs.
  pose proof (getTasksByPriority_length l) as Hp.
  unfold Helpers.getTasksByStatus, Helpers.getTasksByPriority in *.
  simpl. lia.
Qed.

Lemma find_id_Some (l : list Task) taskId t :
  List.find (λ t, bool_decide (id t = taskId)) l = Some t →
  t ∈ l ∧ id t = taskId.
Proof.
  intros [Hin Hid]%find_some. split; [by apply list_elem_of_In|].
  by apply bool_decide_eq_true in Hid.
Qed.

Lemma find_id_None (l : list Task) taskId :
  List.find (λ t, bool_decide (id t = taskId)) l = None ↔ taskId ∉ id <$> l.
Proof.
  induction l as [|t l IH].
  - split; [intros _; apply not_elem_of_nil|done].
  - rewrite fmap_cons, not_elem_of_cons. cbn [List.find].
    case_bool_decide; [|naive_solver].
    split; [done|]. intros [? _]. congruence.
Qed.

Lemma fmap_replace_ids (l : list Task) taskId (updated : Task) :
  id updated = taskId →
  id <$> ((λ t, if decide (id t = taskId) then updated else t) <$> l)
  = id <$> l.
Proof.
  intros Hid. rewrite <-list_fmap_compose. apply list_fmap_ext.
  intros i t _. simpl. by destruct (decide (id t = taskId)) as [->|].
Qed.

Lemma find_replace (l : list Task) taskId (updated existingTask : Task) :
  id updated = taskId →
  List.find (λ t, bool_decide (id t = taskId)) l = Some existingTask →
  List.find (λ t, bool_decide (id t = taskId))
    ((λ t, if decide (id t = taskId) then updated else t) <$> l)
  = Some updated.
Proof.
  intros Hid. induction l as [|t l IH]; [done|]. rewrite fmap_cons.
  cbn [List.find]. destruct (decide (id t = taskId)) as [Ht|Ht].
  - intros _. by rewrite (bool_decide_eq_true_2 (id updated = taskId)).
  - by rewrite !(bool_decide_eq_false_2 (id t = taskId)).
Qed.

Section WithStorage.
Context {W : Type} (storage : TaskStorage W).

Lemma updateTask_not_found now taskId data h w :
  taskId ∉ id <$> tasks h →
  (updateTask storage now taskId data (h, w)).1
  = Throw ("Task with id " +:+ taskId +:+ " not found").
Proof.
  intros Hnot. apply find_id_None in Hnot. unfold updateTask. by rewrite Hnot.
Qed.

Lemma markAllAsComplete_tasks now h w :
  let result := markAllAsComplete storage now (h, w) in
  result.1 = Ok ()
  ∧ Forall2 (λ t t', Helpers.tasksEqual
                       {| id := id t; title := title t;
                          description := description t; status := Done;
                          priority := priority t; createdAt := createdAt t;
                          updatedAt := updatedAt t |} t' = true
                     ∧ createdAt t' = createdAt t)
      (tasks h) (tasks result.2.1).
Proof.
  unfold markAllAsComplete, CONFIG_ui_autoSave. cbn [fst snd].
  split; [done|]. rewrite saveTasksToStorage_tasks. cbn [tasks setTasks].
  generalize now. induction (tasks h) as [|t l IH]; intros now'; [constructor|].
  rewrite imap_cons. constructor; [|apply IH].
  unfold Helpers.tasksEqual. simpl. by rewrite !bool_decide_eq_true_2.
Qed.

Lemma markAllAsComplete_done now h w :
  Forall (λ t, status t = Done)
    (tasks (markAllAsComplete storage now (h, w)).2.1).
Proof.
  unfold markAllAsComplete, CONFIG_ui_autoSave. cbn [fst snd].
  rewrite saveTasksToStorage_tasks. cbn [tasks setTasks].
  generalize now. induction (tasks h) as [|t l IH]; intros now'; [constructor|].
  rewrite imap_cons. constructor; [done|apply IH].
Qed.

Lemma deleteCompletedTasks_tasks h w :
  (deleteCompletedTasks storage (h, w)).1 = Ok ()
  ∧ tasks (deleteCompletedTasks storage (h, w)).2.1
    = filter (λ t, status t ≠ Done) (tasks h).
Proof.
  unfold deleteCompletedTasks, CONFIG_ui_autoSave. cbn [fst snd].
  split; [done|]. by rewrite saveTasksToStorage_tasks.
Qed.

(** With a storage that keeps what is saved, the save an operation makes
    is what the next load returns. *)
Lemma saveTasksToStorage_kept l h w :
  keepsSaved storage →
  ∃ w', saveTasksToStorage storage l (h, w) = (h, w')
        ∧ loadTasks storage w' = (Ok (restored <$> l), w').
Proof.
  intros Hkeeps. destruct (Hkeeps l w) as (w' & Hsave & Hload).
  exists w'. unfold saveTasksToStorage. by rewrite Hsave.
Qed.

Lemma refresh_after_save l h w :
  keepsSaved storage →
  let hw' := saveTasksToStorage storage l (setTasks l (setError None h), w) in
  tasks (refresh storage hw').1 = restored <$> tasks hw'.1
  ∧ error (refresh storage hw').1 = None.
Proof.
  intros Hkeeps hw'.
  destruct (saveTasksToStorage_kept l (setTasks l (setError None h)) w Hkeeps)
    as (w' & Hsave & Hload).
  unfold hw'. rewrite Hsave. unfold refresh, loadTasksFromStorage.
  rewrite Hload. done.
Qed.

End WithStorage.

Lemma keepsSaved_file path : keepsSaved (FileStorage fileSystem path).
Proof. intros l w. apply file_save_load. Qed.

Lemma keepsSaved_local key : keepsSaved (LocalStorage webStorage key).
Proof. intros l w. apply local_save_load. Qed.

Lemma filter_not_done (l : list Task) :
  Forall (λ t, status t = Done) l → filter (λ t, status t ≠ Done) l = [].
Proof.
  induction 1 as [|t l Ht _ IH]; [done|]. rewrite filter_cons.
  by rewrite decide_False by (by intros ?).
Qed.

(** X23: [updateTask] either raises, and then leaves the task list and
    the storage as they were and sets the error to the message raised; or
    it succeeds, and then the update was valid, every task with the
    identifier is replaced by the update of the first such task, every
    other task is left as it was, the identifiers are those of before in
    the same order, and [getTask] finds the updated task. *)
Theorem updateTask_frame {W} (storage : TaskStorage W) now taskId data h w :
  let result := updateTask storage now taskId data (h, w) in
  match result.1 with
  | Throw msg =>
      tasks result.2.1 = tasks h ∧ result.2.2 = w
      ∧ error result.2.1 = Some msg
  | Ok _ =>
      ∃ existingTask,
        getTask (tasks h) taskId = Some existingTask
        ∧ let updated := updatedTask existingTask data now in
          Helpers.isValid (Helpers.validateTask (partialOfTask updated)) = true
          ∧ tasks result.2.1
            = (λ t, if decide (id t = taskId) then updated else t) <$> tasks h
          ∧ id <$> tasks result.2.1 = id <$> tasks h
          ∧ getTask (tasks result.2.1) taskId = Some updated
  end.
Proof.
  unfold updateTask, getTask. cbv zeta.
  destruct (List.find _ (tasks h)) as [existingTask|] eqn:Hfind; [|done].
  destruct (Helpers.isValid _) eqn:Hvalid; cbn [negb]; [|done].
  unfold CONFIG_ui_autoSave. cbn [fst snd].
  exists existingTask. split; [done|]. split; [done|].
  rewrite saveTasksToStorage_tasks. cbn [tasks setTasks].
  apply find_id_Some in Hfind as Hex. destruct Hex as [_ Hid].
  split; [done|]. split; [by apply fmap_replace_ids|].
  by eapply find_replace.
Qed.

(** X24: [markAllAsComplete] and [deleteCompletedTasks] never raise;
    after the first every task counts as done in [stats] and the list has
    its length of before; the second, run next, leaves the list empty. *)
Theorem markAllAsComplete_then_deleteCompletedTasks {W}
    (storage : TaskStorage W) now h w :
  let marked := markAllAsComplete storage now (h, w) in
  let cleared := deleteCompletedTasks storage marked.2 in
  marked.1 = Ok () ∧ cleared.1 = Ok ()
  ∧ length (tasks marked.2.1) = length (tasks h)
  ∧ statsDone (stats (tasks marked.2.1)) = statsTotal (stats (tasks marked.2.1))
  ∧ tasks cleared.2.1 = [].
Proof.
  intros marked cleared.
  destruct (markAllAsComplete_tasks storage now h w) as [Hok Hall].
  pose proof (markAllAsComplete_done storage now h w) as Hdone.
  fold marked in Hok, Hall, Hdone.
  destruct marked as [r [h1 w1]] eqn:Hm. cbn [fst snd] in *.
  destruct (deleteCompletedTasks_tasks storage h1 w1) as [Hok2 Htasks].
  fold cleared in Hok2, Htasks.
  split; [done|]. split; [done|].
  split; [symmetry; by eapply Forall2_length|]. split.
  - destruct (stats_total (tasks h1)) as [Hsum _]. rewrite <-Hsum.
    assert (statsTodo (stats (tasks h1)) = 0%Z
            ∧ statsInProgress (stats (tasks h1)) = 0%Z) as [-> ->]; [|lia].
    simpl. clear -Hdone. induction Hdone as [|t l Ht _ [IH1 IH2]]; [done|].
    simpl. rewrite Ht. simpl. done.
  - rewrite Htasks. by apply filter_not_done.
Qed.

(** X25: with a storage that keeps what is saved, after each operation
    of the hook that succeeds ([createTask], [updateTask], [deleteTask],
    [deleteCompletedTasks], [markAllAsComplete]) a [refresh] loads the list
    the hook holds, as it is read back, and reports no error. *)
Theorem operations_are_persisted {W} (storage : TaskStorage W) h w :
  keepsSaved storage →
  (∀ env data, persisted storage (createTask storage env data (h, w)))
  ∧ (∀ now taskId data,
       persisted storage (updateTask storage now taskId data (h, w)))
  ∧ (∀ taskId, persisted storage (deleteTask storage taskId (h, w)))
  ∧ persisted storage (deleteCompletedTasks storage (h, w))
  ∧ (∀ now, persisted storage (markAllAsComplete storage now (h, w))).
Proof.
  intros Hkeeps. unfold persisted. repeat split.
  1, 2: revert H; unfold createTask;
    destruct (negb _); [done|]; intros _;
    unfold CONFIG_ui_autoSave; cbn [fst snd];
    by apply refresh_after_save.
  1, 2: revert H; unfold updateTask;
    destruct (List.find _ _); [|done];
    destruct (negb _); [done|]; intros _;
    unfold CONFIG_ui_autoSave; cbn [fst snd];
    by apply refresh_after_save.
  1, 2: revert H; unfold deleteTask;
    destruct (negb _); [done|]; intros _;
    unfold CONFIG_ui_autoSave; cbn [fst snd];
    by apply refresh_after_save.
  1, 2: unfold deleteCompletedTasks, CONFIG_ui_autoSave; cbn [fst snd];
    by apply refresh_after_save.
  1, 2: unfold markAllAsComplete, CONFIG_ui_autoSave; cbn [fst snd];
    by apply refresh_after_save.
Qed.

Lemma operations_are_persisted_witness :
  let storage := FileStorage fileSystem FILE_PATH in
  let created := createTask storage clock report (holding [sample "1"], ∅) in
  let deleted := deleteTask storage "1" (holding [sample "1"], ∅) in
  keepsSaved storage
  ∧ created.1 = Ok ()
  ∧ tasks (refresh storage created.2).1 = restored <$> tasks created.2.1
  ∧ deleted.1 = Ok ()
  ∧ tasks (refresh storage deleted.2).1 = restored <$> tasks deleted.2.1.
Proof.
  intros storage created deleted.
  pose proof (operations_are_persisted storage (holding [sample "1"]) ∅
                (keepsSaved_file FILE_PATH)) as Hpersisted.
  split; [exact (keepsSaved_file FILE_PATH)|].
  split; [reflexivity|].
  split; [exact (proj1 (proj1 Hpersisted clock report eq_refl))|].
  split; [reflexivity|].
  exact (proj1 (proj1 (proj2 (proj2 Hpersisted)) "1" eq_refl)).
Defined.

(** X22: the hook's [stats] agree with [getTaskCountByStatus] and
    [getTaskCountByPriority], and both the counts by status and the counts
    by priority add up to [total]. *)
Theorem stats_consistent l :
  statsTodo (stats l) = Helpers.countTodo (Helpers.getTaskCountByStatus l)
  ∧ statsInProgress (stats l)
    = Helpers.countInProgress (Helpers.getTaskCountByStatus l)
  ∧ statsDone (stats l) = Helpers.countDone (Helpers.getTaskCountByStatus l)
  ∧ statsByPriority (stats l) = Helpers.getTaskCountByPriority l
  ∧ (statsTodo (stats l) + statsInProgress (stats l) + statsDone (stats l)
     = statsTotal (stats l))%Z
  ∧ (Helpers.countHigh (statsByPriority (stats l))
     + Helpers.countMedium (statsByPriority (stats l))
     + Helpers.countLow (statsByPriority (stats l))
     = statsTotal (stats l))%Z.
Proof.
  destruct (stats_counts l) as (H1 & H2 & H3 & H4).
  destruct (stats_total l) as [H5 H6]. done.
Qed.

End OperationFacts.

(** ** Sorting and filtering commute *)

Module CommuteFacts.
Import Types Spec HelperSpec SortSpec SortFacts.

Section Comparator.
Context {A : Type} (cmp : A → A → Z) (rank : A → Z).
Hypothesis cmp_rank : ∀ x y, (0 < cmp x y)%Z ↔ (rank y < rank x)%Z.
Context (f : A → bool).

Lemma sortInsert_front x l :
  Forall (λ y, (rank x ≤ rank y)%Z) l → Js.sortInsert cmp x l = x :: l.
Proof.
  destruct 1 as [|y l Hy _]; [done|]. simpl.
  destruct (0 <? cmp x y)%Z eqn:Hc; [|done].
  apply Z.ltb_lt, cmp_rank in Hc. lia.
Qed.

Lemma Forall_filter_bool (P : A → Prop) l :
  Forall P l → Forall P (List.filter f l).
Proof.
  induction 1 as [|y l Hy _ IH]; simpl; [constructor|].
  destruct (f y); [by constructor|done].
Qed.

Lemma sortInsert_filter x l :
  StronglySorted (rankLe rank) l →
  List.filter f (Js.sortInsert cmp x l)
  = if f x then Js.sortInsert cmp x (List.filter f l) else List.filter f l.
Proof.
  induction 1 as [|y l Hl IH Hy]; simpl.
  - by destruct (f x).
  - destruct (0 <? cmp x y)%Z eqn:Hc.
    + simpl. rewrite IH. destruct (f x), (f y); try done.
      simpl. by rewrite Hc.
    + simpl. destruct (f x); [|done]. f_equal. symmetry.
      apply Z.ltb_ge in Hc.
      assert (rank x ≤ rank y)%Z as Hxy.
      { destruct (Z.le_gt_cases (rank x) (rank y)) as [?|Hgt]; [done|].
        apply cmp_rank in Hgt. lia. }
      change (if f y then y :: List.filter f l else List.filter f l)
        with (List.filter f (y :: l)).
      apply sortInsert_front, Forall_filter_bool. constructor; [done|].
      eapply Forall_impl; [exact Hy|]. unfold rankLe. intros z ?. lia.
Qed.

(** A stable sort by rank and a filter can be applied in either order. *)
Lemma sort_filter l :
  List.filter f (Js.sort cmp l) = Js.sort cmp (List.filter f l).
Proof.
  induction l as [|x l IH]; [done|]. simpl. fold (Js.sort cmp l).
  rewrite sortInsert_filter by by apply sort_Sorted.
  rewrite IH. by destruct (f x).
Qed.
End Comparator.

End CommuteFacts.

(** ** Priority utilities *)

Module PriorityFacts.
Import Spec SortFacts CommuteFacts.

Lemma getPriorityWeight_cases p :
  (p = "high" ∧ Priority.getPriorityWeight p = 3%Z)
  ∨ (p = "medium" ∧ Priority.getPriorityWeight p = 2%Z)
  ∨ (p = "low" ∧ Priority.getPriorityWeight p = 1%Z)
  ∨ ((p ∉ ["high"; "medium"; "low"]) ∧ Priority.getPriorityWeight p = 0%Z).
Proof.
  unfold Priority.getPriorityWeight, Config.PRIORITY_CONFIG. simpl.
  destruct (decide ("high" = p)) as [<-|?]; [by left|].
  destruct (decide ("medium" = p)) as [<-|?]; [by right; left|].
  destruct (decide ("low" = p)) as [<-|?]; [by right; right; left|].
  right; right; right. split; [|done]. set_solver.
Qed.

Section Generic.
Context {T : Type} (priority : T → string).

Lemma getHighPriorityTasks_default tasks :
  Priority.getHighPriorityTasks priority tasks None
  = Priority.filterByPriority priority tasks ["high"; "medium"].
Proof.
  unfold Priority.getHighPriorityTasks, Priority.filterByPriority.
  apply filter_ext. intros task. unfold Js.includes. cbn [default].
  unfold Datatypes.id.
  destruct (getPriorityWeight_cases (priority task))
    as [[Hp ->]|[[Hp ->]|[[Hp ->]|[Hp ->]]]];
    simpl; symmetry.
  - apply bool_decide_eq_true. rewrite Hp. set_solver.
  - apply bool_decide_eq_true. rewrite Hp. set_solver.
  - apply bool_decide_eq_false. rewrite Hp. set_solver.
  - apply bool_decide_eq_false. set_solver.
Qed.

Lemma getHighPriorityTasks_spec tasks (minWeight : Z) :
  (minWeight ≤ 0 → Priority.getHighPriorityTasks priority tasks (Some minWeight)
                   = tasks)%Z
  ∧ (3 < minWeight → Priority.getHighPriorityTasks priority tasks (Some minWeight)
                     = [])%Z.
Proof.
  unfold Priority.getHighPriorityTasks. cbn [default]. unfold Datatypes.id.
  split; intros Hm.
  - apply SanitizeFacts.filter_fixed. intros task _. apply Z.leb_le.
    destruct (getPriorityWeight_cases (priority task))
      as [[_ ->]|[[_ ->]|[[_ ->]|[_ ->]]]]; lia.
  - induction tasks as [|task tasks IH]; [done|]. simpl.
    rewrite (proj2 (Z.leb_gt _ _)); [done|].
    destruct (getPriorityWeight_cases (priority task))
      as [[_ ->]|[[_ ->]|[[_ ->]|[_ ->]]]]; lia.
Qed.

Lemma sortByPriority_filter (f : T → bool) tasks :
  List.filter f (Priority.sortByPriority priority tasks)
  = Priority.sortByPriority priority (List.filter f tasks).
Proof.
  unfold Priority.sortByPriority.
  apply (sort_filter _ (λ t, - Priority.getPriorityWeight (priority t))%Z).
  intros x y. unfold Priority.comparePriorities. lia.
Qed.

(** The groups that [groupByPriority] has built after some tasks. *)
Lemma groupByPriority_from (tasks : list T) :
  ∀ (done : list T) (groups : gmap string (list T)),
  Forall (λ task, priority task ∉ Js.objectPrototypeKeys) tasks →
  (∀ p, groups !! p
        = if decide (Priority.filterByPriority priority done [p] = [])
          then None
          else Some (Priority.filterByPriority priority done [p])) →
  ∃ groups',
    foldl
      (λ acc task,
         match acc with
         | Some groups =>
             match groups !! priority task with
             | Some group => Some (<[priority task := group ++ [task]]> groups)
             | None =>
                 if decide (priority task ∈ Js.objectPrototypeKeys) then None
                 else Some (<[priority task := [task]]> groups)
             end
         | None => None
         end)
      (Some groups) tasks = Some groups'
    ∧ ∀ p, groups' !! p
           = if decide (Priority.filterByPriority priority (done ++ tasks) [p]
                        = [])
             then None
             else Some (Priority.filterByPriority priority (done ++ tasks) [p]).
Proof.
  induction tasks as [|task tasks IH]; intros done groups Hkeys Hgroups.
  - exists groups. split; [done|]. by rewrite app_nil_r.
  - apply Forall_cons in Hkeys as [Hkey Hkeys]. cbn [foldl].
    assert (∀ p, Priority.filterByPriority priority (done ++ [task]) [p]
                 = Priority.filterByPriority priority done [p]
                   ++ (if decide (priority task = p) then [task] else []))
      as Hsnoc.
    { intros p. unfold Priority.filterByPriority. rewrite List.filter_app.
      f_equal. simpl. unfold Js.includes.
      destruct (decide (priority task = p)) as [->|Hne].
      - by rewrite bool_decide_eq_true_2 by set_solver.
      - by rewrite bool_decide_eq_false_2 by set_solver. }
    rewrite (cons_middle task done tasks), (assoc_L (++)).
    rewrite (Hgroups (priority task)).
    destruct (decide (Priority.filterByPriority priority done [priority task]
                      = [])) as [Hnil|Hsome].
    + rewrite decide_False by done. apply IH; [done|]. intros p.
      rewrite Hsnoc. destruct (decide (priority task = p)) as [<-|Hne].
      * rewrite lookup_insert_eq, Hnil. cbn [app]. by rewrite decide_False.
      * rewrite lookup_insert_ne, app_nil_r by done. apply Hgroups.
    + apply IH; [done|]. intros p.
      rewrite Hsnoc. destruct (decide (priority task = p)) as [<-|Hne].
      * rewrite lookup_insert_eq. rewrite decide_False; [done|].
        by intros [? _]%app_eq_nil.
      * rewrite lookup_insert_ne, app_nil_r by done. apply Hgroups.
Qed.

End Generic.

(** X29: when no priority is a name that plain objects inherit,
    [groupByPriority] returns, and under each priority that occurs it holds
    the tasks of that priority in the order of the input, while a priority
    that does not occur has no group. *)
Theorem groupByPriority_groups {T} (priority : T → string) tasks :
  Forall (λ task, priority task ∉ Js.objectPrototypeKeys) tasks →
  ∃ groups,
    Priority.groupByPriority priority tasks = Some groups
    ∧ ∀ p, groups !! p
           = if decide (Priority.filterByPriority priority tasks [p] = [])
             then None
             else Some (Priority.filterByPriority priority tasks [p]).
Proof.
  intros Hkeys. apply (groupByPriority_from priority tasks [] ∅ Hkeys).
  intros p. by rewrite lookup_empty.
Qed.

Lemma groupByPriority_groups_witness :
  let tasks := ["high"; "low"; "high"] in
  Forall (λ task : string, task ∉ Js.objectPrototypeKeys) tasks
  ∧ ∃ groups,
      Priority.groupByPriority (λ p, p) tasks = Some groups
      ∧ ∀ p, groups !! p
             = if decide (Priority.filterByPriority (λ p, p) tasks [p] = [])
               then None
               else Some (Priority.filterByPriority (λ p, p) tasks [p]).
Proof.
  intros tasks.
  assert (Forall (λ task : string, task ∉ Js.objectPrototypeKeys) tasks)
    as Hkeys by (repeat constructor; compute_done).
  split; [exact Hkeys|].
  exact (groupByPriority_groups (λ p, p) tasks Hkeys).
Defined.

(** On tasks that all carry one inherited name as their priority,
    [groupByPriority] throws. *)
Lemma groupByPriority_inherited {T} (priority : T → string) tasks task :
  task ∈ tasks → priority task ∈ Js.objectPrototypeKeys →
  (∀ t, t ∈ tasks → priority t = priority task) →
  Priority.groupByPriority priority tasks = None.
Proof.
  intros Hin Hkey Hsame. unfold Priority.groupByPriority.
  destruct tasks as [|t tasks]; [by apply elem_of_nil in Hin|].
  cbn [foldl]. rewrite lookup_empty, (Hsame t) by left.
  rewrite decide_True by done. clear. by induction tasks.
Qed.

(** X27: without a threshold, [getHighPriorityTasks] keeps exactly the
    tasks that [filterByPriority] keeps for "high" and "medium"; a
    threshold of zero or less keeps every task and a threshold above three
    keeps none. *)
Theorem getHighPriorityTasks_thresholds {T} (priority : T → string) tasks :
  Priority.getHighPriorityTasks priority tasks None
  = Priority.filterByPriority priority tasks ["high"; "medium"]
  ∧ ∀ minWeight : Z,
      (minWeight ≤ 0 →
       Priority.getHighPriorityTasks priority tasks (Some minWeight) = tasks)%Z
      ∧ (3 < minWeight →
         Priority.getHighPriorityTasks priority tasks (Some minWeight) = [])%Z.
Proof.
  split; [apply getHighPriorityTasks_default|].
  intros minWeight. apply getHighPriorityTasks_spec.
Qed.

(** X28: sorting by priority and filtering by priority can be done in
    either order: [sortByPriority] after [filterByPriority] or after
    [getHighPriorityTasks] gives what the filter gives after
    [sortByPriority]. *)
Theorem sortByPriority_commutes_with_filters {T} (priority : T → string)
    tasks priorities minWeight :
  Priority.sortByPriority priority
    (Priority.filterByPriority priority tasks priorities)
  = Priority.filterByPriority priority
      (Priority.sortByPriority priority tasks) priorities
  ∧ Priority.sortByPriority priority
      (Priority.getHighPriorityTasks priority tasks minWeight)
    = Priority.getHighPriorityTasks priority
        (Priority.sortByPriority priority tasks) minWeight.
Proof.
  unfold Priority.filterByPriority, Priority.getHighPriorityTasks.
  by rewrite !sortByPriority_filter.
Qed.

End PriorityFacts.

(** ** The filtered view of the hook *)

Module ViewFacts.
Import Types Helpers Hook Spec HelperSpec SortSpec SortFacts CommuteFacts OrderFacts.




End ViewFacts.

(** ** Creating a task *)

Module CreateFacts.
Import Types Storage Platform Hook Spec StorageSpec HookSpec FilterFacts HookFacts.

Lemma length_zero_empty (s : string) : String.length s = 0 ↔ s = "".
Proof. by destruct s. Qed.

(** What [validateTask] accepts in the data of a new task. *)
Lemma validateTask_partialOf data :
  Helpers.isValid (Helpers.validateTask (partialOf data)) = true
  ↔ onlyWhiteSpace (newTitle data) = false
    ∧ String.length (newTitle data) ≤ 200
    ∧ ∀ d, newDescription data = Some d → String.length d ≤ 1000.
Proof.
  unfold Helpers.validateTask. cbn [Helpers.isValid partialOf
    Helpers.partTitle Helpers.partDescription Helpers.partStatus
    Helpers.partPriority].
  rewrite bool_decide_eq_true, length_zero_iff_nil.
  rewrite OrderFacts.isValidStatus_statusName,
    OrderFacts.isValidPriority_priorityName, !app_nil_r.
  destruct (decide (newTitle data = "")) as [Hempty|Hne].
  { rewrite Hempty. split; [done|]. by intros [? _]. }
  destruct (decide (String.length (Js.trim (newTitle data)) = 0)) as [Hblank|Hsome].
  { apply length_zero_empty, trim_empty_iff in Hblank. rewrite Hblank.
    split; [done|]. by intros [? _]. }
  assert (onlyWhiteSpace (newTitle data) = false) as Htitle.
  { destruct (onlyWhiteSpace (newTitle data)) eqn:Hws; [|done].
    destruct Hsome. by apply length_zero_empty, trim_empty_iff. }
  destruct (decide (200 < String.length (newTitle data))) as [Hlong|Hfits].
  { split; [done|]. intros (_ & ? & _). lia. }
  cbn [app]. destruct (newDescription data) as [d|].
  - destruct (decide (1000 < String.length d)) as [Hd|Hd].
    + split; [done|]. intros (_ & _ & Hall). specialize (Hall d eq_refl). lia.
    + split; [|done]. intros _. split; [done|]. split; [lia|].
      intros d' [= <-]. lia.
  - split; [|done]. intros _. split; [done|]. split; [lia|]. by intros d' ?.
Qed.

(** X30: [createTask] succeeds exactly when the title has a character that
    is no white space and at most 200 characters and the description, if
    there is one, at most 1000; then the new task is appended to the list.
    Otherwise it raises, leaves the list and the storage as they were and
    sets the error to the message raised. *)
Theorem createTask_succeeds_iff {W} (storage : TaskStorage W) env data h w :
  let result := createTask storage env data (h, w) in
  (result.1 = Ok ()
   ↔ onlyWhiteSpace (newTitle data) = false
     ∧ String.length (newTitle data) ≤ 200
     ∧ ∀ d, newDescription data = Some d → String.length d ≤ 1000)
  ∧ match result.1 with
    | Ok _ => tasks result.2.1 = tasks h ++ [createdTask env data]
    | Throw msg =>
        tasks result.2.1 = tasks h ∧ result.2.2 = w
        ∧ error result.2.1 = Some msg
    end.
Proof.
  intros result. unfold result. rewrite <-validateTask_partialOf.
  destruct (Helpers.isValid (Helpers.validateTask (partialOf data))) eqn:Hvalid.
  - destruct (createTask_tasks storage env data h w Hvalid) as [Hok Htasks].
    rewrite Hok. done.
  - unfold createTask. rewrite Hvalid. cbn [negb fst snd]. done.
Qed.

End CreateFacts.
